(** * Coverage decision of task-2.js: sweep line over a counting segment tree

    The development embeds [canCoverAll] and the [SegmentTree] class of
    [src/task-2.js] and proves the properties stated for them.

    Numbers.  The inputs are integers.  A JavaScript number is a double: the
    integers up to 2^53 in magnitude are doubles, larger integers are
    doubles only when their 53 leading binary digits hold them, and a sum or
    a difference is the exact result rounded to the nearest double, ties to
    the even one, with the infinities beyond 2^1024 ([round53], [fl]).  A
    [number] is an integer or an infinity; a [jsnum] is a [number] or [None],
    which stands for both [undefined] and [NaN]: the program cannot tell
    them apart (arithmetic on either gives [NaN], every comparison with
    either is false).  The lengths of the tree and [totalLen] are [jsnum]s,
    computed with the rounding of the code.  Comparisons of inputs,
    [Math.max] and [Math.min] are exact on doubles, and so is the sign of
    [a.dist - b.dist] that the sort looks at.

    Counters.  [coverCount] holds sums of deltas.  [canCoverAll] passes one
    delta of 1 or -1 for each event of an array, and an array has fewer than
    2^32 elements, so these sums are exact in the code: a counter is an
    integer here and is added exactly.  The properties of [update] called
    with other deltas say what they assume of them.

    Positions.  The operators [<<], [>>] and [|] are only applied to tree
    positions, which stay far below 2^31, so they are [Z.shiftl], [Z.shiftr]
    and [Z.lor].  The bound [uRight - 1] of an update is only compared with
    indices of elementary intervals, which are as small; rounding changes
    none of these comparisons ([round53_lt]), and the bound is written
    without it.

    Arrays.  [coverCount] and [coveredLen] are JavaScript arrays: reading a
    slot that was never written gives [undefined] and writing past the end
    extends the array.  They are finite maps from positions to values.
    [new Array(len)] throws on a negative length, which the constructor of
    the tree reaches on an empty array of coordinates.  No limit of memory
    is modelled, nor the limit of 2^32 - 1 on the length of an array, which
    [new Array(4 * n)] would pass with more than 2^30 coordinates.

    The countdown.  The file also carries the Angular component that shows
    the countdown.  Of it the development embeds the two methods of
    [DeadlineComponent] that change its fields, [resetDeadline] and
    [setNow], with the reading of the clock as an argument.  The pipe that
    prints the seconds divides doubles and formats the quotient; it is not
    embedded. *)

From Equations Require Import Equations.
From Stdlib Require Import Reals Lra.
From stdpp Require Import gmap list sorting.

Local Open Scope Z_scope.

(** ** Values *)

(** An integer or an infinity. *)
Inductive number := Fin (z : Z) | PosInf | NegInf.

Coercion Fin : Z >-> number.

(** A number, or [undefined] or [NaN]. *)
Definition jsnum : Type := option number.

(** The nearest double of an integer, ties to even, with no bound on the
    exponent: the integers below 2^53 in magnitude are doubles; a larger one
    keeps its 53 leading binary digits [q], and is rounded up when the rest
    [r] is more than half a unit of the last digit, or is half a unit and
    [q] is odd. *)
Definition round53 (z : Z) : Z :=
  let a := Z.abs z in
  if a <? 2 ^ 53 then z
  else
    let k := Z.log2 a - 52 in
    let q := Z.shiftr a k in
    let r := a - Z.shiftl q k in
    let half := 2 ^ (k - 1) in
    let q' := if (half <? r) || ((r =? half) && Z.odd q) then q + 1 else q in
    Z.sgn z * Z.shiftl q' k.

(** The double that an exact integer result rounds to. *)
Definition fl (z : Z) : number :=
  let d := round53 z in
  if 2 ^ 1024 <=? d then PosInf
  else if d <=? - 2 ^ 1024 then NegInf
  else Fin d.

(** [a + b] on numbers; the sum of the two infinities is [NaN]. *)
Definition num_add (a b : number) : jsnum :=
  match a, b with
  | Fin x, Fin y => Some (fl (x + y))
  | Fin _, PosInf => Some PosInf
  | Fin _, NegInf => Some NegInf
  | PosInf, Fin _ => Some PosInf
  | PosInf, PosInf => Some PosInf
  | PosInf, NegInf => None
  | NegInf, Fin _ => Some NegInf
  | NegInf, PosInf => None
  | NegInf, NegInf => Some NegInf
  end.

(** [a + b] and [a - b] for a number and an integer. *)
Definition num_plus (a : number) (b : Z) : number :=
  match a with
  | Fin x => fl (x + b)
  | PosInf => PosInf
  | NegInf => NegInf
  end.

Definition num_sub (a : number) (b : Z) : number :=
  match a with
  | Fin x => fl (x - b)
  | PosInf => PosInf
  | NegInf => NegInf
  end.

(** [a < b] on numbers. *)
Definition num_ltb (a b : number) : bool :=
  match a, b with
  | Fin x, Fin y => x <? y
  | Fin _, PosInf => true
  | Fin _, NegInf => false
  | PosInf, _ => false
  | NegInf, NegInf => false
  | NegInf, _ => true
  end.

(** [a + b] where the operands may be [undefined] or [NaN]. *)
Definition js_add (a b : jsnum) : jsnum :=
  match a, b with Some x, Some y => num_add x y | _, _ => None end.

(** [a - b] for two reads of an array of integers. *)
Definition js_sub (a b : option Z) : jsnum :=
  match a, b with Some x, Some y => Some (fl (x - y)) | _, _ => None end.

(** [a < b] where the operands may be [undefined] or [NaN]. *)
Definition js_lt (a b : jsnum) : bool :=
  match a, b with Some x, Some y => num_ltb x y | _, _ => false end.

(** [c += delta] on a counter, which is exact as long as the counter stays
    within 2^53 in magnitude (lemmas [counts_bound] and
    [foldl_step_counters]). *)
Definition count_add (c : option Z) (delta : Z) : option Z :=
  match c with Some x => Some (x + delta) | None => None end.

(** [c > d] on counters. *)
Definition js_gt (a b : option Z) : bool :=
  match a, b with Some x, Some y => x >? y | _, _ => false end.

(** [arr[i]]. *)
Definition js_get {A} (arr : gmap Z (option A)) (i : Z) : option A :=
  match arr !! i with Some v => v | None => None end.

(** [arr[i] = v]. *)
Definition js_set {A} (arr : gmap Z (option A)) (i : Z) (v : option A) :
    gmap Z (option A) :=
  <[i := v]> arr.

(** [new Array(len).fill(v)], for [len] that is not negative. *)
Definition js_fill {A} (len : Z) (v : option A) : gmap Z (option A) :=
  list_to_map ((fun i => (i, v)) <$> seqZ 0 len).

(** [coords[i]] for the list of sorted light coordinates. *)
Definition js_nth (l : list Z) (i : Z) : option Z :=
  if decide (0 <= i) then l !! Z.to_nat i else None.

(** [Array.prototype.sort] with the comparator [(a, b) => key(a) - key(b)]:
    the sort is stable, elements with equal keys keep their order (lemma
    [js_sort_stable]).  [x] comes from before [l] in the array, so it goes
    in front of the elements with the same key.  The difference of two
    distinct doubles is never rounded to 0 and keeps its sign, so the
    comparator orders the keys as [<=?] does. *)
Fixpoint sort_insert {A} (key : A -> Z) (x : A) (l : list A) : list A :=
  match l with
  | [] => [x]
  | y :: l' => if key x <=? key y then x :: l else y :: sort_insert key x l'
  end.

Definition js_sort {A} (key : A -> Z) (l : list A) : list A :=
  foldr (sort_insert key) [] l.

(** ** Data *)

Record Camera := mkCamera { dMin : Z; dMax : Z; lMin : Z; lMax : Z }.

Record Event := mkEvent { dist : Z; type : Z; ev_lMin : Z; ev_lMax : Z }.

(** What a call does: it returns a boolean or an exception escapes. *)
Inductive js_error := TypeError | RangeError.
Inductive completion := Normal (b : bool) | Throw (e : js_error).

(** ** class SegmentTree *)

Record SegmentTree := mkSegmentTree {
  coords : list Z;
  n : Z;
  coverCount : gmap Z (option Z);
  coveredLen : gmap Z (option number)
}.

Definition set_coverCount (t : SegmentTree) (i : Z) (v : option Z) : SegmentTree :=
  mkSegmentTree (coords t) (n t) (js_set (coverCount t) i v) (coveredLen t).

Definition set_coveredLen (t : SegmentTree) (i : Z) (v : option number) : SegmentTree :=
  mkSegmentTree (coords t) (n t) (coverCount t) (js_set (coveredLen t) i v).

(** [_build(idx, left, right)] *)
Equations? _build (t : SegmentTree) (idx l r : Z) : SegmentTree
  by wf (Z.to_nat (r - l)) lt :=
_build t idx l r with decide (l > r) => {
  | left _ := t;
  | right _ with decide (l = r) => {
    | left _ := set_coveredLen t idx (Some (Fin 0));
    | right _ :=
        let mid := Z.shiftr (l + r) 1 in
        let t1 := _build t (Z.shiftl idx 1) l mid in
        let t2 := _build t1 (Z.lor (Z.shiftl idx 1) 1) (mid + 1) r in
        set_coveredLen t2 idx (Some (Fin 0)) } }.
Proof.
  all: assert (l <= (l + r) / 2 < r)
    by (split; [apply Z.div_le_lower_bound | apply Z.div_lt_upper_bound]; lia).
  all: subst mid; rewrite ?Z.shiftr_div_pow2 by lia; change (2 ^ 1) with 2; lia.
Qed.

(** The body of [constructor(coords)] for an array with at least one
    coordinate, where [4 * n] is not negative and [new Array(4 * n)]
    returns. *)
Definition new_SegmentTree (coords : list Z) : SegmentTree :=
  let n := Z.of_nat (length coords) - 1 in
  let t := mkSegmentTree coords n (js_fill (4 * n) (Some 0))
                         (js_fill (4 * n) (Some (Fin 0))) in
  _build t 1 0 (n - 1).

(** [new SegmentTree(coords)]: for an empty array [n] is -1 and
    [new Array(-4)] throws a [RangeError]; the arrays are taken to be short
    enough for the length [4 * n] to stay below 2^32. *)
Definition SegmentTree_constructor (coords : list Z) : js_error + SegmentTree :=
  if 4 * (Z.of_nat (length coords) - 1) <? 0 then inl RangeError
  else inr (new_SegmentTree coords).

(** The tail of [_updateRange]: "Recompute coveredLen for this node". *)
Definition recompute (t : SegmentTree) (idx l r : Z) : SegmentTree :=
  if js_gt (js_get (coverCount t) idx) (Some 0) then
    set_coveredLen t idx (js_sub (js_nth (coords t) (r + 1)) (js_nth (coords t) l))
  else if decide (l = r) then
    set_coveredLen t idx (Some (Fin 0))
  else
    set_coveredLen t idx
      (js_add (js_get (coveredLen t) (Z.shiftl idx 1))
              (js_get (coveredLen t) (Z.lor (Z.shiftl idx 1) 1))).

(** [_updateRange(idx, left, right, ql, qr, delta)] *)
Equations? _updateRange (t : SegmentTree) (idx l r ql qr delta : Z) : SegmentTree
  by wf (Z.to_nat (r - l)) lt :=
_updateRange t idx l r ql qr delta with decide (ql > r \/ qr < l) => {
  | left _ := t;
  | right _ with decide (ql <= l /\ r <= qr) => {
    | left _ :=
        let t1 := set_coverCount t idx (count_add (js_get (coverCount t) idx) delta) in
        recompute t1 idx l r;
    | right _ :=
        let mid := Z.shiftr (l + r) 1 in
        let t1 := _updateRange t (Z.shiftl idx 1) l mid ql qr delta in
        let t2 := _updateRange t1 (Z.lor (Z.shiftl idx 1) 1) (mid + 1) r ql qr delta in
        recompute t2 idx l r } }.
Proof.
  all: assert (l <= (l + r) / 2 < r)
    by (split; [apply Z.div_le_lower_bound | apply Z.div_lt_upper_bound]; lia).
  all: subst mid; rewrite ?Z.shiftr_div_pow2 by lia; change (2 ^ 1) with 2; lia.
Qed.

(** [update(uLeft, uRight, delta)] *)
Definition update (t : SegmentTree) (uLeft uRight delta : Z) : SegmentTree :=
  if uLeft >? uRight then t
  else _updateRange t 1 0 (n t - 1) uLeft (uRight - 1) delta.

(** [getCoveredLength()] *)
Definition getCoveredLength (t : SegmentTree) : jsnum :=
  js_get (coveredLen t) 1.

(** ** canCoverAll *)

Section CanCoverAll.
Variables distanceMin distanceMax lightMin lightMax : Z.

(** Step 1, the test of the [if] inside [cameras.forEach]. *)
Definition overlaps (cam : Camera) : bool :=
  (dMax cam >=? distanceMin) && (dMin cam <=? distanceMax)
  && (lMax cam >=? lightMin) && (lMin cam <=? lightMax).

(** Step 1, the object pushed on [validCams]. *)
Definition clamp (cam : Camera) : Camera :=
  {| dMin := Z.max distanceMin (dMin cam);
     dMax := Z.min distanceMax (dMax cam);
     lMin := Z.max lightMin (lMin cam);
     lMax := Z.min lightMax (lMax cam) |}.

(** Step 1, [cameras.forEach(...)] pushing on [validCams]. *)
Definition filter_clamp (cameras : list Camera) : list Camera :=
  foldl (fun validCams cam =>
           if overlaps cam then validCams ++ [clamp cam] else validCams)
        [] cameras.

(** Step 2, the events before sorting. *)
Definition build_events (validCams : list Camera) : list Event :=
  foldl (fun events cam =>
           events ++ [mkEvent (dMin cam) 1 (lMin cam) (lMax cam);
                      mkEvent (dMax cam) (-1) (lMin cam) (lMax cam)])
        [mkEvent distanceMin 0 0 0; mkEvent distanceMax 0 0 0] validCams.

(** Step 3, the set [lightCoords]. *)
Definition lightCoords (validCams : list Camera) : gset Z :=
  foldl (fun s cam => s ∪ {[lMin cam]} ∪ {[lMax cam]})
        ({[lightMin]} ∪ {[lightMax]}) validCams.

(** Step 3, [Array.from(lightCoords).sort((a, b) => a - b)].  The values of
    a set are distinct, so the sorted array does not depend on the order in
    which the set lists them. *)
Definition uniqueLightValues (validCams : list Camera) : list Z :=
  js_sort (fun v => v) (elements (lightCoords validCams)).

(** Step 3, the map [lightIndex], filled by [forEach((val, idx) => ...)]. *)
Fixpoint set_indices (vals : list Z) (idx : Z) (m : gmap Z Z) : gmap Z Z :=
  match vals with
  | [] => m
  | val :: vals' => set_indices vals' (idx + 1) (<[val := idx]> m)
  end.

Definition lightIndex (vals : list Z) : gmap Z Z := set_indices vals 0 ∅.

(** Step 5, the loop body from position [i] on; [events] is what is left
    of the sorted array.  A light value missing from [lightIndex] would hand
    [undefined] to [update], on which the recursion of [_updateRange] need
    not reach a base case; that branch stands for the resulting stack
    overflow.  It is never taken: [lightIndex] has every light value of
    every event as a key (lemma [events_resolved]). *)
Fixpoint sweep (index : gmap Z Z) (totalLen : number) (segTree : SegmentTree)
         (prevDist : Z) (events : list Event) : completion :=
  match events with
  | [] => Normal true
  | ev :: rest =>
      if (dist ev >? prevDist)
         && (Z.min (dist ev) distanceMax >? Z.max prevDist distanceMin)
         && js_lt (getCoveredLength segTree) (Some totalLen)
      then Normal false
      else if type ev =? 0 then sweep index totalLen segTree (dist ev) rest
      else
        match index !! ev_lMin ev, index !! ev_lMax ev with
        | Some uLeft, Some uRight =>
            let segTree' :=
              update segTree uLeft uRight (if type ev >? 0 then 1 else -1) in
            sweep index totalLen segTree' (dist ev) rest
        | _, _ => Throw RangeError
        end
  end.

(** Steps 2 to 5, everything after the [validCams.length] test.  Reading
    [events[0].dist] from an empty array would be a [TypeError]; the array
    always holds the two boundary events.  The constructor would throw on an
    empty array of light values; the array always holds [lightMin]. *)
Definition sweep_valid (validCams : list Camera) : completion :=
  let events := js_sort dist (build_events validCams) in
  let vals := uniqueLightValues validCams in
  match SegmentTree_constructor vals with
  | inl e => Throw e
  | inr segTree =>
      let totalLen := fl (lightMax - lightMin) in
      match events with
      | [] => Throw TypeError
      | ev0 :: _ => sweep (lightIndex vals) totalLen segTree (dist ev0) events
      end
  end.

Definition canCoverAll (cameras : list Camera) : completion :=
  if (distanceMin =? distanceMax) && (lightMin =? lightMax) then Normal true
  else if (length cameras =? 0)%nat then Normal false
  else
    let validCams := filter_clamp cameras in
    if (length validCams =? 0)%nat then Normal false
    else sweep_valid validCams.
End CanCoverAll.

(** * Specification *)

(** ** The shape of the tree *)

(** The positions of the subtree rooted at position [a]. *)
Inductive under (a : Z) : Z -> Prop :=
| under_self : under a a
| under_left j : under a j -> under a (2 * j)
| under_right j : under a j -> under a (2 * j + 1).

(** [P] holds at every node of the subtree whose root is stored at position
    [idx] and spans the elementary intervals [l..r]. *)
Inductive all_nodes (P : Z -> Z -> Z -> Prop) : Z -> Z -> Z -> Prop :=
| all_leaf idx l : P idx l l -> all_nodes P idx l l
| all_inner idx l r :
    l < r -> P idx l r ->
    all_nodes P (2 * idx) l ((l + r) / 2) ->
    all_nodes P (2 * idx + 1) ((l + r) / 2 + 1) r ->
    all_nodes P idx l r.

(** The recompute rule at one node: the counter is a number and
    [coveredLen] is what the tail of [_updateRange] stores. *)
Definition recompute_rule (t : SegmentTree) (idx l r : Z) : Prop :=
  exists c : Z,
    js_get (coverCount t) idx = Some c /\
    js_get (coveredLen t) idx =
      if c >? 0 then js_sub (js_nth (coords t) (r + 1)) (js_nth (coords t) l)
      else if decide (l = r) then Some (Fin 0)
      else js_add (js_get (coveredLen t) (2 * idx))
                  (js_get (coveredLen t) (2 * idx + 1)).

(** [t'] has the coordinates of [t] and differs from it only at positions
    of the subtree at [idx]. *)
Definition only_under (idx : Z) (t t' : SegmentTree) : Prop :=
  coords t' = coords t /\ n t' = n t /\
  forall j, ~ under idx j ->
    coverCount t' !! j = coverCount t !! j /\
    coveredLen t' !! j = coveredLen t !! j.

(** [t] and [t'] have the same coordinates and the same slots at the
    positions of the subtree at [idx]. *)
Definition same_under (idx : Z) (t t' : SegmentTree) : Prop :=
  coords t' = coords t /\
  forall j, under idx j ->
    coverCount t' !! j = coverCount t !! j /\
    coveredLen t' !! j = coveredLen t !! j.

(** ** Updates and what they count *)

(** One call [_updateRange(1, 0, n-1, ql, qr, delta)]. *)
Record Upd := mkUpd { u_lo : Z; u_hi : Z; u_delta : Z }.

(** The range [lo..hi] contains the whole span [l..r]. *)
Definition contains (l r lo hi : Z) : bool := (lo <=? l) && (r <=? hi).

(** The update does not contain the whole span [l..r]. *)
Definition outside (l r : Z) (u : Upd) : Prop :=
  contains l r (u_lo u) (u_hi u) = false.

Global Instance outside_dec l r u : Decision (outside l r u).
Proof. unfold outside. apply _. Defined.

(** The sum of the deltas of the updates whose range satisfies [f]. *)
Definition weigh (f : Z -> Z -> bool) (A : list Upd) : Z :=
  foldr (fun u acc => (if f (u_lo u) (u_hi u) then u_delta u else 0) + acc) 0 A.

(** The net number of updates of [A] that contain the span [l..r]. *)
Definition net (l r : Z) (A : list Upd) : Z := weigh (contains l r) A.

(** [coverCount] after the updates [A]: a node counts the updates that
    contain its span and not the span of its parent. *)
Inductive counts (t : SegmentTree) : list Upd -> Z -> Z -> Z -> Prop :=
| counts_leaf A idx l :
    js_get (coverCount t) idx = Some (net l l A) -> counts t A idx l l
| counts_inner A idx l r :
    l < r ->
    js_get (coverCount t) idx = Some (net l r A) ->
    counts t (filter (outside l r) A) (2 * idx) l ((l + r) / 2) ->
    counts t (filter (outside l r) A) (2 * idx + 1) ((l + r) / 2 + 1) r ->
    counts t A idx l r.

(** Two lists of updates with the same net count on every set of ranges. *)
Definition same_net (A B : list Upd) : Prop :=
  forall f : Z -> Z -> bool, weigh f A = weigh f B.

(** The width of the elementary interval [i]. *)
Definition width (cs : list Z) (i : Z) : Z :=
  match js_nth cs (i + 1), js_nth cs i with Some a, Some b => a - b | _, _ => 0 end.

(** The elementary interval [i] lies in the range of an update of [A]. *)
Definition lit (A : list Upd) (i : Z) : Prop :=
  Exists (fun u => u_lo u <= i <= u_hi u) A.

(** The length of the elementary intervals of [l..r] that are lit by [A]. *)
Definition lit_length (cs : list Z) (A : list Upd) (l r : Z) : Z :=
  foldr (fun i acc => (if decide (lit A i) then width cs i else 0) + acc) 0
        (seqZ l (r - l + 1)).

(** The light coordinate with index [i]. *)
Definition coord (cs : list Z) (i : Z) : Z :=
  match js_nth cs i with Some v => v | None => 0 end.

(** The sum of the magnitudes of the deltas of the updates. *)
Definition total_delta (A : list Upd) : Z :=
  foldr (fun u acc => Z.abs (u_delta u) + acc) 0 A.

(** All updates of the list are additions. *)
Definition additions (A : list Upd) : Prop := Forall (fun u => u_delta u = 1) A.


(** The coordinates grow strictly. *)
Definition increasing (cs : list Z) : Prop :=
  forall i, 0 <= i -> i + 1 < Z.of_nat (length cs) -> coord cs i < coord cs (i + 1).

(** From the first coordinate to the last there are at most 2^53 units: the
    differences of coordinates and the sums of lengths are then doubles, and
    the tree computes them without rounding. *)
Definition exact_range (cs : list Z) : Prop :=
  coord cs (Z.of_nat (length cs) - 1) - coord cs 0 <= 2 ^ 53.

(** The number is not negative. *)
Definition num_nonneg (v : number) : Prop :=
  match v with Fin z => 0 <= z | PosInf => True | NegInf => False end.


(** ** The steps of [canCoverAll] *)

(** The two events that step 2 pushes for one clamped camera. *)
Definition cam_events (cam : Camera) : list Event :=
  [mkEvent (dMin cam) 1 (lMin cam) (lMax cam);
   mkEvent (dMax cam) (-1) (lMin cam) (lMax cam)].

(** Sorted by the key, smallest first. *)
Definition sorted_by {A} (key : A -> Z) (l : list A) : Prop :=
  StronglySorted (fun a b => key a <= key b) l.


(** The index that [lightIndex] gives to a light value (0 when absent). *)
Definition index_of (index : gmap Z Z) (v : Z) : Z :=
  match index !! v with Some i => i | None => 0 end.

(** Both light values of a non-boundary event are keys of [lightIndex]. *)
Definition resolved (index : gmap Z Z) (ev : Event) : Prop :=
  type ev <> 0 -> is_Some (index !! ev_lMin ev) /\ is_Some (index !! ev_lMax ev).

(** The tree update that the loop body makes for one event. *)
Definition step (index : gmap Z Z) (segTree : SegmentTree) (ev : Event) : SegmentTree :=
  if type ev =? 0 then segTree
  else update segTree (index_of index (ev_lMin ev)) (index_of index (ev_lMax ev))
              (if type ev >? 0 then 1 else -1).

(** The same update as a range of elementary intervals. *)
Definition event_upd (index : gmap Z Z) (ev : Event) : list Upd :=
  if type ev =? 0 then []
  else [mkUpd (index_of index (ev_lMin ev)) (index_of index (ev_lMax ev) - 1)
              (if type ev >? 0 then 1 else -1)].

(** [prevDist] after the loop has gone through [events]. *)
Definition last_dist (prevDist : Z) (events : list Event) : Z :=
  foldl (fun _ ev => dist ev) prevDist events.

(** The test that makes the loop return [false] at the event [ev]. *)
Definition gap_fails (distanceMin distanceMax : Z) (totalLen : number)
    (segTree : SegmentTree) (prevDist : Z) (ev : Event) : bool :=
  (dist ev >? prevDist)
  && (Z.min (dist ev) distanceMax >? Z.max prevDist distanceMin)
  && js_lt (getCoveredLength segTree) (Some totalLen).

(** The tree is the one reached from the constructor by the updates [A]. *)
Definition tree_inv (cs : list Z) (t : SegmentTree) (A : list Upd) : Prop :=
  coords t = cs /\ n t = Z.of_nat (length cs) - 1
  /\ all_nodes (recompute_rule t) 1 0 (n t - 1)
  /\ counts t A 1 0 (n t - 1).


(** The clamped camera is switched on over the distances just above [p]:
    its Add event is at or before [p], its Remove event after [p]. *)
Definition active (p : Z) (cam : Camera) : Prop := dMin cam <= p < dMax cam.

Global Instance active_dec p cam : Decision (active p cam).
Proof. unfold active. apply _. Defined.

(** The addition that the Add event of a clamped camera makes. *)
Definition cam_upd (index : gmap Z Z) (cam : Camera) : Upd :=
  mkUpd (index_of index (lMin cam)) (index_of index (lMax cam) - 1) 1.

Definition active_upds (index : gmap Z Z) (p : Z) (validCams : list Camera) : list Upd :=
  cam_upd index <$> filter (active p) validCams.


(** ** Rectangles and what they cover *)

Definition well_formed (cam : Camera) : Prop :=
  dMin cam <= dMax cam /\ lMin cam <= lMax cam.

(** A rectangle that lies in the target. *)
Definition inside (distanceMin distanceMax lightMin lightMax : Z) (cam : Camera) : Prop :=
  distanceMin <= dMin cam /\ dMin cam <= dMax cam /\ dMax cam <= distanceMax
  /\ lightMin <= lMin cam /\ lMin cam <= lMax cam /\ lMax cam <= lightMax.

(** The point [(x, y)] of the plane lies in the closed rectangle. *)
Definition in_camera (cam : Camera) (x y : R) : Prop :=
  (IZR (dMin cam) <= x <= IZR (dMax cam))%R
  /\ (IZR (lMin cam) <= y <= IZR (lMax cam))%R.

(** The union of the rectangles contains every point of the closed target. *)
Definition covers_target (distanceMin distanceMax lightMin lightMax : Z)
    (cameras : list Camera) : Prop :=
  forall x y : R,
    (IZR distanceMin <= x <= IZR distanceMax)%R ->
    (IZR lightMin <= y <= IZR lightMax)%R ->
    exists cam, cam ∈ cameras /\ in_camera cam x y.

(** The rectangle contains the unit cell with lower left corner [(a, b)]. *)
Definition has_cell (a b : Z) (cam : Camera) : Prop :=
  dMin cam <= a /\ a + 1 <= dMax cam /\ lMin cam <= b /\ b + 1 <= lMax cam.

(** Every unit cell of the target lies in one of the rectangles. *)
Definition covers_cells (distanceMin distanceMax lightMin lightMax : Z)
    (cameras : list Camera) : Prop :=
  forall a b : Z,
    distanceMin <= a < distanceMax -> lightMin <= b < lightMax ->
    exists cam, cam ∈ cameras /\ has_cell a b cam.


(** ** Outcomes *)

(** An exception escapes from the call. *)
Definition raises (c : completion) : Prop := exists e, c = Throw e.

(** ** The filter and clip step in the words of the specification *)

Definition spec_keeps (distanceMin distanceMax lightMin lightMax : Z)
    (cam : Camera) : Prop :=
  dMax cam >= distanceMin /\ dMin cam <= distanceMax
  /\ lMax cam >= lightMin /\ lMin cam <= lightMax.

Global Instance spec_keeps_dec dmin dmax lmin lmax cam :
  Decision (spec_keeps dmin dmax lmin lmax cam).
Proof. unfold spec_keeps. apply _. Defined.

Definition spec_clip (distanceMin distanceMax lightMin lightMax : Z)
    (cam : Camera) : Camera :=
  {| dMin := Z.max (dMin cam) distanceMin;
     dMax := Z.min (dMax cam) distanceMax;
     lMin := Z.max (lMin cam) lightMin;
     lMax := Z.min (lMax cam) lightMax |}.

Definition spec_filter_clip (distanceMin distanceMax lightMin lightMax : Z)
    (cameras : list Camera) : list Camera :=
  spec_clip distanceMin distanceMax lightMin lightMax
    <$> filter (spec_keeps distanceMin distanceMax lightMin lightMax) cameras.

(** ** The example of the source file *)

Definition cameras : list Camera :=
  [mkCamera 0 10 0 5; mkCamera 0 10 5 10; mkCamera 10 20 0 10].


(** ** The open envelopes during the sweep *)

(** [coveredLen] when [B] is the list of open envelopes: at each node, the
    length of its span lit by the envelopes that do not contain the span of
    its parent. *)
Inductive lengths (t : SegmentTree) : list Upd -> Z -> Z -> Z -> Prop :=
| lengths_leaf B idx l :
    js_get (coveredLen t) idx = Some (Fin (lit_length (coords t) B l l)) ->
    lengths t B idx l l
| lengths_inner B idx l r :
    l < r ->
    js_get (coveredLen t) idx = Some (Fin (lit_length (coords t) B l r)) ->
    lengths t (filter (outside l r) B) (2 * idx) l ((l + r) / 2) ->
    lengths t (filter (outside l r) B) (2 * idx + 1) ((l + r) / 2 + 1) r ->
    lengths t B idx l r.

(** One envelope with the range [lo..hi] leaves the list. *)
Fixpoint remove_range (lo hi : Z) (B : list Upd) : list Upd :=
  match B with
  | [] => []
  | u :: B' =>
      if (u_lo u =? lo) && (u_hi u =? hi) then B' else u :: remove_range lo hi B'
  end.

(** The open envelopes after one more event: an Add event opens an
    envelope, a Remove event closes one with the same light range. *)
Definition open_step (index : gmap Z Z) (B : list Upd) (ev : Event) : list Upd :=
  if type ev =? 0 then B
  else
    let lo := index_of index (ev_lMin ev) in
    let hi := index_of index (ev_lMax ev) - 1 in
    if type ev >? 0 then mkUpd lo hi 1 :: B else remove_range lo hi B.

(** The envelopes that are open after the events [events]: Add processed,
    Remove not yet. *)
Definition open_envelopes (index : gmap Z Z) (events : list Event) : list Upd :=
  foldl (open_step index) [] events.

(** In every prefix of the events, every set of light ranges has been added
    at least as often as removed. *)
Definition balanced (index : gmap Z Z) (events : list Event) : Prop :=
  forall events1 events2, events = events1 ++ events2 ->
  forall f, 0 <= weigh f (events1 ≫= event_upd index).


(** ** The sweep of one query *)

Section Query.
Variables distanceMin distanceMax lightMin lightMax : Z.
Variable cameras : list Camera.

(** The sorted light coordinates of the query. *)
Definition query_coords : list Z :=
  uniqueLightValues lightMin lightMax
    (filter_clamp distanceMin distanceMax lightMin lightMax cameras).

(** The sorted events of the query. *)
Definition query_events : list Event :=
  js_sort dist
    (build_events distanceMin distanceMax
       (filter_clamp distanceMin distanceMax lightMin lightMax cameras)).

(** The tree after the loop has processed the events [events1]. *)
Definition query_tree (events1 : list Event) : SegmentTree :=
  foldl (step (lightIndex query_coords)) (new_SegmentTree query_coords) events1.

(** The envelopes that are open at that point. *)
Definition query_open (events1 : list Event) : list Upd :=
  open_envelopes (lightIndex query_coords) events1.
End Query.


(** A rectangle that covers the whole target and one that covers its lower
    half in light. *)
Definition cameras_nested : list Camera :=
  [mkCamera 0 10 0 10; mkCamera 0 10 0 5].


(** ** The tree as a data structure of its own *)

(** The positions at which the subtree at [idx] over [l..r] stores a node. *)
Inductive node_at : Z -> Z -> Z -> Z -> Prop :=
| node_here idx l r : l <= r -> node_at idx l r idx
| node_left idx l r j :
    l < r -> node_at (2 * idx) l ((l + r) / 2) j -> node_at idx l r j
| node_right idx l r j :
    l < r -> node_at (2 * idx + 1) ((l + r) / 2 + 1) r j -> node_at idx l r j.

(** One call [update(uLeft, uRight, delta)]. *)
Record Call := mkCall { c_left : Z; c_right : Z; c_delta : Z }.

(** The tree after the constructor and a sequence of calls of [update]. *)
Definition updates (cs : list Z) (calls : list Call) : SegmentTree :=
  foldl (fun t c => update t (c_left c) (c_right c) (c_delta c))
        (new_SegmentTree cs) calls.

(** The range of elementary intervals that a call of [update] selects. *)
Definition call_upd (c : Call) : Upd :=
  mkUpd (c_left c) (c_right c - 1) (c_delta c).

(** The deltas of the calls are small enough for every counter to stay
    within 2^53 in magnitude, where the additions of the code are exact. *)
Definition small_deltas (calls : list Call) : Prop :=
  foldr (fun c acc => Z.abs (c_delta c) + acc) 0 calls <= 2 ^ 53.

(** Every slot of [coveredLen] below [4n] has been written. *)
Definition assigned (t : SegmentTree) : Prop :=
  forall j, 0 <= j < 4 * n t -> is_Some (coveredLen t !! j).

(** ** Rectangles in the plane *)

(** The rectangle moved by [a] in distance and [b] in light. *)
Definition shift (a b : Z) (cam : Camera) : Camera :=
  mkCamera (dMin cam + a) (dMax cam + a) (lMin cam + b) (lMax cam + b).

Global Instance add_inj (b : Z) : Inj eq eq (fun v : Z => v + b).
Proof. intros x y H. lia. Defined.

(** The event of the sweep of the moved rectangles that corresponds to an
    event of the sweep of the rectangles; the light values of a boundary
    event are 0 in both. *)
Definition shift_event (a b : Z) (ev : Event) : Event :=
  mkEvent (dist ev + a) (type ev)
          (if type ev =? 0 then ev_lMin ev else ev_lMin ev + b)
          (if type ev =? 0 then ev_lMax ev else ev_lMax ev + b).

(** The tree with other coordinates. *)
Definition with_coords (cs : list Z) (t : SegmentTree) : SegmentTree :=
  mkSegmentTree cs (n t) (coverCount t) (coveredLen t).

(** Two lists of coordinates between which the tree cannot tell. *)
Definition same_differences (cs' cs : list Z) : Prop :=
  forall i j, js_sub (js_nth cs' i) (js_nth cs' j) = js_sub (js_nth cs i) (js_nth cs j).

(** The rectangle with its two axes exchanged. *)
Definition transpose (cam : Camera) : Camera :=
  mkCamera (lMin cam) (lMax cam) (dMin cam) (dMax cam).

(** The rectangle [c] contains the rectangle [r]. *)
Definition encloses (c r : Camera) : Prop :=
  dMin c <= dMin r /\ dMax r <= dMax c /\ lMin c <= lMin r /\ lMax r <= lMax c.

(** The rectangle contains no unit cell. *)
Definition flat (r : Camera) : Prop := dMax r <= dMin r \/ lMax r <= lMin r.

(** The rectangle contains the target. *)
Definition covers_alone (distanceMin distanceMax lightMin lightMax : Z)
    (cam : Camera) : Prop :=
  dMin cam <= distanceMin /\ distanceMax <= dMax cam
  /\ lMin cam <= lightMin /\ lightMax <= lMax cam.

(** The point [(x, y)] lies in the closed target. *)
Definition in_target (distanceMin distanceMax lightMin lightMax : Z) (x y : R) : Prop :=
  (IZR distanceMin <= x <= IZR distanceMax)%R
  /\ (IZR lightMin <= y <= IZR lightMax)%R.


(** ** The countdown component *)

(** The fields of [DeadlineComponent] that its methods read and write.  The
    clock readings are integers; the deadline is computed from them. *)
Record DeadlineComponent :=
  mkDeadlineComponent { _deadline : number; now : Z; isDeadlineTime : bool }.

(** The field initialisers; [clock] is what [Date.now()] returns then. *)
Definition new_DeadlineComponent (clock : Z) : DeadlineComponent :=
  {| _deadline := -1; now := clock; isDeadlineTime := false |}.

(** [resetDeadline(secondsAway)], through the setter of [deadline]: the
    product is rounded, then the sum.  The call of [detectChanges()] renders
    the view and changes no field. *)
Definition resetDeadline (self : DeadlineComponent) (secondsAway : Z) : DeadlineComponent :=
  {| _deadline := num_plus (fl (secondsAway * 1000)) (now self);
     now := now self;
     isDeadlineTime := isDeadlineTime self |}.

(** [!deadline]: of the numbers, only 0 is falsy. *)
Definition falsy (d : number) : bool :=
  match d with Fin z => z =? 0 | _ => false end.

(** [setNow()], where [Date.now()] returns [clock]. *)
Definition setNow (clock : Z) (self : DeadlineComponent) : DeadlineComponent :=
  let self1 := {| _deadline := _deadline self; now := clock;
                  isDeadlineTime := isDeadlineTime self |} in
  if falsy (_deadline self1) then self1
  else {| _deadline := _deadline self1; now := now self1;
          isDeadlineTime :=
            num_ltb (num_sub (_deadline self1) (now self1)) 1000 |}.


(** * Proofs *)

(** ** Rounding *)

Lemma round53_exact (z : Z) : Z.abs z <= 2 ^ 53 -> round53 z = z.
Proof.
  intros Hz. unfold round53.
  destruct (Z.abs z <? 2 ^ 53) eqn:E; [done|].
  apply Z.ltb_ge in E. assert (Z.abs z = 2 ^ 53) as Ha by lia.
  rewrite Ha. change (Z.log2 (2 ^ 53) - 52) with 1.
  change (Z.shiftr (2 ^ 53) 1) with (2 ^ 52).
  change (Z.shiftl (2 ^ 52) 1) with (2 ^ 53).
  change (2 ^ 53 - 2 ^ 53) with 0. change (2 ^ (1 - 1)) with 1.
  change ((1 <? 0) || ((0 =? 1) && Z.odd (2 ^ 52))) with false. cbv iota.
  change (Z.shiftl (2 ^ 52) 1) with (2 ^ 53).
  rewrite <- Ha. rewrite Z.mul_comm. apply Z.abs_sgn.
Qed.

(** Beyond 2^53 the rounded value keeps the sign and stays beyond 2^53. *)
Lemma round53_large (z : Z) :
  2 ^ 53 <= Z.abs z ->
  exists m, 2 ^ 53 <= m /\ round53 z = Z.sgn z * m.
Proof.
  intros Hz. unfold round53.
  destruct (Z.abs z <? 2 ^ 53) eqn:E; [apply Z.ltb_lt in E; lia|].
  set (a := Z.abs z) in *. set (k := Z.log2 a - 52).
  assert (0 < a) as Ha by lia.
  pose proof (Z.log2_spec a Ha) as [Hlo Hhi].
  assert (53 <= Z.log2 a) as Hlog.
  { apply Z.log2_le_pow2; [done|lia]. }
  assert (1 <= k) as Hk by (unfold k; lia).
  assert (2 ^ 52 <= Z.shiftr a k) as Hq.
  { rewrite Z.shiftr_div_pow2 by lia. apply Z.div_le_lower_bound; [lia|].
    rewrite <- Z.pow_add_r by lia. replace (k + 52) with (Z.log2 a) by (unfold k; lia).
    done. }
  eexists. split; [|reflexivity].
  rewrite Z.shiftl_mul_pow2 by lia.
  assert (2 <= 2 ^ k) as H2k.
  { change 2 with (2 ^ 1) at 1. apply Z.pow_le_mono_r; lia. }
  destruct (_ || _); nia.
Qed.

(** Rounding changes no comparison with an integer below 2^53. *)
Lemma round53_lt (z c : Z) :
  Z.abs c < 2 ^ 53 -> (round53 z < c <-> z < c) /\ (c < round53 z <-> c < z).
Proof.
  intros Hc. destruct (decide (Z.abs z <= 2 ^ 53)) as [Hz|Hz].
  - rewrite round53_exact by done. tauto.
  - destruct (round53_large z ltac:(lia)) as (m & Hm & ->).
    destruct (decide (0 < z)); [rewrite Z.sgn_pos by lia|rewrite Z.sgn_neg by lia]; lia.
Qed.

Lemma fl_exact (z : Z) : Z.abs z <= 2 ^ 53 -> fl z = Fin z.
Proof.
  intros Hz. unfold fl. rewrite round53_exact by done.
  assert (2 ^ 53 < 2 ^ 1024) as Hlt by (apply Z.pow_lt_mono_r; lia).
  destruct (2 ^ 1024 <=? z) eqn:E1; [apply Z.leb_le in E1; lia|].
  destruct (z <=? - 2 ^ 1024) eqn:E2; [apply Z.leb_le in E2; lia|]. done.
Qed.

Lemma fl_0 : fl 0 = Fin 0.
Proof. by apply fl_exact. Qed.

(** What [fl] gives on each side of the range of exact integers. *)
Lemma fl_cases (z : Z) :
  (Z.abs z <= 2 ^ 53 /\ fl z = Fin z)
  \/ (2 ^ 53 < z /\ (fl z = PosInf \/ exists d, fl z = Fin d /\ 2 ^ 53 <= d))
  \/ (z < - 2 ^ 53 /\ (fl z = NegInf \/ exists d, fl z = Fin d /\ d <= - 2 ^ 53)).
Proof.
  destruct (decide (Z.abs z <= 2 ^ 53)) as [Hz|Hz]; [left; by split; [|apply fl_exact]|].
  right. destruct (round53_large z ltac:(lia)) as (m & Hm & Hr).
  unfold fl. rewrite Hr.
  assert (0 < 2 ^ 1024) as Hpos by (apply Z.pow_pos_nonneg; lia).
  destruct (decide (0 < z)) as [Hp|Hp].
  - left. split; [lia|]. rewrite Z.sgn_pos by done.
    destruct (2 ^ 1024 <=? 1 * m); [by left|].
    destruct (1 * m <=? - 2 ^ 1024) eqn:E; [apply Z.leb_le in E; lia|].
    right. exists (1 * m). split; [done|lia].
  - right. split; [lia|]. rewrite Z.sgn_neg by lia.
    destruct (2 ^ 1024 <=? -1 * m) eqn:E; [apply Z.leb_le in E; lia|].
    destruct (-1 * m <=? - 2 ^ 1024); [by left|].
    right. exists (-1 * m). split; [done|lia].
Qed.

Lemma fl_nonneg (z : Z) : 0 <= z -> num_nonneg (fl z).
Proof.
  intros Hz. destruct (fl_cases z) as [[_ ->]|[[_ [->|(d & -> & Hd)]]|[Hneg _]]];
    simpl; try done; lia.
Qed.

(** The comparison of a rounded value with a small integer is exact. *)
Lemma fl_ltb (z c : Z) : Z.abs c < 2 ^ 53 -> num_ltb (fl z) (Fin c) = (z <? c).
Proof.
  intros Hc.
  destruct (fl_cases z) as [[_ ->]|[[Hz [->|(d & -> & Hd)]]|[Hz [->|(d & -> & Hd)]]]];
    simpl; try done; lia.
Qed.

Lemma num_add_nonneg (a b : number) :
  num_nonneg a -> num_nonneg b -> exists v, num_add a b = Some v /\ num_nonneg v.
Proof.
  destruct a as [x| |], b as [y| |]; simpl; try done; intros Ha Hb; eauto.
  eexists. split; [done|]. apply fl_nonneg. lia.
Qed.

Lemma num_add_exact (x y : Z) :
  Z.abs (x + y) <= 2 ^ 53 -> num_add (Fin x) (Fin y) = Some (Fin (x + y)).
Proof. intros H. simpl. by rewrite fl_exact. Qed.

#[global] Opaque fl.

(** ** Arithmetic of tree positions *)

Lemma shiftl_1 (idx : Z) : Z.shiftl idx 1 = 2 * idx.
Proof. rewrite Z.shiftl_mul_pow2 by lia. lia. Qed.

Lemma lor_shiftl_1 (idx : Z) : Z.lor (Z.shiftl idx 1) 1 = 2 * idx + 1.
Proof.
  rewrite shiftl_1.
  pose proof (Z.add_lor_land (2 * idx) 1) as H.
  assert (Z.land (2 * idx) 1 = 0) as H0.
  { change 1 with (Z.ones 1). rewrite Z.land_ones by lia.
    change (2 ^ 1) with 2. rewrite Z.mul_comm. apply Z.mod_mul. lia. }
  lia.
Qed.

Lemma shiftr_1 (x : Z) : Z.shiftr x 1 = x / 2.
Proof. rewrite Z.shiftr_div_pow2 by lia. reflexivity. Qed.

Lemma mid_bounds (l r : Z) : l < r -> l <= (l + r) / 2 < r.
Proof.
  intros H. split; [apply Z.div_le_lower_bound | apply Z.div_lt_upper_bound]; lia.
Qed.

Lemma mid_double (l r : Z) : 2 * ((l + r) / 2) <= l + r <= 2 * ((l + r) / 2) + 1.
Proof.
  pose proof (Z.div_mod (l + r) 2 ltac:(lia)).
  pose proof (Z.mod_pos_bound (l + r) 2 ltac:(lia)). lia.
Qed.

(** Induction over the nodes below a position: a leaf [l = r], or an inner
    node whose children span [l..mid] and [mid+1..r]. *)
Lemma span_ind (P : Z -> Z -> Prop) :
  (forall l, P l l) ->
  (forall l r, l < r -> P l ((l + r) / 2) -> P ((l + r) / 2 + 1) r -> P l r) ->
  forall l r, l <= r -> P l r.
Proof.
  intros Hleaf Hnode l r Hlr.
  remember (Z.to_nat (r - l)) as k eqn:Hk.
  revert l r Hlr Hk. induction k as [k IH] using lt_wf_ind. intros l r Hlr Hk.
  destruct (decide (l = r)) as [->|Hne]; [apply Hleaf|].
  assert (l < r) as Hlt by lia. pose proof (mid_bounds l r Hlt).
  apply Hnode; [done| |].
  - eapply (IH (Z.to_nat ((l + r) / 2 - l))); [lia|lia|done].
  - eapply (IH (Z.to_nat (r - ((l + r) / 2 + 1)))); [lia|lia|done].
Qed.

(** The two recursive functions, unfolded once. *)
Lemma _build_eq (t : SegmentTree) (idx l r : Z) :
  _build t idx l r =
    if decide (l > r) then t
    else if decide (l = r) then set_coveredLen t idx (Some (Fin 0))
    else set_coveredLen
           (_build (_build t (2 * idx) l ((l + r) / 2))
                   (2 * idx + 1) ((l + r) / 2 + 1) r)
           idx (Some (Fin 0)).
Proof.
  rewrite _build_equation_1. unfold _build_unfold_clause_1.
  destruct (decide (l > r)); [done|].
  unfold _build_unfold_clause_1_clause_2. destruct (decide (l = r)); [done|].
  cbv zeta. by rewrite lor_shiftl_1, shiftl_1, shiftr_1.
Qed.

Lemma _updateRange_eq (t : SegmentTree) (idx l r ql qr delta : Z) :
  _updateRange t idx l r ql qr delta =
    if decide (ql > r \/ qr < l) then t
    else if decide (ql <= l /\ r <= qr) then
      recompute
        (set_coverCount t idx (count_add (js_get (coverCount t) idx) delta))
        idx l r
    else
      recompute
        (_updateRange
           (_updateRange t (2 * idx) l ((l + r) / 2) ql qr delta)
           (2 * idx + 1) ((l + r) / 2 + 1) r ql qr delta)
        idx l r.
Proof.
  rewrite _updateRange_equation_1. unfold _updateRange_unfold_clause_1.
  destruct (decide (ql > r \/ qr < l)); [done|].
  unfold _updateRange_unfold_clause_1_clause_2.
  destruct (decide (ql <= l /\ r <= qr)); [done|].
  cbv zeta. by rewrite lor_shiftl_1, shiftl_1, shiftr_1.
Qed.

(** ** Positions of subtrees *)

Lemma under_child (a j : Z) : under (2 * a) j \/ under (2 * a + 1) j -> under a j.
Proof.
  intros [H|H]; induction H; eauto using under.
Qed.

Lemma under_ge (a j : Z) : 1 <= a -> under a j -> j = a \/ 2 * a <= j.
Proof. intros Ha H. induction H; lia. Qed.

Lemma under_chain (b c j : Z) : under b j -> under c j -> under b c \/ under c b.
Proof.
  intros Hb. revert c. induction Hb as [|j Hb IH|j Hb IH]; intros c Hc.
  - by right.
  - inversion Hc as [|j' Hc' E|j' Hc' E]; subst.
    + left. by constructor.
    + assert (j' = j) as -> by lia. by apply IH.
    + lia.
  - inversion Hc as [|j' Hc' E|j' Hc' E]; subst.
    + left. by constructor.
    + lia.
    + assert (j' = j) as -> by lia. by apply IH.
Qed.

Lemma siblings_disjoint (a j : Z) :
  1 <= a -> under (2 * a) j -> under (2 * a + 1) j -> False.
Proof.
  intros Ha H1 H2.
  destruct (under_chain _ _ _ H1 H2) as [H|H];
    apply under_ge in H; lia.
Qed.

Lemma parent_not_under (a : Z) :
  1 <= a -> ~ (under (2 * a) a \/ under (2 * a + 1) a).
Proof. intros Ha [H|H]; apply under_ge in H; lia. Qed.

(** ** Frames of the tree operations *)

Lemma only_under_refl idx t : only_under idx t t.
Proof. by repeat split. Qed.

Lemma only_under_trans idx t1 t2 t3 :
  only_under idx t1 t2 -> only_under idx t2 t3 -> only_under idx t1 t3.
Proof.
  intros (Hc1 & Hn1 & H1) (Hc2 & Hn2 & H2). repeat split; try congruence.
  - destruct (H1 j), (H2 j); congruence.
  - destruct (H1 j), (H2 j); congruence.
Qed.

Lemma only_under_child idx t t' :
  only_under (2 * idx) t t' \/ only_under (2 * idx + 1) t t' -> only_under idx t t'.
Proof.
  intros [(Hc & Hn & H)|(Hc & Hn & H)]; repeat split; try done;
    apply H; intros Hj; eauto using under_child.
Qed.

Lemma only_under_set_coverCount idx t v : only_under idx t (set_coverCount t idx v).
Proof.
  repeat split; try done. simpl. unfold js_set.
  rewrite lookup_insert_ne; [done|]. intros ->. by apply H, under_self.
Qed.

Lemma only_under_set_coveredLen idx t v : only_under idx t (set_coveredLen t idx v).
Proof.
  repeat split; try done. simpl. unfold js_set.
  rewrite lookup_insert_ne; [done|]. intros ->. by apply H, under_self.
Qed.

Lemma only_under_recompute idx l r t : only_under idx t (recompute t idx l r).
Proof.
  unfold recompute. repeat case_match; apply only_under_set_coveredLen.
Qed.

Lemma only_under_updateRange t idx l r ql qr delta :
  only_under idx t (_updateRange t idx l r ql qr delta).
Proof.
  remember (Z.to_nat (r - l)) as k eqn:Hk.
  revert t idx l r Hk. induction k as [k IH] using lt_wf_ind. intros t idx l r Hk.
  rewrite _updateRange_eq. repeat case_decide.
  - apply only_under_refl.
  - eapply only_under_trans; [apply only_under_set_coverCount|apply only_under_recompute].
  - assert (l < r) as Hlr by lia. pose proof (mid_bounds l r Hlr).
    eapply only_under_trans; [|apply only_under_recompute].
    eapply (only_under_trans _ _ (_updateRange t (2 * idx) l ((l + r) / 2) ql qr delta)).
    + apply only_under_child. left. eapply IH; [|done]. lia.
    + apply only_under_child. right. eapply IH; [|done]. lia.
Qed.

Lemma only_under_same_left idx t t' :
  1 <= idx -> only_under (2 * idx + 1) t t' -> same_under (2 * idx) t t'.
Proof.
  intros Hidx (Hc & _ & H). split; [done|]. intros j Hj. apply H.
  intros Hj'. by eapply siblings_disjoint.
Qed.

Lemma only_under_same_right idx t t' :
  1 <= idx -> only_under (2 * idx) t t' -> same_under (2 * idx + 1) t t'.
Proof.
  intros Hidx (Hc & _ & H). split; [done|]. intros j Hj. apply H.
  intros Hj'. by eapply siblings_disjoint.
Qed.

Lemma same_under_child idx t t' :
  same_under idx t t' -> same_under (2 * idx) t t' /\ same_under (2 * idx + 1) t t'.
Proof.
  intros (Hc & H). split; (split; [done|]); intros j Hj; apply H;
    apply under_child; auto.
Qed.

Lemma same_under_get idx t t' j :
  same_under idx t t' -> under idx j ->
  js_get (coverCount t') j = js_get (coverCount t) j /\
  js_get (coveredLen t') j = js_get (coveredLen t) j.
Proof.
  intros (_ & H) Hj. unfold js_get. destruct (H j Hj) as [-> ->]. done.
Qed.

Lemma recompute_rule_same idx l r t t' :
  same_under idx t t' -> recompute_rule t idx l r -> recompute_rule t' idx l r.
Proof.
  intros Hs (c & Hc & Hrule).
  pose proof (same_under_get _ _ _ idx Hs (under_self _)) as [E1 E2].
  pose proof (same_under_get _ _ _ (2 * idx) Hs (under_left _ _ (under_self _))) as [_ E3].
  pose proof (same_under_get _ _ _ (2 * idx + 1) Hs (under_right _ _ (under_self _))) as [_ E4].
  exists c. rewrite E1, E2, E3, E4. destruct Hs as [-> _]. done.
Qed.

Lemma all_rule_same idx l r t t' :
  same_under idx t t' ->
  all_nodes (recompute_rule t) idx l r -> all_nodes (recompute_rule t') idx l r.
Proof.
  intros Hs H. induction H as [idx l H|idx l r Hlr H H1 IH1 H2 IH2].
  - apply all_leaf. by eapply recompute_rule_same.
  - destruct (same_under_child _ _ _ Hs).
    apply all_inner; eauto using recompute_rule_same.
Qed.

Lemma counts_same idx l r A t t' :
  same_under idx t t' -> counts t A idx l r -> counts t' A idx l r.
Proof.
  intros Hs H. induction H as [A idx l H|A idx l r Hlr H H1 IH1 H2 IH2];
    pose proof (same_under_get _ _ _ idx Hs (under_self _)) as [E1 _].
  - apply counts_leaf. by rewrite E1.
  - destruct (same_under_child _ _ _ Hs).
    apply counts_inner; auto. by rewrite E1.
Qed.

(** ** The recompute rule is kept by every update *)

Lemma all_nodes_leaf_inv P idx l : all_nodes P idx l l -> P idx l l.
Proof. inversion 1; [done|lia]. Qed.

Lemma all_nodes_inner_inv P idx l r :
  l < r -> all_nodes P idx l r ->
  P idx l r /\ all_nodes P (2 * idx) l ((l + r) / 2)
  /\ all_nodes P (2 * idx + 1) ((l + r) / 2 + 1) r.
Proof. intros Hlr H. inversion H; subst; [lia|done]. Qed.

Lemma all_nodes_here P idx l r : all_nodes P idx l r -> P idx l r.
Proof. by inversion 1. Qed.

Lemma all_nodes_le P idx l r : all_nodes P idx l r -> l <= r.
Proof. inversion 1; lia. Qed.

Lemma js_nth_is_Some (cs : list Z) (i : Z) :
  0 <= i < Z.of_nat (length cs) -> exists v, js_nth cs i = Some v.
Proof.
  intros Hi. unfold js_nth. rewrite decide_True by lia.
  destruct (lookup_lt_is_Some_2 cs (Z.to_nat i)) as [v Hv]; [lia|]. eauto.
Qed.

(** A write at [idx] leaves both subtrees below [idx] as they were. *)
Lemma only_under_same_children idx t t' :
  1 <= idx -> coords t' = coords t ->
  (forall j, j <> idx ->
     coverCount t' !! j = coverCount t !! j /\
     coveredLen t' !! j = coveredLen t !! j) ->
  same_under (2 * idx) t t' /\ same_under (2 * idx + 1) t t'.
Proof.
  intros Hidx Hc H.
  split; (split; [done|]); intros j Hj; apply H; intros ->;
    eapply parent_not_under; eauto.
Qed.

Lemma recompute_same_children idx l r t :
  1 <= idx ->
  same_under (2 * idx) t (recompute t idx l r)
  /\ same_under (2 * idx + 1) t (recompute t idx l r).
Proof.
  intros Hidx. apply only_under_same_children; [done| |].
  - unfold recompute. by repeat case_match.
  - intros j Hj. unfold recompute, set_coveredLen, js_set.
    repeat case_match; simpl; by rewrite lookup_insert_ne.
Qed.

Lemma set_coverCount_same_children idx v t :
  1 <= idx ->
  same_under (2 * idx) t (set_coverCount t idx v)
  /\ same_under (2 * idx + 1) t (set_coverCount t idx v).
Proof.
  intros Hidx. apply only_under_same_children; [done..|].
  intros j Hj. unfold set_coverCount, js_set. simpl. by rewrite lookup_insert_ne.
Qed.

Lemma recompute_coverCount t idx l r :
  coverCount (recompute t idx l r) = coverCount t.
Proof. unfold recompute. by repeat case_match. Qed.

Lemma recompute_coords t idx l r : coords (recompute t idx l r) = coords t.
Proof. unfold recompute. by repeat case_match. Qed.

Lemma js_get_set {A} (arr : gmap Z (option A)) i v : js_get (js_set arr i v) i = v.
Proof. unfold js_get, js_set. by rewrite lookup_insert_eq. Qed.

Lemma js_get_set_ne {A} (arr : gmap Z (option A)) i j v :
  i <> j -> js_get (js_set arr i v) j = js_get arr j.
Proof. intros H. unfold js_get, js_set. by rewrite lookup_insert_ne. Qed.

(** What [recompute] stores satisfies the rule, once the counter it reads
    is a number. *)
Lemma recompute_establishes t idx l r c :
  1 <= idx ->
  js_get (coverCount t) idx = Some c ->
  recompute_rule (recompute t idx l r) idx l r.
Proof.
  intros Hidx Hc.
  unfold recompute_rule. rewrite recompute_coverCount, recompute_coords.
  unfold recompute. rewrite Hc, lor_shiftl_1, shiftl_1. simpl.
  exists c. split; [done|].
  destruct (c >? 0) eqn:Hpos.
  - simpl. by rewrite js_get_set.
  - destruct (decide (l = r)) as [->|Hne].
    + simpl. by rewrite js_get_set.
    + simpl. by rewrite js_get_set, !js_get_set_ne by lia.
Qed.

Lemma updateRange_n t idx l r ql qr delta :
  n (_updateRange t idx l r ql qr delta) = n t.
Proof. by destruct (only_under_updateRange t idx l r ql qr delta) as (_ & ? & _). Qed.

Lemma updateRange_coords t idx l r ql qr delta :
  coords (_updateRange t idx l r ql qr delta) = coords t.
Proof. by destruct (only_under_updateRange t idx l r ql qr delta) as (? & _). Qed.

Lemma updateRange_rule ql qr delta l r :
  l <= r ->
  forall t idx,
    1 <= idx ->
    all_nodes (recompute_rule t) idx l r ->
    all_nodes (recompute_rule (_updateRange t idx l r ql qr delta)) idx l r.
Proof.
  intros Hlr. revert l r Hlr.
  apply (span_ind (fun l r => forall t idx,
    1 <= idx ->
    all_nodes (recompute_rule t) idx l r ->
    all_nodes (recompute_rule (_updateRange t idx l r ql qr delta)) idx l r)).
  - (* leaf *)
    intros l t idx Hidx H. apply all_nodes_leaf_inv in H.
    rewrite _updateRange_eq. repeat case_decide; [by apply all_leaf| |lia].
    destruct H as (c & Hc & _).
    apply all_leaf. eapply recompute_establishes; try done.
    simpl. rewrite js_get_set, Hc. done.
  - (* inner node *)
    intros l r Hlr IHl IHr t idx Hidx H.
    pose proof (mid_bounds l r Hlr) as Hmid.
    apply all_nodes_inner_inv in H as (Hrule & H1 & H2); [|done].
    rewrite _updateRange_eq. repeat case_decide; [by apply all_inner|..].
    + (* the span lies in the query *)
      set (t1 := set_coverCount t idx _).
      destruct (set_coverCount_same_children idx
                  (count_add (js_get (coverCount t) idx) delta) t Hidx) as [S1 S2].
      fold t1 in S1, S2.
      destruct (recompute_same_children idx l r t1 Hidx) as [S3 S4].
      apply all_inner; [done|..].
      * destruct Hrule as (c & Hc & _).
        eapply recompute_establishes; try done.
        subst t1. simpl. rewrite js_get_set, Hc. done.
      * eapply all_rule_same; [exact S3|]. eapply all_rule_same; [exact S1|done].
      * eapply all_rule_same; [exact S4|]. eapply all_rule_same; [exact S2|done].
    + (* the span meets the query *)
      set (t1 := _updateRange t (2 * idx) l ((l + r) / 2) ql qr delta).
      set (t2 := _updateRange t1 (2 * idx + 1) ((l + r) / 2 + 1) r ql qr delta).
      pose proof (only_under_updateRange t (2 * idx) l ((l + r) / 2) ql qr delta) as O1.
      pose proof (only_under_updateRange t1 (2 * idx + 1) ((l + r) / 2 + 1) r ql qr delta) as O2.
      fold t1 in O1. fold t2 in O2.
      assert (all_nodes (recompute_rule t2) (2 * idx) l ((l + r) / 2)) as A1.
      { eapply all_rule_same; [by apply only_under_same_left|].
        apply IHl; try done; lia. }
      assert (all_nodes (recompute_rule t2) (2 * idx + 1) ((l + r) / 2 + 1) r) as A2.
      { apply IHr; try done; try lia.
        eapply all_rule_same; [by apply only_under_same_right|done]. }
      destruct (recompute_same_children idx l r t2 Hidx) as [S3 S4].
      apply all_inner; [done|..].
      * destruct Hrule as (c & Hc & _).
        eapply (recompute_establishes _ _ _ _ c); try done.
        destruct O1 as (_ & _ & O1). destruct O2 as (_ & _ & O2).
        unfold js_get.
        destruct (O2 idx) as [-> _];
          [intros Hu; eapply parent_not_under; eauto|].
        destruct (O1 idx) as [-> _];
          [intros Hu; eapply parent_not_under; eauto|].
        exact Hc.
      * eapply all_rule_same; [exact S3|done].
      * eapply all_rule_same; [exact S4|done].
Qed.

(** ** What the counters hold after an update *)

Lemma net_cons l r u A :
  net l r (u :: A) =
    (if contains l r (u_lo u) (u_hi u) then u_delta u else 0) + net l r A.
Proof. reflexivity. Qed.

Lemma contains_true l r lo hi : contains l r lo hi = true <-> lo <= l /\ r <= hi.
Proof. unfold contains. rewrite andb_true_iff, !Z.leb_le. done. Qed.

Lemma contains_false l r lo hi : contains l r lo hi = false <-> ~ (lo <= l /\ r <= hi).
Proof. rewrite <- contains_true. by destruct (contains l r lo hi). Qed.

Lemma filter_outside_cons_in l r u A :
  contains l r (u_lo u) (u_hi u) = true ->
  filter (outside l r) (u :: A) = filter (outside l r) A.
Proof. intros H. rewrite filter_cons_False; [done|]. unfold outside. by rewrite H. Qed.

Lemma filter_outside_cons_out l r u A :
  contains l r (u_lo u) (u_hi u) = false ->
  filter (outside l r) (u :: A) = u :: filter (outside l r) A.
Proof. intros H. by rewrite filter_cons_True. Qed.

Lemma counts_is_Some t A idx l r :
  counts t A idx l r -> js_get (coverCount t) idx = Some (net l r A).
Proof. by inversion 1. Qed.

Lemma counts_leaf_inv t A idx l :
  counts t A idx l l -> js_get (coverCount t) idx = Some (net l l A).
Proof. by inversion 1. Qed.

Lemma counts_inner_inv t A idx l r :
  l < r -> counts t A idx l r ->
  js_get (coverCount t) idx = Some (net l r A)
  /\ counts t (filter (outside l r) A) (2 * idx) l ((l + r) / 2)
  /\ counts t (filter (outside l r) A) (2 * idx + 1) ((l + r) / 2 + 1) r.
Proof. intros Hlr H. inversion H; subst; [lia|done]. Qed.

(** An update whose range misses the span changes no counter below. *)
Lemma counts_inert t A idx l r u :
  u_lo u > r \/ u_hi u < l \/ u_lo u > u_hi u ->
  counts t A idx l r -> counts t (u :: A) idx l r.
Proof.
  intros Hu H. induction H as [A idx l H|A idx l r Hlr H H1 IH1 H2 IH2].
  - apply counts_leaf. rewrite net_cons.
    replace (contains l l (u_lo u) (u_hi u)) with false
      by (symmetry; apply contains_false; lia).
    done.
  - pose proof (mid_bounds l r Hlr).
    assert (contains l r (u_lo u) (u_hi u) = false) as E
      by (apply contains_false; lia).
    apply counts_inner; [done|..].
    + by rewrite net_cons, E.
    + rewrite filter_outside_cons_out by done. apply IH1. lia.
    + rewrite filter_outside_cons_out by done. apply IH2. lia.
Qed.

(** The three cases of [_updateRange]: the span misses the query, lies in
    it, or meets it. *)
Ltac split_query ql qr l r :=
  rewrite _updateRange_eq;
  destruct (decide (ql > r \/ qr < l)) as [Hmiss|Hmeet];
  [|destruct (decide (ql <= l /\ r <= qr)) as [Hin|Hpart]].

Lemma updateRange_counts ql qr delta l r :
  l <= r ->
  forall t A idx,
    1 <= idx ->
    counts t A idx l r ->
    counts (_updateRange t idx l r ql qr delta) (mkUpd ql qr delta :: A) idx l r.
Proof.
  intros Hlr. revert l r Hlr.
  apply (span_ind (fun l r => forall t A idx,
    1 <= idx -> counts t A idx l r ->
    counts (_updateRange t idx l r ql qr delta) (mkUpd ql qr delta :: A) idx l r)).
  - (* leaf *)
    intros l t A idx Hidx H.
    split_query ql qr l l; [|..|lia].
    + apply counts_inert; [simpl; lia|done].
    + apply counts_leaf_inv in H. apply counts_leaf.
      rewrite recompute_coverCount, net_cons.
      cbn [set_coverCount coverCount u_lo u_hi u_delta].
      rewrite js_get_set, H.
      replace (contains l l ql qr) with true by (symmetry; apply contains_true; lia).
      simpl. f_equal. lia.
  - (* inner node *)
    intros l r Hlr IHl IHr t A idx Hidx H.
    pose proof (mid_bounds l r Hlr) as Hmid.
    split_query ql qr l r.
    + apply counts_inert; [simpl; lia|done].
    + (* the span lies in the query *)
      apply counts_inner_inv in H as (Hc & H1 & H2); [|done].
      assert (contains l r ql qr = true) as E by (by apply contains_true).
      set (t1 := set_coverCount t idx _).
      destruct (set_coverCount_same_children idx
                  (count_add (js_get (coverCount t) idx) delta) t Hidx) as [S1 S2].
      fold t1 in S1, S2.
      destruct (recompute_same_children idx l r t1 Hidx) as [S3 S4].
      apply counts_inner; [done|..].
      * rewrite recompute_coverCount, net_cons. subst t1.
        cbn [set_coverCount coverCount u_lo u_hi u_delta].
        rewrite js_get_set, Hc, E. simpl. f_equal. lia.
      * rewrite filter_outside_cons_in by done.
        eapply counts_same; [exact S3|]. eapply counts_same; [exact S1|done].
      * rewrite filter_outside_cons_in by done.
        eapply counts_same; [exact S4|]. eapply counts_same; [exact S2|done].
    + (* the span meets the query *)
      apply counts_inner_inv in H as (Hc & H1 & H2); [|done].
      assert (contains l r ql qr = false) as E by (by apply contains_false).
      set (t1 := _updateRange t (2 * idx) l ((l + r) / 2) ql qr delta).
      set (t2 := _updateRange t1 (2 * idx + 1) ((l + r) / 2 + 1) r ql qr delta).
      pose proof (only_under_updateRange t (2 * idx) l ((l + r) / 2) ql qr delta) as O1.
      pose proof (only_under_updateRange t1 (2 * idx + 1) ((l + r) / 2 + 1) r ql qr delta) as O2.
      fold t1 in O1. fold t2 in O2.
      destruct (recompute_same_children idx l r t2 Hidx) as [S3 S4].
      apply counts_inner; [done|..].
      * rewrite recompute_coverCount, net_cons.
        cbn [u_lo u_hi u_delta]. rewrite E, Z.add_0_l.
        destruct O1 as (_ & _ & O1). destruct O2 as (_ & _ & O2).
        unfold js_get.
        destruct (O2 idx) as [-> _];
          [intros Hu; eapply parent_not_under; eauto|].
        destruct (O1 idx) as [-> _];
          [intros Hu; eapply parent_not_under; eauto|].
        exact Hc.
      * rewrite filter_outside_cons_out by done.
        eapply counts_same; [exact S3|].
        eapply counts_same; [by apply only_under_same_left|].
        apply IHl; [lia|done].
      * rewrite filter_outside_cons_out by done.
        eapply counts_same; [exact S4|].
        apply IHr; [lia|].
        eapply counts_same; [by apply only_under_same_right|done].
Qed.

(** ** The tree after the constructor *)

Lemma js_fill_lookup {A} len (v : option A) i :
  js_fill len v !! i = if decide (0 <= i < len) then Some v else None.
Proof.
  unfold js_fill. case_decide as Hi.
  - apply elem_of_list_to_map.
    + rewrite <- list_fmap_compose. simpl. rewrite list_fmap_id. apply NoDup_seqZ.
    + apply list_elem_of_fmap. exists i. split; [done|]. apply elem_of_seqZ. lia.
  - apply not_elem_of_list_to_map.
    rewrite <- list_fmap_compose. simpl. rewrite list_fmap_id.
    rewrite elem_of_seqZ. lia.
Qed.

Lemma js_fill_get {A} len (v : option A) i :
  0 <= i < len -> js_get (js_fill len v) i = v.
Proof. intros Hi. unfold js_get. by rewrite js_fill_lookup, decide_True. Qed.

(** Every node of a tree over [n] intervals is stored below position [4n]:
    at depth [d] the positions are in [2^d .. 2^(d+1) - 1] and a span has at
    most [ceil (n / 2^d)] intervals. *)
Lemma positions_bound (n : Z) l r :
  l <= r ->
  forall idx P,
    1 <= P -> P <= idx < 2 * P -> (r - l) * P < n -> P <= 2 * n ->
    all_nodes (fun idx _ _ => 1 <= idx < 4 * n) idx l r.
Proof.
  intros Hlr. revert l r Hlr.
  apply (span_ind (fun l r => forall idx P,
    1 <= P -> P <= idx < 2 * P -> (r - l) * P < n -> P <= 2 * n ->
    all_nodes (fun idx _ _ => 1 <= idx < 4 * n) idx l r)).
  - intros l idx P HP Hidx Hsz Hn. apply all_leaf. lia.
  - intros l r Hlr IHl IHr idx P HP Hidx Hsz Hn.
    pose proof (mid_bounds l r Hlr). pose proof (mid_double l r).
    apply all_inner; [done|lia|..].
    + apply (IHl _ (2 * P)); nia.
    + apply (IHr _ (2 * P)); nia.
Qed.

Lemma build_id t idx l r :
  all_nodes (fun idx _ _ => coveredLen t !! idx = Some (Some (Fin 0))) idx l r ->
  _build t idx l r = t.
Proof.
  assert (forall i, coveredLen t !! i = Some (Some (Fin 0)) ->
                    set_coveredLen t i (Some (Fin 0)) = t) as Hset.
  { intros i Hi. destruct t. unfold set_coveredLen, js_set. simpl in *.
    by rewrite insert_id. }
  intros H. induction H as [idx l H|idx l r Hlr H H1 IH1 H2 IH2];
    rewrite _build_eq.
  - rewrite decide_False, decide_True by lia. auto.
  - rewrite !decide_False by lia. rewrite IH1, IH2. auto.
Qed.

Lemma all_nodes_impl (P Q : Z -> Z -> Z -> Prop) idx l r :
  (forall idx l r, P idx l r -> Q idx l r) ->
  all_nodes P idx l r -> all_nodes Q idx l r.
Proof. intros HPQ H. induction H; [apply all_leaf|apply all_inner]; auto. Qed.

Lemma new_SegmentTree_eq (cs : list Z) :
  new_SegmentTree cs =
    let n := Z.of_nat (length cs) - 1 in
    mkSegmentTree cs n (js_fill (4 * n) (Some 0)) (js_fill (4 * n) (Some (Fin 0))).
Proof.
  unfold new_SegmentTree. cbv zeta.
  set (m := Z.of_nat (length cs) - 1).
  destruct (decide (m <= 0)) as [Hm|Hm].
  - rewrite _build_eq. destruct (decide (0 > m - 1)); [done|lia].
  - apply build_id. simpl.
    eapply all_nodes_impl; [|apply (positions_bound m 0 (m - 1) ltac:(lia) 1 1); lia].
    simpl. intros idx _ _ Hidx. rewrite js_fill_lookup, decide_True by lia. done.
Qed.

Lemma filled_rule (cs : list Z) (m : Z) idx l r :
  all_nodes (fun idx _ _ => 1 <= idx < 4 * m) idx l r ->
  all_nodes
    (recompute_rule
       (mkSegmentTree cs m (js_fill (4 * m) (Some 0)) (js_fill (4 * m) (Some (Fin 0)))))
    idx l r.
Proof.
  intros H. induction H as [idx l H|idx l r Hlr H H1 IH1 H2 IH2].
  - apply all_leaf. exists 0. simpl.
    rewrite !js_fill_get by lia. rewrite decide_True by done. done.
  - apply all_nodes_here in H1 as B1. apply all_nodes_here in H2 as B2.
    apply all_inner; [done| |done..]. exists 0. simpl.
    rewrite !js_fill_get by lia. rewrite decide_False by lia.
    split; [done|]. cbn [js_add num_add]. by rewrite Z.add_0_l, fl_0.
Qed.

Lemma filled_counts (cs : list Z) (m : Z) idx l r :
  all_nodes (fun idx _ _ => 1 <= idx < 4 * m) idx l r ->
  counts (mkSegmentTree cs m (js_fill (4 * m) (Some 0)) (js_fill (4 * m) (Some (Fin 0))))
         [] idx l r.
Proof.
  intros H. induction H as [idx l H|idx l r Hlr H H1 IH1 H2 IH2].
  - apply counts_leaf. simpl. by rewrite js_fill_get by lia.
  - apply counts_inner; [done| |done..]. simpl. by rewrite js_fill_get by lia.
Qed.

Lemma new_SegmentTree_rule (cs : list Z) :
  let m := Z.of_nat (length cs) - 1 in
  1 <= m -> all_nodes (recompute_rule (new_SegmentTree cs)) 1 0 (m - 1).
Proof.
  intros m Hm. rewrite new_SegmentTree_eq. fold m.
  apply filled_rule, (positions_bound m 0 (m - 1) ltac:(lia) 1 1); lia.
Qed.

Lemma new_SegmentTree_counts (cs : list Z) :
  let m := Z.of_nat (length cs) - 1 in
  1 <= m -> counts (new_SegmentTree cs) [] 1 0 (m - 1).
Proof.
  intros m Hm. rewrite new_SegmentTree_eq. fold m.
  apply filled_counts, (positions_bound m 0 (m - 1) ltac:(lia) 1 1); lia.
Qed.

(** ** The counters depend on the net counts only *)

Lemma weigh_filter_outside f l r A :
  weigh f (filter (outside l r) A) =
  weigh (fun lo hi => f lo hi && negb (contains l r lo hi)) A.
Proof.
  induction A as [|u A IH]; [done|].
  destruct (contains l r (u_lo u) (u_hi u)) eqn:E.
  - rewrite filter_outside_cons_in by done. simpl. rewrite E, andb_false_r. lia.
  - rewrite filter_outside_cons_out by done. simpl. rewrite E, andb_true_r. lia.
Qed.

Lemma same_net_filter l r A B :
  same_net A B -> same_net (filter (outside l r) A) (filter (outside l r) B).
Proof. intros H f. rewrite !weigh_filter_outside. apply H. Qed.

Lemma same_net_refl A : same_net A A.
Proof. by intros f. Qed.

Lemma same_net_sym A B : same_net A B -> same_net B A.
Proof. intros H f. by rewrite H. Qed.

Lemma same_net_trans A B C : same_net A B -> same_net B C -> same_net A C.
Proof. intros H1 H2 f. by rewrite H1. Qed.

Lemma weigh_app f A B : weigh f (A ++ B) = weigh f A + weigh f B.
Proof. induction A as [|u A IH]; simpl; lia. Qed.

Lemma same_net_app A A' B B' :
  same_net A A' -> same_net B B' -> same_net (A ++ B) (A' ++ B').
Proof. intros H1 H2 f. rewrite !weigh_app. by rewrite H1, H2. Qed.

Lemma same_net_perm A B : A ≡ₚ B -> same_net A B.
Proof.
  intros H f. induction H as [|u A B H IH|u v A|A B C H1 IH1 H2 IH2]; simpl; lia.
Qed.

Lemma counts_same_net t A B idx l r :
  same_net A B -> counts t A idx l r -> counts t B idx l r.
Proof.
  intros HAB H. revert B HAB.
  induction H as [A idx l H|A idx l r Hlr H H1 IH1 H2 IH2]; intros B HAB.
  - apply counts_leaf. unfold net. by rewrite <- HAB.
  - apply counts_inner; [done|..].
    + unfold net. by rewrite <- HAB.
    + by apply IH1, same_net_filter.
    + by apply IH2, same_net_filter.
Qed.

(** Two trees over the same coordinates that obey the recompute rule and
    hold the counters of the same updates have the same covered lengths. *)
Lemma coveredLen_determined t t' A idx l r :
  coords t' = coords t ->
  all_nodes (recompute_rule t) idx l r -> counts t A idx l r ->
  all_nodes (recompute_rule t') idx l r -> counts t' A idx l r ->
  js_get (coveredLen t') idx = js_get (coveredLen t) idx.
Proof.
  intros Hcs H. revert A.
  induction H as [idx l H|idx l r Hlr H H1 IH1 H2 IH2]; intros A C R' C'.
  - apply all_nodes_leaf_inv in R'. apply counts_leaf_inv in C, C'.
    destruct H as (c & Hc & E), R' as (c' & Hc' & E').
    rewrite E, E', Hcs.
    assert (c' = c) as -> by congruence.
    destruct (c >? 0); [done|]. by rewrite !decide_True by done.
  - apply all_nodes_inner_inv in R' as (R' & R1 & R2); [|done].
    apply counts_inner_inv in C as (C & C1 & C2); [|done].
    apply counts_inner_inv in C' as (C' & C1' & C2'); [|done].
    destruct H as (c & Hc & E), R' as (c' & Hc' & E').
    rewrite E, E', Hcs.
    assert (c' = c) as -> by congruence.
    rewrite (IH1 _ C1 R1 C1'), (IH2 _ C2 R2 C2'). done.
Qed.

(** ** The covered length that the root reports *)

Lemma coord_nth cs i :
  0 <= i < Z.of_nat (length cs) -> js_nth cs i = Some (coord cs i).
Proof.
  intros Hi. destruct (js_nth_is_Some cs i Hi) as [v Hv]. unfold coord. by rewrite Hv.
Qed.

Lemma width_eq cs i :
  0 <= i -> i + 1 < Z.of_nat (length cs) -> width cs i = coord cs (i + 1) - coord cs i.
Proof.
  intros H0 H1. unfold width. by rewrite !coord_nth by lia.
Qed.

Lemma lit_length_leaf cs A l :
  lit_length cs A l l = if decide (lit A l) then width cs l else 0.
Proof.
  unfold lit_length. replace (l - l + 1) with 1 by lia.
  rewrite seqZ_cons, seqZ_nil by lia. simpl. case_decide; lia.
Qed.

Lemma lit_length_split cs A l m r :
  l <= m -> m < r ->
  lit_length cs A l r = lit_length cs A l m + lit_length cs A (m + 1) r.
Proof.
  intros H1 H2. unfold lit_length.
  replace (r - l + 1) with ((m - l + 1) + (r - (m + 1) + 1)) by lia.
  rewrite seqZ_app by lia. rewrite foldr_app.
  replace (l + (m - l + 1)) with (m + 1) by lia.
  generalize (foldr (fun i acc => (if decide (lit A i) then width cs i else 0) + acc)
                    0 (seqZ (m + 1) (r - (m + 1) + 1))) as z.
  intros z. induction (seqZ l (m - l + 1)) as [|i s IH]; simpl; lia.
Qed.

Lemma lit_length_full cs A l r :
  l <= r -> 0 <= l -> r + 1 < Z.of_nat (length cs) ->
  (forall i, l <= i <= r -> lit A i) ->
  lit_length cs A l r = coord cs (r + 1) - coord cs l.
Proof.
  intros Hlr. revert l r Hlr.
  apply (span_ind (fun l r => 0 <= l -> r + 1 < Z.of_nat (length cs) ->
    (forall i, l <= i <= r -> lit A i) ->
    lit_length cs A l r = coord cs (r + 1) - coord cs l)).
  - intros l Hl Hr Hlit. rewrite lit_length_leaf, decide_True by (apply Hlit; lia).
    by apply width_eq.
  - intros l r Hlr IHl IHr Hl Hr Hlit. pose proof (mid_bounds l r Hlr).
    rewrite (lit_length_split cs A l ((l + r) / 2) r) by lia.
    rewrite IHl, IHr; try lia; intros i Hi; apply Hlit; lia.
Qed.

(** The lit length is at most the width of the span, and reaches it only
    when every elementary interval of the span is lit. *)
Lemma lit_length_bound cs A l r :
  increasing cs ->
  l <= r -> 0 <= l -> r + 1 < Z.of_nat (length cs) ->
  0 <= lit_length cs A l r <= coord cs (r + 1) - coord cs l
  /\ (lit_length cs A l r = coord cs (r + 1) - coord cs l ->
      forall i, l <= i <= r -> lit A i).
Proof.
  intros Hinc Hlr. revert l r Hlr.
  apply (span_ind (fun l r => 0 <= l -> r + 1 < Z.of_nat (length cs) ->
    0 <= lit_length cs A l r <= coord cs (r + 1) - coord cs l
    /\ (lit_length cs A l r = coord cs (r + 1) - coord cs l ->
        forall i, l <= i <= r -> lit A i))).
  - intros l Hl Hr. rewrite lit_length_leaf, width_eq by lia.
    pose proof (Hinc l Hl Hr).
    case_decide as Hlit; (split; [lia|]); intros E i Hi.
    + by replace i with l by lia.
    + lia.
  - intros l r Hlr IHl IHr Hl Hr. pose proof (mid_bounds l r Hlr).
    rewrite (lit_length_split cs A l ((l + r) / 2) r) by lia.
    destruct IHl as [B1 F1]; [lia..|]. destruct IHr as [B2 F2]; [lia..|].
    split; [lia|]. intros E i Hi.
    destruct (decide (i <= (l + r) / 2)); [apply F1|apply F2]; lia.
Qed.

Lemma net_additions l r A :
  additions A ->
  (0 < net l r A /\ Exists (fun u => contains l r (u_lo u) (u_hi u) = true) A)
  \/ (net l r A = 0 /\ filter (outside l r) A = A).
Proof.
  intros H. induction H as [|u A Hu H IH]; [by right|].
  rewrite net_cons, Hu.
  destruct (contains l r (u_lo u) (u_hi u)) eqn:E.
  - left. split; [|by left]. destruct IH as [[? _]|[-> _]]; lia.
  - rewrite filter_outside_cons_out by done.
    destruct IH as [[? ?]|[-> ->]]; [left|right]; (split; [lia|]); [by right|done].
Qed.

Lemma additions_filter l r A : additions A -> additions (filter (outside l r) A).
Proof.
  unfold additions. rewrite !Forall_forall. intros H u Hu.
  apply list_elem_of_filter in Hu as [_ Hu]. auto.
Qed.

Lemma contains_lit l r A i :
  Exists (fun u => contains l r (u_lo u) (u_hi u) = true) A ->
  l <= i <= r -> lit A i.
Proof.
  unfold lit. rewrite !Exists_exists. intros (u & Hu & Hc) Hi.
  apply contains_true in Hc. exists u. split; [done|lia].
Qed.

Lemma outside_not_lit l A : filter (outside l l) A = A -> ~ lit A l.
Proof.
  unfold lit. rewrite Exists_exists. intros HA (u & Hu & Hl).
  rewrite <- HA in Hu. apply list_elem_of_filter in Hu as [Ho _].
  apply contains_false in Ho. lia.
Qed.

Lemma coord_mono cs i j :
  increasing cs -> 0 <= i -> i <= j -> j < Z.of_nat (length cs) ->
  coord cs i <= coord cs j.
Proof.
  intros Hinc Hi Hij Hj.
  replace j with (i + Z.of_nat (Z.to_nat (j - i))) in * by lia.
  induction (Z.to_nat (j - i)) as [|k IH]; [by rewrite Z.add_0_r|].
  specialize (IH ltac:(lia) ltac:(lia)).
  pose proof (Hinc (i + Z.of_nat k) ltac:(lia) ltac:(lia)) as Hstep.
  replace (i + Z.of_nat (S k)) with (i + Z.of_nat k + 1) by lia. lia.
Qed.

(** With additions only, over a span of at most 2^53 units, [coveredLen] at
    a node is the lit length of its span under the updates that do not
    contain the span of the parent: nothing is rounded. *)
Lemma coveredLen_lit t idx l r :
  increasing (coords t) ->
  all_nodes (recompute_rule t) idx l r ->
  forall A,
    additions A -> counts t A idx l r ->
    0 <= l -> r + 1 < Z.of_nat (length (coords t)) ->
    coord (coords t) (r + 1) - coord (coords t) l <= 2 ^ 53 ->
    js_get (coveredLen t) idx = Some (Fin (lit_length (coords t) A l r)).
Proof.
  intros Hinc H. induction H as [idx l H|idx l r Hlr H H1 IH1 H2 IH2];
    intros A HA C Hl Hr Hsmall.
  - apply counts_leaf_inv in C. destruct H as (c & Hc & E).
    assert (c = net l l A) as -> by congruence. rewrite E.
    pose proof (Hinc l Hl Hr) as Hpos'.
    destruct (net_additions l l A HA) as [[Hpos Hex]|[Hz Hf]].
    + replace (net l l A >? 0) with true by lia.
      rewrite !coord_nth by lia. cbn [js_sub]. rewrite fl_exact by lia.
      rewrite lit_length_full; try done; try lia. intros i Hi. by eapply contains_lit.
    + replace (net l l A >? 0) with false by lia.
      rewrite decide_True by done.
      rewrite lit_length_leaf, decide_False; [done|]. by apply outside_not_lit.
  - apply counts_inner_inv in C as (C & C1 & C2); [|done].
    pose proof (mid_bounds l r Hlr).
    destruct H as (c & Hc & E).
    assert (c = net l r A) as -> by congruence. rewrite E.
    pose proof (coord_mono (coords t) l (r + 1) Hinc ltac:(lia) ltac:(lia) ltac:(lia)).
    pose proof (coord_mono (coords t) l ((l + r) / 2 + 1) Hinc
                  ltac:(lia) ltac:(lia) ltac:(lia)).
    pose proof (coord_mono (coords t) ((l + r) / 2 + 1) (r + 1) Hinc
                  ltac:(lia) ltac:(lia) ltac:(lia)).
    destruct (net_additions l r A HA) as [[Hpos Hex]|[Hz Hf]].
    + replace (net l r A >? 0) with true by lia.
      rewrite !coord_nth by lia. cbn [js_sub]. rewrite fl_exact by lia.
      rewrite lit_length_full; try done; try lia. intros i Hi. by eapply contains_lit.
    + replace (net l r A >? 0) with false by lia.
      rewrite decide_False by lia. rewrite Hf in C1, C2.
      rewrite (IH1 A), (IH2 A); try done; try lia. cbn [js_add].
      destruct (lit_length_bound (coords t) A l ((l + r) / 2) Hinc) as [B1 _]; [lia..|].
      destruct (lit_length_bound (coords t) A ((l + r) / 2 + 1) r Hinc) as [B2 _];
        [lia..|].
      rewrite num_add_exact by lia.
      by rewrite <- lit_length_split by lia.
Qed.

(** ** Sorting *)

Section Sort.
Context {A : Type} (key : A -> Z).

Lemma sort_insert_perm x l : sort_insert key x l ≡ₚ x :: l.
Proof.
  induction l as [|y l IH]; [done|]. simpl. case_match; [done|].
  rewrite IH. apply perm_swap.
Qed.

Lemma js_sort_perm l : js_sort key l ≡ₚ l.
Proof.
  induction l as [|x l IH]; [done|]. simpl.
  rewrite sort_insert_perm. by rewrite IH.
Qed.

Lemma sort_insert_sorted x l :
  sorted_by key l -> sorted_by key (sort_insert key x l).
Proof.
  unfold sorted_by. induction 1 as [|y l Hs IH Hy]; simpl.
  - repeat constructor.
  - case_match eqn:E.
    + apply Z.leb_le in E. constructor; [by constructor|].
      constructor; [done|]. eapply Forall_impl; [exact Hy|]. simpl. lia.
    + apply Z.leb_gt in E. constructor; [done|].
      rewrite sort_insert_perm. constructor; [lia|done].
Qed.

Lemma js_sort_sorted l : sorted_by key (js_sort key l).
Proof.
  induction l as [|x l IH]; [constructor|]. simpl. by apply sort_insert_sorted.
Qed.

(** Stability: elements with the same key keep their order. *)
Lemma sort_insert_stable k x l :
  sorted_by key l ->
  filter (fun a => key a = k) (sort_insert key x l) =
  filter (fun a => key a = k) (x :: l).
Proof.
  unfold sorted_by. induction 1 as [|y l Hs IH Hy]; [done|]. simpl.
  case_match eqn:E; [done|]. apply Z.leb_gt in E.
  rewrite (filter_cons _ y), IH, !filter_cons.
  destruct (decide (key y = k)) as [Ey|Ey]; [|done].
  destruct (decide (key x = k)) as [Ex|Ex]; [lia|done].
Qed.

Lemma js_sort_stable k l :
  filter (fun a => key a = k) (js_sort key l) = filter (fun a => key a = k) l.
Proof.
  induction l as [|x l IH]; [done|]. simpl.
  rewrite sort_insert_stable by apply js_sort_sorted.
  by rewrite !filter_cons, IH.
Qed.
End Sort.

(** ** Step 1: filter and clamp *)

Section Steps.
Variables distanceMin distanceMax lightMin lightMax : Z.

Abbreviation overlaps := (overlaps distanceMin distanceMax lightMin lightMax).
Abbreviation clamp := (clamp distanceMin distanceMax lightMin lightMax).
Abbreviation filter_clamp := (filter_clamp distanceMin distanceMax lightMin lightMax).
Abbreviation build_events := (build_events distanceMin distanceMax).
Abbreviation lightCoords := (lightCoords lightMin lightMax).
Abbreviation uniqueLightValues := (uniqueLightValues lightMin lightMax).

Lemma filter_clamp_eq cameras :
  filter_clamp cameras = clamp <$> filter (fun cam => overlaps cam = true) cameras.
Proof.
  unfold filter_clamp.
  assert (forall acc,
    foldl (fun validCams cam =>
             if overlaps cam then validCams ++ [clamp cam] else validCams)
          acc cameras
    = acc ++ (clamp <$> filter (fun cam => overlaps cam = true) cameras)) as H.
  { induction cameras as [|cam cameras IH]; intros acc; simpl.
    - by rewrite app_nil_r.
    - rewrite IH, filter_cons. destruct (overlaps cam) eqn:E.
      + rewrite decide_True by done. by rewrite <- app_assoc.
      + rewrite decide_False by done. done. }
  apply H.
Qed.

Lemma build_events_eq validCams :
  build_events validCams =
    [mkEvent distanceMin 0 0 0; mkEvent distanceMax 0 0 0]
    ++ (validCams ≫= cam_events).
Proof.
  unfold build_events.
  generalize [mkEvent distanceMin 0 0 0; mkEvent distanceMax 0 0 0] as acc.
  induction validCams as [|cam validCams IH]; intros acc; simpl.
  - by rewrite app_nil_r.
  - rewrite IH. by rewrite <- app_assoc.
Qed.

Lemma elem_of_lightCoords validCams x :
  x ∈ lightCoords validCams <->
  x = lightMin \/ x = lightMax
  \/ exists cam, cam ∈ validCams /\ (x = lMin cam \/ x = lMax cam).
Proof.
  unfold lightCoords.
  assert (forall s : gset Z,
    x ∈ foldl (fun s cam => s ∪ {[lMin cam]} ∪ {[lMax cam]}) s validCams <->
    x ∈ s \/ exists cam, cam ∈ validCams /\ (x = lMin cam \/ x = lMax cam)) as H.
  { induction validCams as [|cam validCams IH]; intros s; simpl.
    - split; [auto|]. intros [?|(cam & Hc & _)]; [done|]. by apply elem_of_nil in Hc.
    - rewrite IH, !elem_of_union, !elem_of_singleton. split.
      + intros [[[Hx|Hx]|Hx]|(c & Hc & Hx)].
        * by left.
        * right. exists cam. split; [left|auto].
        * right. exists cam. split; [left|auto].
        * right. exists c. split; [by right|done].
      + intros [Hx|(c & Hc & Hx)]; [by left; left; left|].
        apply elem_of_cons in Hc as [->|Hc]; [left; destruct Hx; auto|].
        right. eauto. }
  rewrite H, elem_of_union, !elem_of_singleton. tauto.
Qed.

Lemma elem_of_uniqueLightValues validCams x :
  x ∈ uniqueLightValues validCams <-> x ∈ lightCoords validCams.
Proof.
  unfold uniqueLightValues. rewrite js_sort_perm. apply elem_of_elements.
Qed.

Lemma uniqueLightValues_sorted validCams :
  StronglySorted Z.lt (uniqueLightValues validCams).
Proof.
  unfold uniqueLightValues.
  pose proof (js_sort_sorted (fun v : Z => v) (elements (lightCoords validCams))) as Hs.
  assert (NoDup (js_sort (fun v : Z => v) (elements (lightCoords validCams)))) as Hn.
  { rewrite js_sort_perm. apply NoDup_elements. }
  unfold sorted_by in Hs.
  induction Hs as [|x l Hs IH Hx]; [constructor|].
  apply NoDup_cons in Hn as [Hx' Hn]. constructor; [auto|].
  rewrite Forall_forall in *. intros y Hy. specialize (Hx y Hy).
  assert (x <> y) by (intros ->; done). lia.
Qed.
End Steps.

(** ** Step 3: the index of a light value *)

Lemma set_indices_notin vals k m v :
  v ∉ vals -> set_indices vals k m !! v = m !! v.
Proof.
  revert k m. induction vals as [|w vals IH]; intros k m Hv; [done|]. simpl.
  apply not_elem_of_cons in Hv as [Hne Hv].
  rewrite IH by done. by rewrite lookup_insert_ne.
Qed.

Lemma set_indices_lookup vals k m j v :
  NoDup vals -> vals !! j = Some v ->
  set_indices vals k m !! v = Some (k + Z.of_nat j).
Proof.
  revert k m j. induction vals as [|w vals IH]; intros k m j Hnd Hj; [done|].
  apply NoDup_cons in Hnd as [Hw Hnd]. destruct j as [|j]; simpl in *.
  - injection Hj as ->. rewrite set_indices_notin by done.
    rewrite lookup_insert_eq. f_equal. lia.
  - rewrite (IH _ _ j) by done. f_equal. lia.
Qed.

Lemma sorted_lt_lookup (cs : list Z) (i j : nat) a b :
  StronglySorted Z.lt cs -> (i < j)%nat ->
  cs !! i = Some a -> cs !! j = Some b -> a < b.
Proof.
  intros Hs. revert i j. induction Hs as [|x cs Hs IH Hx]; intros i j Hij Hi Hj; [done|].
  destruct j as [|j]; [lia|]. simpl in Hj. destruct i as [|i]; simpl in Hi.
  - injection Hi as ->. rewrite Forall_forall in Hx. apply Hx.
    by eapply list_elem_of_lookup_2.
  - eapply (IH i j); [lia|done..].
Qed.

Lemma sorted_lt_NoDup (cs : list Z) : StronglySorted Z.lt cs -> NoDup cs.
Proof.
  induction 1 as [|x cs Hs IH Hx]; constructor; [|done].
  rewrite Forall_forall in Hx. intros Hin. specialize (Hx _ Hin). lia.
Qed.

Lemma coord_lookup cs i :
  0 <= i < Z.of_nat (length cs) -> cs !! Z.to_nat i = Some (coord cs i).
Proof.
  intros Hi. pose proof (coord_nth cs i Hi) as H. unfold js_nth in H.
  by rewrite decide_True in H by lia.
Qed.

Lemma coord_lt cs i j :
  StronglySorted Z.lt cs ->
  0 <= i -> i < j -> j < Z.of_nat (length cs) -> coord cs i < coord cs j.
Proof.
  intros Hs Hi Hij Hj.
  eapply (sorted_lt_lookup cs (Z.to_nat i) (Z.to_nat j)); [done|lia|..];
    apply coord_lookup; lia.
Qed.

Lemma coord_le_inv cs i j :
  StronglySorted Z.lt cs ->
  0 <= i < Z.of_nat (length cs) -> 0 <= j < Z.of_nat (length cs) ->
  coord cs i <= coord cs j -> i <= j.
Proof.
  intros Hs Hi Hj Hle. destruct (decide (i <= j)); [done|].
  pose proof (coord_lt cs j i Hs). lia.
Qed.

Lemma sorted_increasing cs : StronglySorted Z.lt cs -> increasing cs.
Proof. intros Hs i H0 H1. apply coord_lt; (done || lia). Qed.

(** Every value of the sorted array is a key of [lightIndex], bound to its
    position in the array. *)
Lemma lightIndex_elem vals v :
  StronglySorted Z.lt vals -> v ∈ vals ->
  exists i, lightIndex vals !! v = Some i
            /\ 0 <= i < Z.of_nat (length vals) /\ coord vals i = v.
Proof.
  intros Hs Hv. apply list_elem_of_lookup in Hv as [j Hj].
  pose proof (lookup_lt_Some _ _ _ Hj) as Hlen.
  exists (Z.of_nat j). split; [|split; [lia|]].
  - unfold lightIndex. rewrite (set_indices_lookup vals 0 ∅ j v); [done| |done].
    by apply sorted_lt_NoDup.
  - pose proof (coord_lookup vals (Z.of_nat j) ltac:(lia)) as H.
    rewrite Nat2Z.id in H. congruence.
Qed.

Lemma index_of_elem vals v :
  StronglySorted Z.lt vals -> v ∈ vals ->
  is_Some (lightIndex vals !! v)
  /\ 0 <= index_of (lightIndex vals) v < Z.of_nat (length vals)
  /\ coord vals (index_of (lightIndex vals) v) = v.
Proof.
  intros Hs Hv. destruct (lightIndex_elem vals v Hs Hv) as (i & Hi & Hr & Hc).
  unfold index_of. rewrite Hi. eauto.
Qed.

(** ** Step 5: the loop *)

Section Sweep.
Variables distanceMin distanceMax : Z.
Variable index : gmap Z Z.
Variable totalLen : number.

Abbreviation loop := (sweep distanceMin distanceMax index totalLen).
Abbreviation fails := (gap_fails distanceMin distanceMax totalLen).

Lemma sweep_cons segTree prevDist ev rest :
  resolved index ev ->
  loop segTree prevDist (ev :: rest) =
    if fails segTree prevDist ev then Normal false
    else loop (step index segTree ev) (dist ev) rest.
Proof.
  intros Hr. simpl. unfold gap_fails, step.
  destruct (_ && _ && _); [done|].
  destruct (type ev =? 0) eqn:E; [done|].
  destruct Hr as [[a Ha] [b Hb]]; [lia|].
  unfold index_of. by rewrite Ha, Hb.
Qed.

(** The loop never throws once every light value has an index. *)
Lemma sweep_normal events :
  Forall (resolved index) events ->
  forall segTree prevDist, exists b, loop segTree prevDist events = Normal b.
Proof.
  induction 1 as [|ev rest Hev Hrest IH]; intros segTree prevDist; [by exists true|].
  rewrite sweep_cons by done. destruct (fails _ _ _); eauto.
Qed.

(** The loop returns [true] exactly when no test fails, each test being
    made on the tree and the [prevDist] left by the events before it. *)
Lemma sweep_true_iff events :
  Forall (resolved index) events ->
  forall segTree prevDist,
    loop segTree prevDist events = Normal true <->
    forall events1 ev events2, events = events1 ++ ev :: events2 ->
      fails (foldl (step index) segTree events1)
                (last_dist prevDist events1) ev = false.
Proof.
  induction 1 as [|e rest He Hrest IH]; intros segTree prevDist.
  - split; [|done]. intros _ [|??] ?? E; discriminate E.
  - rewrite sweep_cons by done. split.
    + intros Hs events1 ev events2 E.
      destruct (fails segTree prevDist e) eqn:G; [done|].
      destruct events1 as [|e' events1]; simpl in E; injection E as <- ->; [done|].
      simpl. by eapply IH.
    + intros Hall. pose proof (Hall [] e rest eq_refl) as G. simpl in G. rewrite G.
      apply IH. intros events1 ev events2 ->.
      apply (Hall (e :: events1) ev events2 eq_refl).
Qed.
End Sweep.

(** ** The tree during the loop *)

Lemma tree_inv_same_net cs t A B :
  same_net A B -> tree_inv cs t A -> tree_inv cs t B.
Proof.
  intros HAB (Hc & Hn & Hr & Hk). repeat split; try done.
  by eapply counts_same_net.
Qed.

Lemma new_SegmentTree_inv cs :
  1 <= Z.of_nat (length cs) - 1 -> tree_inv cs (new_SegmentTree cs) [].
Proof.
  intros Hn.
  assert (coords (new_SegmentTree cs) = cs /\
          n (new_SegmentTree cs) = Z.of_nat (length cs) - 1) as [Hc Hm]
    by (by rewrite new_SegmentTree_eq).
  repeat split; try done; rewrite Hm.
  - by apply new_SegmentTree_rule.
  - by apply new_SegmentTree_counts.
Qed.

Lemma update_inv cs t A uLeft uRight delta :
  1 <= Z.of_nat (length cs) - 1 ->
  tree_inv cs t A ->
  tree_inv cs (update t uLeft uRight delta) (mkUpd uLeft (uRight - 1) delta :: A).
Proof.
  intros Hn (Hc & Hm & Hr & Hk). unfold update.
  destruct (uLeft >? uRight) eqn:E.
  - repeat split; try done. apply counts_inert; [simpl; lia|done].
  - repeat split.
    + by rewrite updateRange_coords.
    + by rewrite updateRange_n.
    + rewrite updateRange_n. apply updateRange_rule; try done; lia.
    + rewrite updateRange_n. apply updateRange_counts; try done; lia.
Qed.

Lemma step_inv index cs t A ev :
  1 <= Z.of_nat (length cs) - 1 ->
  tree_inv cs t A -> tree_inv cs (step index t ev) (event_upd index ev ++ A).
Proof.
  intros Hn H. unfold step, event_upd. destruct (type ev =? 0); [done|].
  by apply update_inv.
Qed.

Lemma foldl_step_inv index cs events :
  1 <= Z.of_nat (length cs) - 1 ->
  forall t A,
    tree_inv cs t A ->
    tree_inv cs (foldl (step index) t events) ((events ≫= event_upd index) ++ A).
Proof.
  intros Hn. induction events as [|ev events IH]; intros t A H; [done|]. simpl.
  pose proof (IH _ _ (step_inv index cs t A ev Hn H)) as H'.
  eapply tree_inv_same_net; [|exact H'].
  apply same_net_perm. rewrite <- (app_assoc (event_upd index ev)).
  apply Permutation_app_swap_app.
Qed.

(** The covered length that a test of the loop reads, when the updates made
    so far amount to the additions [B] and the coordinates span at most
    2^53 units. *)
Lemma getCoveredLength_lit cs t A B :
  1 <= Z.of_nat (length cs) - 1 ->
  increasing cs -> exact_range cs ->
  tree_inv cs t A -> same_net A B -> additions B ->
  getCoveredLength t = Some (Fin (lit_length cs B 0 (Z.of_nat (length cs) - 2))).
Proof.
  intros Hn Hinc Hex H HAB HB.
  destruct (tree_inv_same_net _ _ _ _ HAB H) as (Hc & Hm & Hr & Hk).
  unfold getCoveredLength. replace (Z.of_nat (length cs) - 2) with (n t - 1) by lia.
  rewrite <- Hc. rewrite <- Hc in Hinc.
  apply (coveredLen_lit t 1 0 (n t - 1) Hinc Hr B HB Hk); [lia|rewrite Hc; lia|].
  rewrite Hc. unfold exact_range in Hex.
  by replace (n t - 1 + 1) with (Z.of_nat (length cs) - 1) by lia.
Qed.

(** ** The updates made before a test *)

Lemma last_dist_snoc prev events ev :
  last_dist prev (events ++ [ev]) = dist ev.
Proof. unfold last_dist. by rewrite foldl_app. Qed.

Lemma last_dist_elem prev events :
  events <> [] -> exists ev, ev ∈ events /\ last_dist prev events = dist ev.
Proof.
  intros Hne. destruct events as [|e events] using rev_ind; [done|].
  exists e. rewrite last_dist_snoc. split; [|done].
  apply elem_of_app. right. by left.
Qed.

Lemma sorted_by_app {A} (key : A -> Z) l1 l2 x y :
  sorted_by key (l1 ++ l2) -> x ∈ l1 -> y ∈ l2 -> key x <= key y.
Proof.
  unfold sorted_by. intros Hs Hx Hy.
  by apply (StronglySorted_app_1_elem_of (fun a b => key a <= key b) l1 l2).
Qed.

Lemma sorted_by_last prev events :
  sorted_by dist events -> events <> [] ->
  forall ev, ev ∈ events -> dist ev <= last_dist prev events.
Proof.
  intros Hs Hne ev Hev. destruct events as [|e events _] using rev_ind; [done|].
  rewrite last_dist_snoc. apply elem_of_app in Hev as [Hev|Hev].
  - eapply (sorted_by_app dist); [exact Hs|done|by left].
  - apply list_elem_of_singleton in Hev as ->. lia.
Qed.

Lemma filter_all {A} (P : A -> Prop) `{forall x, Decision (P x)} (l : list A) :
  (forall x, x ∈ l -> P x) -> filter P l = l.
Proof.
  induction l as [|x l IH]; intros Hall; [done|].
  rewrite filter_cons_True by (apply Hall; by left).
  f_equal. apply IH. intros y Hy. apply Hall. by right.
Qed.

Lemma filter_none {A} (P : A -> Prop) `{forall x, Decision (P x)} (l : list A) :
  (forall x, x ∈ l -> ~ P x) -> filter P l = [].
Proof.
  induction l as [|x l IH]; intros Hall; [done|].
  rewrite filter_cons_False by (apply Hall; by left).
  apply IH. intros y Hy. apply Hall. by right.
Qed.

(** In a sorted array, the events before a test are the events at most
    [prevDist] away. *)
Lemma sorted_prefix prev events1 ev events2 :
  sorted_by dist (events1 ++ ev :: events2) -> events1 <> [] ->
  last_dist prev events1 < dist ev ->
  filter (fun e => dist e <= last_dist prev events1) (events1 ++ ev :: events2)
  = events1.
Proof.
  intros Hs Hne Hlt. rewrite filter_app.
  rewrite filter_all, filter_none; [by rewrite app_nil_r|..].
  - intros e He. apply elem_of_cons in He as [->|He]; [lia|].
    apply StronglySorted_app_1_r in Hs. inversion Hs as [|?? _ Hall]; subst.
    rewrite Forall_forall in Hall. specialize (Hall e He). simpl in Hall. lia.
  - apply sorted_by_last; [|done]. by apply StronglySorted_app_1_l in Hs.
Qed.

Section Processed.
Variables distanceMin distanceMax : Z.
Variable index : gmap Z Z.
Variable p : Z.

Lemma cam_events_upd cam :
  dMin cam <= dMax cam ->
  same_net (filter (fun e => dist e <= p) (cam_events cam) ≫= event_upd index)
           (if decide (active p cam) then [cam_upd index cam] else []).
Proof.
  intros Hwf f. unfold cam_events, active.
  rewrite !filter_cons, filter_nil. simpl.
  destruct (decide (dMin cam <= p)), (decide (dMax cam <= p));
    simpl; unfold cam_upd.
  - rewrite decide_False by lia. simpl. destruct (f _ _); lia.
  - by rewrite decide_True by lia.
  - lia.
  - by rewrite decide_False by lia.
Qed.

Lemma events_upd validCams :
  Forall (fun cam => dMin cam <= dMax cam) validCams ->
  same_net (filter (fun e => dist e <= p) (build_events distanceMin distanceMax validCams)
              ≫= event_upd index)
           (active_upds index p validCams).
Proof.
  intros Hwf. rewrite build_events_eq, filter_app, bind_app.
  assert (filter (fun e => dist e <= p)
            [mkEvent distanceMin 0 0 0; mkEvent distanceMax 0 0 0]
            ≫= event_upd index = []) as ->.
  { rewrite !filter_cons, filter_nil. by repeat case_decide. }
  simpl. unfold active_upds.
  induction Hwf as [|cam validCams Hcam Hwf IH]; [done|].
  change ((cam :: validCams) ≫= cam_events)
    with (cam_events cam ++ (validCams ≫= cam_events)).
  rewrite filter_app, bind_app, filter_cons.
  pose proof (same_net_app _ _ _ _ (cam_events_upd cam Hcam) IH) as H.
  eapply same_net_trans; [exact H|]. by case_decide.
Qed.
End Processed.

(** ** No exception escapes *)

Lemma elem_of_build_events distanceMin distanceMax validCams ev :
  ev ∈ build_events distanceMin distanceMax validCams <->
  ev = mkEvent distanceMin 0 0 0 \/ ev = mkEvent distanceMax 0 0 0
  \/ exists cam, cam ∈ validCams /\ ev ∈ cam_events cam.
Proof.
  rewrite build_events_eq, elem_of_app, !elem_of_cons, elem_of_nil, list_elem_of_bind.
  split.
  - intros [[?|[?|[]]]|(cam & ? & ?)]; eauto.
  - intros [?|[?|(cam & ? & ?)]]; eauto.
Qed.

Lemma elem_of_cam_events cam ev :
  ev ∈ cam_events cam <->
  ev = mkEvent (dMin cam) 1 (lMin cam) (lMax cam)
  \/ ev = mkEvent (dMax cam) (-1) (lMin cam) (lMax cam).
Proof. unfold cam_events. rewrite !elem_of_cons, elem_of_nil. tauto. Qed.

Lemma cam_lights_indexed lightMin lightMax validCams cam :
  cam ∈ validCams ->
  lMin cam ∈ uniqueLightValues lightMin lightMax validCams
  /\ lMax cam ∈ uniqueLightValues lightMin lightMax validCams.
Proof.
  intros Hc. rewrite !elem_of_uniqueLightValues, !elem_of_lightCoords.
  split; right; right; exists cam; auto.
Qed.

Lemma events_resolved distanceMin distanceMax lightMin lightMax validCams :
  Forall (resolved (lightIndex (uniqueLightValues lightMin lightMax validCams)))
         (js_sort dist (build_events distanceMin distanceMax validCams)).
Proof.
  rewrite Forall_forall. intros ev Hev. rewrite js_sort_perm in Hev.
  apply elem_of_build_events in Hev as [->|[->|(cam & Hc & Hev)]];
    [by intros ?..|].
  intros _.
  destruct (cam_lights_indexed lightMin lightMax validCams cam Hc) as [H1 H2].
  pose proof (uniqueLightValues_sorted lightMin lightMax validCams) as Hs.
  apply elem_of_cam_events in Hev as [->| ->]; simpl; split;
    by apply index_of_elem.
Qed.

(** The constructor never throws in [canCoverAll]: [lightMin] is one of the
    light values. *)
Lemma constructor_uniqueLightValues lightMin lightMax validCams :
  SegmentTree_constructor (uniqueLightValues lightMin lightMax validCams)
  = inr (new_SegmentTree (uniqueLightValues lightMin lightMax validCams)).
Proof.
  assert (lightMin ∈ uniqueLightValues lightMin lightMax validCams) as H0.
  { rewrite elem_of_uniqueLightValues, elem_of_lightCoords. by left. }
  unfold SegmentTree_constructor.
  destruct (uniqueLightValues lightMin lightMax validCams) as [|a l];
    [by apply elem_of_nil in H0|].
  destruct (4 * (Z.of_nat (length (a :: l)) - 1) <? 0) eqn:E; [|done].
  apply Z.ltb_lt in E. simpl in E. lia.
Qed.

Lemma sweep_valid_unfold distanceMin distanceMax lightMin lightMax validCams :
  sweep_valid distanceMin distanceMax lightMin lightMax validCams =
    match js_sort dist (build_events distanceMin distanceMax validCams) with
    | [] => Throw TypeError
    | ev0 :: _ =>
        sweep distanceMin distanceMax
              (lightIndex (uniqueLightValues lightMin lightMax validCams))
              (fl (lightMax - lightMin))
              (new_SegmentTree (uniqueLightValues lightMin lightMax validCams))
              (dist ev0)
              (js_sort dist (build_events distanceMin distanceMax validCams))
    end.
Proof.
  unfold sweep_valid. cbv zeta. by rewrite constructor_uniqueLightValues.
Qed.

Lemma sweep_valid_normal distanceMin distanceMax lightMin lightMax validCams :
  exists b, sweep_valid distanceMin distanceMax lightMin lightMax validCams = Normal b.
Proof.
  rewrite sweep_valid_unfold.
  pose proof (events_resolved distanceMin distanceMax lightMin lightMax validCams) as Hr.
  destruct (js_sort dist (build_events distanceMin distanceMax validCams))
    as [|ev0 events] eqn:E.
  - pose proof (js_sort_perm dist (build_events distanceMin distanceMax validCams)) as Hp.
    rewrite E, build_events_eq in Hp. by apply Permutation_nil_cons in Hp.
  - by apply sweep_normal.
Qed.

Lemma canCoverAll_normal distanceMin distanceMax lightMin lightMax cameras :
  exists b, canCoverAll distanceMin distanceMax lightMin lightMax cameras = Normal b.
Proof.
  unfold canCoverAll. repeat case_match; eauto using sweep_valid_normal.
Qed.

(** ** Locating a cell *)

Lemma locate_event (a : Z) events :
  forall prev, prev <= a -> (exists ev, ev ∈ events /\ a < dist ev) ->
  exists events1 ev events2,
    events = events1 ++ ev :: events2 /\ last_dist prev events1 <= a < dist ev.
Proof.
  induction events as [|e events IH]; intros prev Hprev (ev & Hev & Ha).
  - by apply elem_of_nil in Hev.
  - destruct (decide (a < dist e)) as [Hlt|Hge].
    + exists [], e, events. split; [done|]. simpl. lia.
    + apply elem_of_cons in Hev as [->|Hev]; [done|].
      destruct (IH (dist e)) as (E1 & ev' & E2 & -> & Hb); [lia|eauto|].
      exists (e :: E1), ev', E2. split; [done|]. exact Hb.
Qed.

Lemma locate_coord cs (b : Z) (k : nat) :
  coord cs 0 <= b < coord cs (Z.of_nat k) ->
  exists i, 0 <= i < Z.of_nat k /\ coord cs i <= b < coord cs (i + 1).
Proof.
  induction k as [|k IH]; intros Hb; [change (Z.of_nat 0) with 0 in Hb; lia|].
  destruct (decide (b < coord cs (Z.of_nat k))) as [Hlt|Hge].
  - destruct IH as (i & Hi & Hc); [lia|]. exists i. split; [lia|done].
  - exists (Z.of_nat k). split; [lia|].
    replace (Z.of_nat k + 1) with (Z.of_nat (S k)) by lia. lia.
Qed.

Lemma coord_le cs i j :
  StronglySorted Z.lt cs ->
  0 <= i -> i <= j -> j < Z.of_nat (length cs) -> coord cs i <= coord cs j.
Proof.
  intros Hs Hi Hij Hj. destruct (decide (i = j)) as [->|Hne]; [lia|].
  pose proof (coord_lt cs i j Hs). lia.
Qed.

Lemma coord_elem cs i : 0 <= i < Z.of_nat (length cs) -> coord cs i ∈ cs.
Proof. intros Hi. eapply list_elem_of_lookup_2. by apply coord_lookup. Qed.

(** ** The loop decides the coverage of the cells *)

Section Covering.
Variables distanceMin distanceMax lightMin lightMax : Z.
Variable validCams : list Camera.
Hypothesis Hdist : distanceMin < distanceMax.
Hypothesis Hlight : lightMin < lightMax.
Hypothesis Hinside :
  Forall (inside distanceMin distanceMax lightMin lightMax) validCams.
Hypothesis Hsmall : lightMax - lightMin <= 2 ^ 53.

Let cs := uniqueLightValues lightMin lightMax validCams.
Let index := lightIndex cs.
Let events := js_sort dist (build_events distanceMin distanceMax validCams).
Let m := Z.of_nat (length cs) - 1.

Local Lemma cs_sorted : StronglySorted Z.lt cs.
Proof. apply uniqueLightValues_sorted. Qed.

Local Lemma cs_range v : v ∈ cs -> lightMin <= v <= lightMax.
Proof.
  unfold cs. rewrite elem_of_uniqueLightValues, elem_of_lightCoords.
  intros [->|[->|(cam & Hc & Hv)]]; [lia..|].
  rewrite Forall_forall in Hinside. specialize (Hinside cam Hc).
  unfold inside in Hinside. lia.
Qed.

Local Lemma cs_ends : 1 <= m /\ coord cs 0 = lightMin /\ coord cs m = lightMax.
Proof.
  pose proof cs_sorted as Hs.
  assert (lightMin ∈ cs) as H0
    by (unfold cs; rewrite elem_of_uniqueLightValues, elem_of_lightCoords; auto).
  assert (lightMax ∈ cs) as H1
    by (unfold cs; rewrite elem_of_uniqueLightValues, elem_of_lightCoords; auto).
  destruct (index_of_elem cs lightMin Hs H0) as (_ & Ha & Ea).
  destruct (index_of_elem cs lightMax Hs H1) as (_ & Hb & Eb).
  set (a := index_of (lightIndex cs) lightMin) in *.
  set (b := index_of (lightIndex cs) lightMax) in *.
  assert (a < b) as Hab.
  { destruct (decide (a < b)); [done|].
    pose proof (coord_le cs b a Hs). lia. }
  fold m in Ha, Hb. split; [lia|].
  pose proof (cs_range (coord cs 0) (coord_elem cs 0 ltac:(lia))).
  pose proof (cs_range (coord cs m) (coord_elem cs m ltac:(lia))).
  pose proof (coord_le cs 0 a Hs). pose proof (coord_le cs b m Hs). lia.
Qed.

Local Lemma events_sorted : sorted_by dist events.
Proof. apply js_sort_sorted. Qed.

Local Lemma event_range ev :
  ev ∈ events -> distanceMin <= dist ev <= distanceMax.
Proof.
  unfold events. rewrite js_sort_perm, elem_of_build_events.
  intros [->|[->|(cam & Hc & Hev)]]; simpl; [lia..|].
  rewrite Forall_forall in Hinside. specialize (Hinside cam Hc).
  unfold inside in Hinside.
  apply elem_of_cam_events in Hev as [->| ->]; simpl; lia.
Qed.

(** What a test reads from the tree. *)
Local Lemma test_reads prev events1 ev events2 :
  events = events1 ++ ev :: events2 -> events1 <> [] ->
  last_dist prev events1 < dist ev ->
  getCoveredLength (foldl (step index) (new_SegmentTree cs) events1) =
    Some (Fin (lit_length cs (active_upds index (last_dist prev events1) validCams)
                          0 (m - 1))).
Proof.
  intros E Hne Hlt. destruct cs_ends as (Hm & E0 & Em).
  replace (m - 1) with (Z.of_nat (length cs) - 2) by (unfold m; lia).
  eapply (getCoveredLength_lit cs _ ((events1 ≫= event_upd index) ++ [])).
  - done.
  - apply sorted_increasing, cs_sorted.
  - unfold exact_range. fold m. lia.
  - apply foldl_step_inv; [done|]. by apply new_SegmentTree_inv.
  - rewrite app_nil_r.
    pose proof events_sorted as Hs. rewrite E in Hs.
    rewrite <- (sorted_prefix prev events1 ev events2 Hs Hne Hlt) at 1.
    rewrite <- E. eapply same_net_trans; [apply same_net_perm|apply events_upd].
    + unfold events. by rewrite js_sort_perm.
    + eapply Forall_impl; [exact Hinside|]. unfold inside. simpl. lia.
  - unfold additions, active_upds. rewrite Forall_fmap. by apply Forall_true.
Qed.

Local Lemma lit_active p i :
  0 <= i < m ->
  lit (active_upds index p validCams) i <->
  exists cam, cam ∈ validCams /\ dMin cam <= p < dMax cam
              /\ lMin cam <= coord cs i /\ coord cs (i + 1) <= lMax cam.
Proof.
  intros Hi. pose proof cs_sorted as Hs.
  unfold lit, active_upds. rewrite Exists_exists.
  assert (forall cam, cam ∈ validCams ->
    (index_of index (lMin cam) <= i <= index_of index (lMax cam) - 1 <->
     lMin cam <= coord cs i /\ coord cs (i + 1) <= lMax cam)) as Hcam.
  { intros cam Hc.
    destruct (cam_lights_indexed lightMin lightMax validCams cam Hc) as [H1 H2].
    destruct (index_of_elem cs _ Hs H1) as (_ & Ha & Ea).
    destruct (index_of_elem cs _ Hs H2) as (_ & Hb & Eb).
    fold index in Ha, Ea, Hb, Eb. fold m in Ha, Hb.
    rewrite <- Ea at 2. rewrite <- Eb at 2. split.
    - intros [? ?]. split; apply coord_le; (done || unfold m in *; lia).
    - intros [? ?]. split.
      + apply (coord_le_inv cs); (done || unfold m in *; lia).
      + assert (i + 1 <= index_of index (lMax cam)); [|lia].
        apply (coord_le_inv cs); (done || unfold m in *; lia). }
  split.
  - intros (u & Hu & Hlit). apply list_elem_of_fmap in Hu as (cam & -> & Hc).
    apply list_elem_of_filter in Hc as [Hact Hc]. exists cam.
    split; [done|]. split; [exact Hact|]. by apply Hcam.
  - intros (cam & Hc & Hact & Hl). exists (cam_upd index cam). split.
    + apply list_elem_of_fmap. exists cam. split; [done|].
      by apply list_elem_of_filter.
    + by apply Hcam.
Qed.

(** A test passes exactly when every elementary interval is lit. *)
Local Lemma test_passes A :
  js_lt (Some (Fin (lit_length cs A 0 (m - 1)))) (Some (fl (lightMax - lightMin)))
  = false
  <-> forall i, 0 <= i < m -> lit A i.
Proof.
  destruct cs_ends as (Hm & E0 & Em).
  pose proof (sorted_increasing cs cs_sorted) as Hinc.
  destruct (lit_length_bound cs A 0 (m - 1) Hinc) as [Hb Hfull];
    [lia|lia|unfold m; lia|].
  replace (m - 1 + 1) with m in * by lia. rewrite E0, Em in *.
  rewrite fl_exact by lia.
  simpl. rewrite Z.ltb_ge. split.
  - intros Hle i Hi. apply Hfull; lia.
  - intros Hall. rewrite lit_length_full; [|lia|lia|unfold m; lia|].
    + replace (m - 1 + 1) with m by lia. lia.
    + intros i Hi. apply Hall. lia.
Qed.

Local Lemma sweep_valid_eq :
  sweep_valid distanceMin distanceMax lightMin lightMax validCams =
    match events with
    | [] => Throw TypeError
    | ev0 :: _ =>
        sweep distanceMin distanceMax index (fl (lightMax - lightMin))
              (new_SegmentTree cs) (dist ev0) events
    end.
Proof. apply sweep_valid_unfold. Qed.

Theorem sweep_valid_cells :
  sweep_valid distanceMin distanceMax lightMin lightMax validCams = Normal true
  <-> covers_cells distanceMin distanceMax lightMin lightMax validCams.
Proof.
  destruct cs_ends as (Hm & E0 & Em). pose proof cs_sorted as Hcs.
  pose proof events_sorted as Hs.
  assert (Forall (resolved index) events) as Hres by apply events_resolved.
  rewrite sweep_valid_eq.
  destruct events as [|ev0 rest] eqn:Eev.
  { pose proof (js_sort_perm dist (build_events distanceMin distanceMax validCams))
      as Hp. fold events in Hp.
    rewrite Eev, build_events_eq in Hp. by apply Permutation_nil_cons in Hp. }
  rewrite sweep_true_iff by done. rewrite <- Eev in *.
  assert (ev0 ∈ events) as Hev0 by (rewrite Eev; by left).
  assert (forall ev, ev ∈ events -> dist ev0 <= dist ev) as Hfirst.
  { intros ev Hev. rewrite Eev in Hev, Hs.
    apply elem_of_cons in Hev as [->|Hev]; [lia|].
    apply StronglySorted_inv in Hs as [_ Hall].
    rewrite Forall_forall in Hall. by apply Hall. }
  split.
  - (* every test passes: every cell lies in a rectangle *)
    intros Hall a b Ha Hb.
    assert (mkEvent distanceMax 0 0 0 ∈ events) as Hmax
      by (unfold events; rewrite js_sort_perm, elem_of_build_events; auto).
    assert (mkEvent distanceMin 0 0 0 ∈ events) as Hmin
      by (unfold events; rewrite js_sort_perm, elem_of_build_events; auto).
    destruct (locate_event a events (dist ev0)) as (E1 & ev & E2 & E & Hp).
    { specialize (Hfirst _ Hmin). simpl in Hfirst. lia. }
    { exists (mkEvent distanceMax 0 0 0). split; [done|]. simpl. lia. }
    assert (E1 <> []) as Hne.
    { intros ->. rewrite Eev in E. injection E as <- _. simpl in Hp. lia. }
    specialize (Hall E1 ev E2 E). unfold gap_fails in Hall.
    rewrite (test_reads (dist ev0) E1 ev E2) in Hall by (done || lia).
    assert (ev ∈ events) as Hev by (rewrite E, elem_of_app; right; by left).
    pose proof (event_range ev Hev) as Hrange.
    destruct (last_dist_elem (dist ev0) E1 Hne) as (e1 & He1 & Ep).
    assert (e1 ∈ events) as He1' by (rewrite E, elem_of_app; by left).
    pose proof (event_range e1 He1') as Hrange1.
    set (p := last_dist (dist ev0) E1) in *.
    replace (dist ev >? p) with true in Hall by lia.
    replace (Z.min (dist ev) distanceMax >? Z.max p distanceMin) with true
      in Hall by lia.
    rewrite !andb_true_l in Hall.
    pose proof (proj1 (test_passes (active_upds index p validCams)) Hall) as Hlitall.
    destruct (locate_coord cs b (Z.to_nat m)) as (i & Hi & Hci).
    { rewrite Z2Nat.id by lia. lia. }
    rewrite Z2Nat.id in Hi by lia.
    pose proof (proj1 (lit_active p i Hi) (Hlitall i Hi)) as Hlit.
    destruct Hlit as (cam & Hc & Hact & Hl1 & Hl2).
    exists cam. split; [done|]. unfold has_cell.
    assert (dist ev <= dMax cam); [|lia].
    (* the Remove event of the rectangle comes after the test *)
    assert (mkEvent (dMax cam) (-1) (lMin cam) (lMax cam) ∈ events) as Hrem.
    { unfold events. rewrite js_sort_perm, elem_of_build_events.
      right. right. exists cam. split; [done|]. apply elem_of_cam_events. auto. }
    rewrite E in Hrem, Hs. apply elem_of_app in Hrem as [Hrem|Hrem].
    + pose proof (sorted_by_app dist E1 (ev :: E2) _ e1 Hs Hrem) as Hle.
      assert (sorted_by dist E1) as Hs1 by (by apply StronglySorted_app_1_l in Hs).
      pose proof (sorted_by_last (dist ev0) E1 Hs1 Hne _ Hrem) as Hle'.
      simpl in Hle'. fold p in Hle'. lia.
    + apply elem_of_cons in Hrem as [<-|Hrem]; [simpl; lia|].
      apply StronglySorted_app_1_r in Hs. apply StronglySorted_inv in Hs as [_ Hall'].
      rewrite Forall_forall in Hall'. specialize (Hall' _ Hrem). simpl in Hall'. lia.
  - (* every cell lies in a rectangle: every test passes *)
    intros Hcells E1 ev E2 E. unfold gap_fails.
    destruct (dist ev >? last_dist (dist ev0) E1) eqn:Hgap; [|done].
    apply Z.gtb_lt in Hgap.
    assert (E1 <> []) as Hne.
    { intros ->. rewrite Eev in E. injection E as <- _. simpl in Hgap. lia. }
    rewrite (test_reads (dist ev0) E1 ev E2) by done.
    destruct (last_dist_elem (dist ev0) E1 Hne) as (e1 & He1 & Ep).
    assert (e1 ∈ events) as He1' by (rewrite E, elem_of_app; by left).
    pose proof (event_range e1 He1') as Hrange1.
    assert (ev ∈ events) as Hev by (rewrite E, elem_of_app; right; by left).
    pose proof (event_range ev Hev) as Hrange.
    set (p := last_dist (dist ev0) E1) in *.
    rewrite andb_true_l.
    replace (js_lt _ _) with false; [by rewrite andb_false_r|].
    symmetry. apply test_passes. intros i Hi. apply lit_active; [done|].
    destruct (Hcells p (coord cs i)) as (cam & Hc & Hcell).
    { lia. }
    { pose proof (coord_le cs 0 i Hcs). pose proof (coord_lt cs i m Hcs).
      unfold m in *. lia. }
    exists cam. split; [done|]. unfold has_cell in Hcell.
    split; [lia|]. split; [lia|].
    (* the upper light bound is a coordinate above [coord cs i] *)
    destruct (cam_lights_indexed lightMin lightMax validCams cam Hc) as [_ H2].
    destruct (index_of_elem cs _ Hcs H2) as (_ & Hb & Eb).
    rewrite <- Eb. apply coord_le; try done; try lia.
    destruct (decide (i + 1 <= index_of (lightIndex cs) (lMax cam))); [done|].
    pose proof (coord_le cs (index_of (lightIndex cs) (lMax cam)) i Hcs). lia.
Qed.
End Covering.

(** ** Points of the plane and unit cells *)

Lemma IZR_le_half (a b : Z) : (IZR a <= IZR b + / 2)%R -> a <= b.
Proof.
  intros H. assert (a < b + 1); [|lia]. apply lt_IZR. rewrite plus_IZR. lra.
Qed.

Lemma IZR_half_le (a b : Z) : (IZR a + / 2 <= IZR b)%R -> a + 1 <= b.
Proof.
  intros H. assert (a < b); [|lia]. apply lt_IZR. lra.
Qed.

(** The integer part of a real number, cut off at [hi - 1]. *)
Lemma cell_of (lo hi : Z) (x : R) :
  lo < hi -> (IZR lo <= x <= IZR hi)%R ->
  exists a : Z, lo <= a < hi /\ (IZR a <= x <= IZR (a + 1))%R.
Proof.
  intros Hlh Hx. destruct (archimed x) as [Hup1 Hup2].
  set (a0 := (up x - 1)%Z).
  assert (IZR a0 <= x)%R as Ha0 by (unfold a0; rewrite minus_IZR; lra).
  assert (x < IZR (a0 + 1))%R as Ha1
    by (unfold a0; replace (up x - 1 + 1) with (up x) by lia; lra).
  assert (lo <= a0) as Hlo.
  { assert (lo < a0 + 1); [|lia]. apply lt_IZR. lra. }
  destruct (decide (a0 < hi)) as [Hlt|Hge].
  - exists a0. split; [lia|]. lra.
  - exists (hi - 1). split; [lia|]. replace (hi - 1 + 1) with hi by lia.
    split; [|lra]. assert (IZR (hi - 1) <= IZR a0)%R; [|lra]. apply IZR_le. lia.
Qed.

Lemma has_cell_in_camera a b cam x y :
  has_cell a b cam ->
  (IZR a <= x <= IZR (a + 1))%R -> (IZR b <= y <= IZR (b + 1))%R ->
  in_camera cam x y.
Proof.
  intros (H1 & H2 & H3 & H4) Hx Hy. unfold in_camera.
  apply IZR_le in H1, H2, H3, H4. lra.
Qed.

Lemma in_camera_has_cell a b cam :
  in_camera cam (IZR a + / 2) (IZR b + / 2) -> has_cell a b cam.
Proof.
  intros [[H1 H2] [H3 H4]]. unfold has_cell.
  apply IZR_le_half in H1, H3. apply IZR_half_le in H2, H4. lia.
Qed.

Lemma covers_target_cells distanceMin distanceMax lightMin lightMax cameras :
  distanceMin < distanceMax -> lightMin < lightMax ->
  covers_target distanceMin distanceMax lightMin lightMax cameras
  <-> covers_cells distanceMin distanceMax lightMin lightMax cameras.
Proof.
  intros Hd Hl. split.
  - intros H a b Ha Hb.
    destruct (H (IZR a + / 2)%R (IZR b + / 2)%R) as (cam & Hc & Hin).
    + assert (IZR distanceMin <= IZR a)%R by (apply IZR_le; lia).
      assert (IZR (a + 1) <= IZR distanceMax)%R by (apply IZR_le; lia).
      rewrite plus_IZR in *. lra.
    + assert (IZR lightMin <= IZR b)%R by (apply IZR_le; lia).
      assert (IZR (b + 1) <= IZR lightMax)%R by (apply IZR_le; lia).
      rewrite plus_IZR in *. lra.
    + exists cam. split; [done|]. by apply in_camera_has_cell.
  - intros H x y Hx Hy.
    destruct (cell_of distanceMin distanceMax x Hd Hx) as (a & Ha & Hxa).
    destruct (cell_of lightMin lightMax y Hl Hy) as (b & Hb & Hyb).
    destruct (H a b Ha Hb) as (cam & Hc & Hcell).
    exists cam. split; [done|]. by eapply has_cell_in_camera.
Qed.

(** ** Clamping keeps the cells of the target *)

Section Clamp.
Variables distanceMin distanceMax lightMin lightMax : Z.

Abbreviation overlaps' := (overlaps distanceMin distanceMax lightMin lightMax).
Abbreviation clamp' := (clamp distanceMin distanceMax lightMin lightMax).
Abbreviation filter_clamp' :=
  (filter_clamp distanceMin distanceMax lightMin lightMax).

Lemma overlaps_true cam :
  overlaps' cam = true <->
  dMax cam >= distanceMin /\ dMin cam <= distanceMax
  /\ lMax cam >= lightMin /\ lMin cam <= lightMax.
Proof. unfold overlaps. rewrite !andb_true_iff, !Z.geb_le, !Z.leb_le. lia. Qed.

Lemma elem_of_filter_clamp cameras c :
  c ∈ filter_clamp' cameras <->
  exists cam, cam ∈ cameras /\ overlaps' cam = true /\ c = clamp' cam.
Proof.
  rewrite filter_clamp_eq, list_elem_of_fmap. split.
  - intros (cam & -> & Hc). apply list_elem_of_filter in Hc as [Ho Hc]. eauto.
  - intros (cam & Hc & Ho & ->). exists cam. split; [done|].
    by apply list_elem_of_filter.
Qed.

Lemma has_cell_clamp a b cam :
  distanceMin <= a < distanceMax -> lightMin <= b < lightMax ->
  has_cell a b (clamp' cam) <-> has_cell a b cam.
Proof. intros Ha Hb. unfold has_cell, clamp. simpl. lia. Qed.

Lemma covers_cells_filter_clamp cameras :
  covers_cells distanceMin distanceMax lightMin lightMax (filter_clamp' cameras)
  <-> covers_cells distanceMin distanceMax lightMin lightMax cameras.
Proof.
  split; intros H a b Ha Hb; destruct (H a b Ha Hb) as (c & Hc & Hcell).
  - apply elem_of_filter_clamp in Hc as (cam & Hcam & Ho & ->).
    exists cam. split; [done|]. by apply (has_cell_clamp a b).
  - exists (clamp' c). split; [|by apply has_cell_clamp].
    apply elem_of_filter_clamp. exists c. split; [done|]. split; [|done].
    apply overlaps_true. unfold has_cell in Hcell. lia.
Qed.

Lemma filter_clamp_inside cameras :
  distanceMin <= distanceMax -> lightMin <= lightMax ->
  Forall well_formed cameras ->
  Forall (inside distanceMin distanceMax lightMin lightMax) (filter_clamp' cameras).
Proof.
  intros Hd Hl Hwf. rewrite Forall_forall in *. intros c Hc.
  apply elem_of_filter_clamp in Hc as (cam & Hcam & Ho & ->).
  apply overlaps_true in Ho. specialize (Hwf cam Hcam).
  unfold well_formed in Hwf. unfold inside, clamp. simpl. lia.
Qed.
End Clamp.

(** ** Targets without area *)

Lemma set_indices_nonneg vals k m v i :
  0 <= k -> (forall w j, m !! w = Some j -> 0 <= j) ->
  set_indices vals k m !! v = Some i -> 0 <= i.
Proof.
  revert k m. induction vals as [|w vals IH]; intros k m Hk Hm; simpl.
  - apply Hm.
  - apply IH; [lia|]. intros w' j. rewrite lookup_insert.
    case_decide; [intros [= <-]; lia|apply Hm].
Qed.

Lemma index_of_nonneg vals v : 0 <= index_of (lightIndex vals) v.
Proof.
  unfold index_of, lightIndex. destruct (set_indices vals 0 ∅ !! v) as [i|] eqn:E; [|lia].
  eapply set_indices_nonneg; [| |exact E]; [lia|]. intros w j. by rewrite lookup_empty.
Qed.

(** Over a single light coordinate the tree has no node and no update
    touches it. *)
Lemma update_no_interval t uLeft uRight delta :
  n t <= 0 -> 0 <= uLeft -> update t uLeft uRight delta = t.
Proof.
  intros Hn Hu. unfold update. case_match; [done|].
  rewrite _updateRange_eq. rewrite decide_True; [done|lia].
Qed.

Lemma step_no_interval vals t ev :
  n t <= 0 -> step (lightIndex vals) t ev = t.
Proof.
  intros Hn. unfold step. case_match; [done|].
  apply update_no_interval; [done|apply index_of_nonneg].
Qed.

Lemma foldl_step_no_interval vals t events :
  n t <= 0 -> foldl (step (lightIndex vals)) t events = t.
Proof.
  intros Hn. induction events as [|ev events IH]; [done|]. simpl.
  by rewrite step_no_interval.
Qed.

(** Every [coveredLen] below a node that obeys the rule is a number that is
    not negative, when the coordinates grow. *)
Lemma rule_nonneg t idx l r :
  increasing (coords t) ->
  all_nodes (recompute_rule t) idx l r ->
  0 <= l -> r + 1 < Z.of_nat (length (coords t)) ->
  exists v, js_get (coveredLen t) idx = Some v /\ num_nonneg v.
Proof.
  intros Hinc H. induction H as [idx l H|idx l r Hlr H H1 IH1 H2 IH2]; intros Hl Hr.
  - destruct H as (c & _ & E). rewrite E.
    destruct (c >? 0).
    + rewrite !coord_nth by lia. eexists. split; [done|].
      apply fl_nonneg. pose proof (Hinc l). lia.
    + rewrite decide_True by done. by exists (Fin 0).
  - pose proof (mid_bounds l r Hlr).
    destruct H as (c & _ & E). rewrite E.
    destruct (c >? 0).
    + rewrite !coord_nth by lia. eexists. split; [done|].
      apply fl_nonneg.
      pose proof (coord_mono (coords t) l (r + 1) Hinc ltac:(lia) ltac:(lia) ltac:(lia)).
      lia.
    + rewrite decide_False by lia.
      destruct IH1 as (v1 & E1 & ?); [lia..|]. destruct IH2 as (v2 & E2 & ?); [lia..|].
      rewrite E1, E2. by apply num_add_nonneg.
Qed.

(** The covered length read by a test is never below a length that is not
    positive. *)
Lemma getCoveredLength_nonneg cs events (z : Z) :
  StronglySorted Z.lt cs -> z <= 0 ->
  js_lt (getCoveredLength (foldl (step (lightIndex cs)) (new_SegmentTree cs) events))
        (Some (fl z)) = false.
Proof.
  intros Hs Hz. destruct (decide (1 <= Z.of_nat (length cs) - 1)) as [Hn|Hn].
  - pose proof (foldl_step_inv (lightIndex cs) cs events Hn _ _
                  (new_SegmentTree_inv cs Hn)) as (Hc & Hm & Hr & _).
    destruct (rule_nonneg _ 1 0 _ ltac:(rewrite Hc; by apply sorted_increasing) Hr)
      as (v & Hv & Hpos); [lia|rewrite Hc; lia|].
    unfold getCoveredLength. rewrite Hv.
    destruct (fl_cases z) as [[_ ->]|[[? _]|[_ [->|(d & -> & Hd)]]]]; [|lia|..];
      destruct v; simpl in *; try done; lia.
  - rewrite foldl_step_no_interval by (rewrite new_SegmentTree_eq; simpl; lia).
    rewrite new_SegmentTree_eq. unfold getCoveredLength, js_get. simpl.
    rewrite js_fill_lookup, decide_False by lia. done.
Qed.

(** When the target has no extent in distance or in light, no test of the
    loop fails. *)
Lemma sweep_valid_no_area distanceMin distanceMax lightMin lightMax validCams :
  distanceMax <= distanceMin \/ lightMax <= lightMin ->
  sweep_valid distanceMin distanceMax lightMin lightMax validCams = Normal true.
Proof.
  intros Hflat. rewrite sweep_valid_unfold.
  pose proof (events_resolved distanceMin distanceMax lightMin lightMax validCams) as Hr.
  destruct (js_sort dist (build_events distanceMin distanceMax validCams))
    as [|ev0 events] eqn:E.
  - pose proof (js_sort_perm dist (build_events distanceMin distanceMax validCams)) as Hp.
    rewrite E, build_events_eq in Hp. by apply Permutation_nil_cons in Hp.
  - apply sweep_true_iff; [done|]. intros E1 ev E2 _. unfold gap_fails.
    destruct Hflat as [Hd|Hl].
    + replace (Z.min (dist ev) distanceMax >? Z.max _ distanceMin) with false by lia.
      by rewrite andb_false_r.
    + rewrite getCoveredLength_nonneg; [by rewrite andb_false_r| |lia].
      apply uniqueLightValues_sorted.
Qed.

(** ** The result for each kind of target *)

Lemma canCoverAll_eq distanceMin distanceMax lightMin lightMax cameras :
  canCoverAll distanceMin distanceMax lightMin lightMax cameras =
    if (distanceMin =? distanceMax) && (lightMin =? lightMax) then Normal true
    else match filter_clamp distanceMin distanceMax lightMin lightMax cameras with
         | [] => Normal false
         | validCams =>
             sweep_valid distanceMin distanceMax lightMin lightMax validCams
         end.
Proof.
  unfold canCoverAll. case_match; [done|].
  destruct cameras as [|cam cameras]; [done|]. simpl length. simpl Nat.eqb.
  by destruct (filter_clamp _ _ _ _ _).
Qed.

Lemma filter_clamp_nil distanceMin distanceMax lightMin lightMax cameras :
  filter_clamp distanceMin distanceMax lightMin lightMax cameras = [] <->
  Forall (fun cam => overlaps distanceMin distanceMax lightMin lightMax cam = false)
         cameras.
Proof.
  rewrite Forall_forall. split.
  - intros E cam Hc.
    destruct (overlaps distanceMin distanceMax lightMin lightMax cam) eqn:Ho; [|done].
    assert (clamp distanceMin distanceMax lightMin lightMax cam
              ∈ filter_clamp distanceMin distanceMax lightMin lightMax cameras) as Hin
      by (apply elem_of_filter_clamp; eauto).
    rewrite E in Hin. by apply elem_of_nil in Hin.
  - intros H.
    destruct (filter_clamp distanceMin distanceMax lightMin lightMax cameras)
      as [|c l] eqn:E; [done|].
    assert (c ∈ filter_clamp distanceMin distanceMax lightMin lightMax cameras) as Hin
      by (rewrite E; by left).
    apply elem_of_filter_clamp in Hin as (cam & Hc & Ho & _).
    rewrite (H cam Hc) in Ho. done.
Qed.

(** A target without area that is not a single point is reported covered
    exactly when some rectangle passes the overlap test. *)
Lemma canCoverAll_no_area distanceMin distanceMax lightMin lightMax cameras :
  ~ (distanceMin = distanceMax /\ lightMin = lightMax) ->
  distanceMax <= distanceMin \/ lightMax <= lightMin ->
  canCoverAll distanceMin distanceMax lightMin lightMax cameras = Normal true
  <-> exists cam, cam ∈ cameras
        /\ overlaps distanceMin distanceMax lightMin lightMax cam = true.
Proof.
  intros Hpt Hflat. rewrite canCoverAll_eq.
  replace ((distanceMin =? distanceMax) && (lightMin =? lightMax)) with false by lia.
  destruct (filter_clamp distanceMin distanceMax lightMin lightMax cameras)
    as [|c l] eqn:E.
  - split; [done|]. intros (cam & Hc & Ho).
    apply filter_clamp_nil in E. rewrite Forall_forall in E.
    rewrite (E cam Hc) in Ho. done.
  - rewrite sweep_valid_no_area by done. split; [|done]. intros _.
    assert (c ∈ filter_clamp distanceMin distanceMax lightMin lightMax cameras) as Hin
      by (rewrite E; by left).
    apply elem_of_filter_clamp in Hin as (cam & Hc & Ho & _). eauto.
Qed.

(** A target with area, of at most 2^53 units in light, is reported covered
    exactly when the rectangles contain its unit cells. *)
Lemma canCoverAll_cells distanceMin distanceMax lightMin lightMax cameras :
  distanceMin < distanceMax -> lightMin < lightMax ->
  Forall well_formed cameras ->
  lightMax - lightMin <= 2 ^ 53 ->
  canCoverAll distanceMin distanceMax lightMin lightMax cameras = Normal true
  <-> covers_cells distanceMin distanceMax lightMin lightMax cameras.
Proof.
  intros Hd Hl Hwf Hsmall. rewrite canCoverAll_eq.
  replace ((distanceMin =? distanceMax) && (lightMin =? lightMax)) with false by lia.
  rewrite <- covers_cells_filter_clamp.
  pose proof (filter_clamp_inside distanceMin distanceMax lightMin lightMax cameras
                ltac:(lia) ltac:(lia) Hwf) as Hin.
  destruct (filter_clamp distanceMin distanceMax lightMin lightMax cameras)
    as [|c l] eqn:E.
  - split; [done|]. intros H.
    destruct (H distanceMin lightMin) as (cam & Hc & _); [lia..|].
    by apply elem_of_nil in Hc.
  - by apply sweep_valid_cells.
Qed.

(** ** The order of the rectangles *)

Lemma lightCoords_perm lightMin lightMax vc vc' :
  vc ≡ₚ vc' -> lightCoords lightMin lightMax vc = lightCoords lightMin lightMax vc'.
Proof.
  intros Hp. apply leibniz_equiv, set_equiv. intros x.
  rewrite !elem_of_lightCoords.
  by setoid_rewrite Hp.
Qed.

Lemma build_events_perm distanceMin distanceMax vc vc' :
  vc ≡ₚ vc' ->
  build_events distanceMin distanceMax vc ≡ₚ build_events distanceMin distanceMax vc'.
Proof. intros Hp. rewrite !build_events_eq. by rewrite Hp. Qed.

Lemma filter_clamp_perm distanceMin distanceMax lightMin lightMax L L' :
  L ≡ₚ L' ->
  filter_clamp distanceMin distanceMax lightMin lightMax L
  ≡ₚ filter_clamp distanceMin distanceMax lightMin lightMax L'.
Proof. intros Hp. rewrite !filter_clamp_eq. by rewrite Hp. Qed.

(** A sorted array splits into the events at most [p] away and the rest. *)
Lemma sorted_split (p : Z) events :
  sorted_by dist events ->
  exists events1 events2,
    events = events1 ++ events2
    /\ (forall e, e ∈ events1 -> dist e <= p)
    /\ (forall e, e ∈ events2 -> p < dist e).
Proof.
  unfold sorted_by. induction 1 as [|e events Hs IH He].
  - exists [], []. split; [done|]. split; intros e He; by apply elem_of_nil in He.
  - destruct (decide (dist e <= p)) as [Hle|Hgt].
    + destruct IH as (E1 & E2 & -> & H1 & H2). exists (e :: E1), E2.
      split; [done|]. split; [|done].
      intros e' He'. apply elem_of_cons in He' as [->|He']; auto.
    + exists [], (e :: events). split; [done|].
      split; [intros e' He'; by apply elem_of_nil in He'|].
      rewrite Forall_forall in He.
      intros e' He'. apply elem_of_cons in He' as [->|He']; [lia|].
      specialize (He e' He'). simpl in He. lia.
Qed.

(** The covered length read by a test depends on the events made before it
    as a multiset, not on their order. *)
Lemma reads_determined cs events1 events1' :
  events1 ≡ₚ events1' ->
  getCoveredLength (foldl (step (lightIndex cs)) (new_SegmentTree cs) events1)
  = getCoveredLength (foldl (step (lightIndex cs)) (new_SegmentTree cs) events1').
Proof.
  intros Hp. destruct (decide (1 <= Z.of_nat (length cs) - 1)) as [Hn|Hn].
  - pose proof (foldl_step_inv (lightIndex cs) cs events1 Hn _ _
                  (new_SegmentTree_inv cs Hn)) as H1.
    pose proof (foldl_step_inv (lightIndex cs) cs events1' Hn _ _
                  (new_SegmentTree_inv cs Hn)) as H2.
    eapply tree_inv_same_net in H2;
      [|apply same_net_perm; rewrite <- Hp; reflexivity].
    destruct H1 as (Hc1 & Hm1 & Hr1 & Hk1), H2 as (Hc2 & Hm2 & Hr2 & Hk2).
    rewrite Hm1 in Hr1, Hk1. rewrite Hm2 in Hr2, Hk2.
    unfold getCoveredLength. symmetry.
    apply (coveredLen_determined _ _ _ 1 0 _ (eq_trans Hc2 (eq_sym Hc1)) Hr1 Hk1 Hr2 Hk2).
  - by rewrite !foldl_step_no_interval by (rewrite new_SegmentTree_eq; simpl; lia).
Qed.


(** Two sorted arrays with the same events make the same tests. *)
Lemma sweep_perm distanceMin distanceMax cs totalLen events events' prev prev' :
  sorted_by dist events -> sorted_by dist events' -> events ≡ₚ events' ->
  Forall (resolved (lightIndex cs)) events ->
  (forall ev rest, events' = ev :: rest -> prev' = dist ev) ->
  sweep distanceMin distanceMax (lightIndex cs) totalLen
        (new_SegmentTree cs) prev events = Normal true ->
  sweep distanceMin distanceMax (lightIndex cs) totalLen
        (new_SegmentTree cs) prev' events' = Normal true.
Proof.
  intros Hs Hs' Hp Hres Hprev' H.
  assert (Forall (resolved (lightIndex cs)) events') as Hres' by (by rewrite <- Hp).
  rewrite sweep_true_iff in H by done. apply sweep_true_iff; [done|].
  intros E1' ev' E2' HE'. unfold gap_fails.
  destruct (dist ev' >? last_dist prev' E1') eqn:G; [|done]. apply Z.gtb_lt in G.
  assert (E1' <> []) as Hne'.
  { intros ->. simpl in *. specialize (Hprev' _ _ HE'). lia. }
  destruct (sorted_split (last_dist prev' E1') events Hs) as (E1 & E2 & HE & Hle & Hgt).
  assert (E1 ≡ₚ E1') as Hp1.
  { rewrite HE' in Hs'.
    rewrite <- (sorted_prefix prev' E1' ev' E2' Hs' Hne' G), <- HE', <- Hp.
    rewrite HE, filter_app, filter_all, filter_none by (done || (intros; apply Hgt in H0; lia)).
    by rewrite app_nil_r. }
  assert (E2 ≡ₚ ev' :: E2') as Hp2.
  { apply (Permutation_app_inv_l E1'). rewrite <- Hp1 at 1. by rewrite <- HE, <- HE'. }
  destruct E2 as [|ev E2r]; [by apply Permutation_nil_cons in Hp2|].
  assert (dist ev = dist ev') as Hd.
  { rewrite HE in Hs. rewrite HE' in Hs'.
    apply StronglySorted_app_1_r, StronglySorted_inv in Hs as [_ Hall].
    apply StronglySorted_app_1_r, StronglySorted_inv in Hs' as [_ Hall'].
    rewrite Forall_forall in Hall, Hall'.
    assert (ev' ∈ ev :: E2r) as Hin' by (rewrite Hp2; by left).
    assert (ev ∈ ev' :: E2') as Hin by (rewrite <- Hp2; by left).
    apply elem_of_cons in Hin as [?|Hin], Hin' as [?|Hin']; try congruence.
    specialize (Hall _ Hin'). specialize (Hall' _ Hin). simpl in *. lia. }
  assert (E1 <> []) as Hne.
  { intros ->. by apply Permutation_nil in Hp1. }
  assert (last_dist prev E1 = last_dist prev' E1') as Hlast.
  { destruct (last_dist_elem prev E1 Hne) as (e1 & He1 & Ep).
    destruct (last_dist_elem prev' E1' Hne') as (e1' & He1' & Ep').
    rewrite <- Hp1 in He1'.
    assert (sorted_by dist E1) as Hs1
      by (rewrite HE in Hs; by apply StronglySorted_app_1_l in Hs).
    pose proof (sorted_by_last prev E1 Hs1 Hne _ He1').
    specialize (Hle _ He1). lia. }
  specialize (H E1 ev E2r HE). unfold gap_fails in H.
  rewrite (reads_determined cs E1 E1' Hp1), Hlast, Hd in H.
  replace (dist ev' >? last_dist prev' E1') with true in H by lia.
  exact H.
Qed.

Lemma sweep_valid_perm distanceMin distanceMax lightMin lightMax vc vc' :
  vc ≡ₚ vc' ->
  sweep_valid distanceMin distanceMax lightMin lightMax vc
  = sweep_valid distanceMin distanceMax lightMin lightMax vc'.
Proof.
  assert (forall vc vc', vc ≡ₚ vc' ->
    sweep_valid distanceMin distanceMax lightMin lightMax vc = Normal true ->
    sweep_valid distanceMin distanceMax lightMin lightMax vc' = Normal true) as Hone.
  { clear vc vc'. intros vc vc' Hp. rewrite !sweep_valid_unfold.
    unfold uniqueLightValues. rewrite <- (lightCoords_perm lightMin lightMax vc vc' Hp).
    pose proof (events_resolved distanceMin distanceMax lightMin lightMax vc) as Hres.
    unfold uniqueLightValues in Hres.
    pose proof (js_sort_sorted dist (build_events distanceMin distanceMax vc)) as Hs.
    pose proof (js_sort_sorted dist (build_events distanceMin distanceMax vc')) as Hs'.
    assert (js_sort dist (build_events distanceMin distanceMax vc)
              ≡ₚ js_sort dist (build_events distanceMin distanceMax vc')) as HpE
      by (rewrite !js_sort_perm; by apply build_events_perm).
    destruct (js_sort dist (build_events distanceMin distanceMax vc))
      as [|ev0 rest] eqn:E; [done|].
    destruct (js_sort dist (build_events distanceMin distanceMax vc'))
      as [|ev0' rest'] eqn:E';
      [symmetry in HpE; by apply Permutation_nil_cons in HpE|].
    apply sweep_perm; try done. by intros ev r [= -> _]. }
  intros Hp.
  destruct (sweep_valid_normal distanceMin distanceMax lightMin lightMax vc) as [b Hb].
  destruct (sweep_valid_normal distanceMin distanceMax lightMin lightMax vc') as [b' Hb'].
  rewrite Hb, Hb'. destruct b, b'; try done.
  - rewrite (Hone vc vc' Hp Hb) in Hb'. done.
  - symmetry in Hp. rewrite (Hone vc' vc Hp Hb') in Hb. done.
Qed.


(** ** The counters and lengths under open envelopes *)

Lemma lengths_of_counts t idx l r :
  increasing (coords t) ->
  all_nodes (recompute_rule t) idx l r ->
  forall B,
    additions B -> counts t B idx l r ->
    0 <= l -> r + 1 < Z.of_nat (length (coords t)) ->
    coord (coords t) (r + 1) - coord (coords t) l <= 2 ^ 53 ->
    lengths t B idx l r.
Proof.
  intros Hinc H. pose proof H as Hall.
  induction H as [idx l H|idx l r Hlr H H1 IH1 H2 IH2]; intros B HB C Hl Hr Hsmall.
  - apply lengths_leaf. by apply coveredLen_lit.
  - pose proof (mid_bounds l r Hlr).
    pose proof (coord_mono (coords t) l ((l + r) / 2 + 1) Hinc
                  ltac:(lia) ltac:(lia) ltac:(lia)).
    pose proof (coord_mono (coords t) ((l + r) / 2 + 1) (r + 1) Hinc
                  ltac:(lia) ltac:(lia) ltac:(lia)).
    apply lengths_inner; [done|by apply coveredLen_lit|..];
      apply counts_inner_inv in C as (_ & C1 & C2); try done.
    + apply IH1; try done; [by apply additions_filter|lia..].
    + apply IH2; try done; [by apply additions_filter|lia..].
Qed.

(** ** Stability keeps every Add event before its Remove event *)

Section Balanced.
Variable index : gmap Z Z.

Lemma sort_insert_split {A} (key : A -> Z) x l :
  exists l1 l2, l = l1 ++ l2 /\ sort_insert key x l = l1 ++ x :: l2.
Proof.
  induction l as [|y l IH]; simpl.
  - by exists [], [].
  - case_match.
    + by exists [], (y :: l).
    + destruct IH as (l1 & l2 & -> & ->). by exists (y :: l1), l2.
Qed.

Lemma sort_insert_before {A} (key : A -> Z) x y l1 l2 :
  key x <= key y ->
  exists l1a l1b,
    l1 = l1a ++ l1b
    /\ sort_insert key x (l1 ++ y :: l2) = l1a ++ x :: l1b ++ y :: l2.
Proof.
  intros Hxy. induction l1 as [|z l1 IH]; simpl.
  - exists [], []. split; [done|]. by rewrite (proj2 (Z.leb_le _ _) Hxy).
  - case_match.
    + by exists [], (z :: l1).
    + destruct IH as (l1a & l1b & -> & ->). by exists (z :: l1a), l1b.
Qed.

Lemma split_at_elem {A} (Y Y2 L1 L2 : list A) (x : A) :
  L1 ++ x :: L2 = Y ++ Y2 ->
  (exists Y', L1 = Y ++ Y')
  \/ (exists Y', Y = L1 ++ x :: Y' /\ L2 = Y' ++ Y2).
Proof.
  revert Y. induction L1 as [|z L1 IH]; intros Y E; simpl in E.
  - destruct Y as [|y Y]; simpl in E.
    + left. by exists [].
    + injection E as <- ->. right. by exists Y.
  - destruct Y as [|y Y]; simpl in E.
    + left. by exists (z :: L1).
    + injection E as <- E. destruct (IH _ E) as [(Y' & ->)|(Y' & -> & ->)].
      * left. by exists Y'.
      * right. by exists Y'.
Qed.

Lemma weigh_bind_insert f (L1 L2 : list Event) x :
  weigh f ((L1 ++ x :: L2) ≫= event_upd index)
  = weigh f ((L1 ++ L2) ≫= event_upd index) + weigh f (event_upd index x).
Proof. rewrite !bind_app, bind_cons, !weigh_app. lia. Qed.

Lemma balanced_insert_boundary events b :
  type b = 0 -> balanced index events -> balanced index (sort_insert dist b events).
Proof.
  intros Hb Hbal Y Y2 E f.
  destruct (sort_insert_split dist b events) as (L1 & L2 & HL & Hins).
  rewrite Hins in E.
  destruct (split_at_elem _ _ _ _ _ E) as [(Y' & ->)|(Y' & -> & ->)].
  - apply (Hbal Y (Y' ++ L2)). by rewrite HL, <- app_assoc.
  - rewrite weigh_bind_insert. unfold event_upd at 2. rewrite Hb. simpl.
    rewrite Z.add_0_r. apply (Hbal (L1 ++ Y') Y2). by rewrite HL, <- app_assoc.
Qed.

Lemma balanced_insert_pair events a r lo hi :
  dist a <= dist r ->
  event_upd index a = [mkUpd lo hi 1] -> event_upd index r = [mkUpd lo hi (-1)] ->
  balanced index events ->
  balanced index (sort_insert dist a (sort_insert dist r events)).
Proof.
  intros Har Ha Hr Hbal Y Y2 E f.
  destruct (sort_insert_split dist r events) as (L1 & L2 & HL & Hins).
  rewrite Hins in E.
  destruct (sort_insert_before dist a r L1 L2 Har) as (L1a & L1b & HL1 & Hins').
  rewrite Hins' in E.
  destruct (split_at_elem _ _ _ _ _ E) as [(Y' & ->)|(Y' & -> & E')].
  - apply (Hbal Y (Y' ++ L1b ++ L2)). by rewrite HL, HL1, <- !app_assoc.
  - rewrite weigh_bind_insert, Ha.
    destruct (split_at_elem _ _ _ _ _ E') as [(Y'' & ->)|(Y'' & -> & ->)].
    + pose proof (Hbal (L1a ++ Y') (Y'' ++ L2)
                    ltac:(by rewrite HL, HL1, <- !app_assoc) f).
      simpl. destruct (f lo hi); lia.
    + rewrite app_assoc, weigh_bind_insert, Hr, <- app_assoc.
      pose proof (Hbal (L1a ++ L1b ++ Y'') Y2
                    ltac:(by rewrite HL, HL1, <- !app_assoc) f).
      simpl. destruct (f lo hi); lia.
Qed.

Lemma balanced_nil : balanced index [].
Proof.
  intros Y Y2 E f. symmetry in E. apply app_eq_nil in E as [-> _]. done.
Qed.

Lemma balanced_events distanceMin distanceMax validCams :
  Forall (fun cam => dMin cam <= dMax cam) validCams ->
  balanced index (js_sort dist (build_events distanceMin distanceMax validCams)).
Proof.
  intros Hwf. rewrite build_events_eq. simpl.
  do 2 (apply balanced_insert_boundary; [done|]).
  induction Hwf as [|cam validCams Hcam Hwf IH]; [apply balanced_nil|].
  simpl. eapply balanced_insert_pair; [exact Hcam|done..].
Qed.
End Balanced.


(** ** The open envelopes account for the updates made so far *)

Lemma remove_range_spec lo hi B :
  additions B ->
  0 < weigh (fun a b => (a =? lo) && (b =? hi)) B ->
  additions (remove_range lo hi B)
  /\ forall f, weigh f (remove_range lo hi B)
               = weigh f B - (if f lo hi then 1 else 0).
Proof.
  intros HB. induction HB as [|u B Hu HB IH]; simpl; [lia|].
  destruct ((u_lo u =? lo) && (u_hi u =? hi)) eqn:E; intros Hpos.
  - split; [done|]. intros f.
    apply andb_true_iff in E as [->%Z.eqb_eq ->%Z.eqb_eq]. rewrite Hu. lia.
  - destruct IH as [IH1 IH2]; [lia|]. split; [by constructor|].
    intros f. simpl. rewrite IH2. lia.
Qed.

Lemma open_envelopes_snoc index events ev :
  open_envelopes index (events ++ [ev])
  = open_step index (open_envelopes index events) ev.
Proof. unfold open_envelopes. by rewrite foldl_app. Qed.

Lemma open_envelopes_spec index events :
  balanced index events ->
  forall events1 events2, events = events1 ++ events2 ->
    additions (open_envelopes index events1)
    /\ same_net (events1 ≫= event_upd index) (open_envelopes index events1).
Proof.
  intros Hbal events1.
  induction events1 as [|ev events1 IH] using rev_ind; intros events2 E.
  - split; [constructor|apply same_net_refl].
  - destruct (IH (ev :: events2)) as [HB Hnet]; [by rewrite E, <- app_assoc|].
    assert (forall e : Event, [e] ≫= event_upd index = event_upd index e) as Hone
      by (intros e; simpl; apply app_nil_r).
    rewrite open_envelopes_snoc, bind_app, Hone.
    pose proof (Hbal _ _ E) as Hpre.
    rewrite bind_app, Hone in Hpre.
    unfold open_step, event_upd in *. destruct (type ev =? 0).
    + rewrite app_nil_r. done.
    + cbv zeta. destruct (type ev >? 0).
      * split; [by constructor|]. intros f. rewrite weigh_app, Hnet. simpl. lia.
      * set (lo := index_of index (ev_lMin ev)) in *.
        set (hi := index_of index (ev_lMax ev) - 1) in *.
        destruct (remove_range_spec lo hi _ HB) as [HB' Hrem].
        { specialize (Hpre (fun a b => (a =? lo) && (b =? hi))).
          rewrite weigh_app, Hnet in Hpre. simpl in Hpre.
          rewrite !Z.eqb_refl in Hpre. simpl in Hpre. lia. }
        split; [done|]. intros f. rewrite weigh_app, Hnet, Hrem. simpl.
        destruct (f lo hi); lia.
Qed.


(** * The properties of the specification *)


(** Beyond that extent the lengths are rounded: over the light range from -1
    to 2^53 the required length is rounded to 2^53, and two rectangles that
    leave the light range from 0 to 1 uncovered are reported to cover the
    target. *)
Lemma canCoverAll_rounds :
  canCoverAll 0 10 (-1) (2 ^ 53)
    [mkCamera 0 10 (-1) 0; mkCamera 0 10 1 (2 ^ 53)] = Normal true.
Proof. vm_compute. reflexivity. Qed.

Lemma cameras_well_formed : Forall well_formed cameras.
Proof. unfold cameras, well_formed. repeat constructor; simpl; lia. Qed.



(** C2 (as amended).  [canCoverAll] validates nothing: for every target and
    every list of rectangles, ill-formed ones included, no exception escapes
    and the call returns a boolean; and every rectangle that passes the
    overlap test, well-formed or not, is clamped like any other and has its
    Add event and its Remove event among the sorted events of the sweep. *)
Theorem canCoverAll_never_raises distanceMin distanceMax lightMin lightMax cameras :
  (exists b, canCoverAll distanceMin distanceMax lightMin lightMax cameras = Normal b)
  /\ forall cam,
       cam ∈ cameras ->
       overlaps distanceMin distanceMax lightMin lightMax cam = true ->
       clamp distanceMin distanceMax lightMin lightMax cam
         ∈ filter_clamp distanceMin distanceMax lightMin lightMax cameras
       /\ mkEvent (dMin (clamp distanceMin distanceMax lightMin lightMax cam)) 1
                  (lMin (clamp distanceMin distanceMax lightMin lightMax cam))
                  (lMax (clamp distanceMin distanceMax lightMin lightMax cam))
            ∈ query_events distanceMin distanceMax lightMin lightMax cameras
       /\ mkEvent (dMax (clamp distanceMin distanceMax lightMin lightMax cam)) (-1)
                  (lMin (clamp distanceMin distanceMax lightMin lightMax cam))
                  (lMax (clamp distanceMin distanceMax lightMin lightMax cam))
            ∈ query_events distanceMin distanceMax lightMin lightMax cameras.
Proof.
  split; [apply canCoverAll_normal|]. intros cam Hc Ho.
  assert (clamp distanceMin distanceMax lightMin lightMax cam
            ∈ filter_clamp distanceMin distanceMax lightMin lightMax cameras) as Hin
    by (apply elem_of_filter_clamp; eauto).
  split; [done|]. unfold query_events.
  rewrite !js_sort_perm, !elem_of_build_events.
  split; right; right; eexists; (split; [exact Hin|]);
    apply elem_of_cam_events; auto.
Qed.

(** C2, as stated, fails: a rectangle with [dMin > dMax] and a target with
    [distanceMin > distanceMax] are both answered with a boolean. *)
Lemma canCoverAll_raises_counterexample :
  dMin (mkCamera 5 3 0 10) > dMax (mkCamera 5 3 0 10)
  /\ ~ raises (canCoverAll 0 10 0 10 [mkCamera 5 3 0 10])
  /\ 10 > 0
  /\ ~ raises (canCoverAll 10 0 0 10 [mkCamera 0 10 0 10]).
Proof.
  split; [simpl; lia|]. split; [|split; [lia|]].
  - replace (canCoverAll 0 10 0 10 [mkCamera 5 3 0 10]) with (Normal false)
      by (vm_compute; reflexivity).
    intros [e He]. discriminate He.
  - replace (canCoverAll 10 0 0 10 [mkCamera 0 10 0 10]) with (Normal true)
      by (vm_compute; reflexivity).
    intros [e He]. discriminate He.
Qed.

(** C3.  For every rectangle list and all [x], [y], the call
    [canCoverAll x x y y] returns [true]: the first test of the function
    answers before any other step. *)
Theorem canCoverAll_point_target (x y : Z) (cameras : list Camera) :
  canCoverAll x x y y cameras = Normal true.
Proof. unfold canCoverAll. by rewrite !Z.eqb_refl. Qed.

(** C4.  For a target with [d0 < d1] or [l0 < l1], the call with no
    rectangle returns [false], and so does every call in which no rectangle
    passes the overlap test. *)
Theorem canCoverAll_nothing_valid (d0 d1 l0 l1 : Z) :
  d0 < d1 \/ l0 < l1 ->
  canCoverAll d0 d1 l0 l1 [] = Normal false
  /\ forall cameras,
       Forall (fun cam => overlaps d0 d1 l0 l1 cam = false) cameras ->
       canCoverAll d0 d1 l0 l1 cameras = Normal false.
Proof.
  intros Hnd.
  assert ((d0 =? d1) && (l0 =? l1) = false) as Hguard by lia.
  split.
  - unfold canCoverAll. by rewrite Hguard.
  - intros cameras Hall. rewrite canCoverAll_eq, Hguard.
    apply filter_clamp_nil in Hall. by rewrite Hall.
Qed.

Lemma canCoverAll_nothing_valid_witness :
  (0 < 10 \/ 0 < 10)
  /\ canCoverAll 0 10 0 10 [] = Normal false
  /\ forall cameras,
       Forall (fun cam => overlaps 0 10 0 10 cam = false) cameras ->
       canCoverAll 0 10 0 10 cameras = Normal false.
Proof.
  split; [left; lia|]. apply canCoverAll_nothing_valid. left. lia.
Defined.




(** C7.  The filter step keeps a rectangle exactly when
    [dMax >= distanceMin], [dMin <= distanceMax], [lMax >= lightMin] and
    [lMin <= lightMax]; every kept rectangle is replaced by its clamp
    [max(dMin, distanceMin)], [min(dMax, distanceMax)], [max(lMin, lightMin)],
    [min(lMax, lightMax)]; and the dropped rectangles do not influence the
    result. *)
Theorem filter_clamp_spec distanceMin distanceMax lightMin lightMax cameras :
  filter_clamp distanceMin distanceMax lightMin lightMax cameras
    = spec_filter_clip distanceMin distanceMax lightMin lightMax cameras
  /\ canCoverAll distanceMin distanceMax lightMin lightMax cameras
     = canCoverAll distanceMin distanceMax lightMin lightMax
         (filter (spec_keeps distanceMin distanceMax lightMin lightMax) cameras).
Proof.
  assert (forall l,
    filter_clamp distanceMin distanceMax lightMin lightMax l
    = spec_filter_clip distanceMin distanceMax lightMin lightMax l) as Hspec.
  { intros l. rewrite filter_clamp_eq. unfold spec_filter_clip.
    induction l as [|cam l IH]; [done|].
    rewrite !filter_cons.
    destruct (decide (overlaps distanceMin distanceMax lightMin lightMax cam = true))
      as [Ho|Ho].
    - rewrite decide_True by (by apply overlaps_true in Ho).
      rewrite !fmap_cons, IH. f_equal.
      unfold clamp, spec_clip. f_equal; lia.
    - rewrite decide_False; [done|]. intros Hk. by apply overlaps_true in Hk. }
  split; [apply Hspec|].
  rewrite !canCoverAll_eq, !Hspec. unfold spec_filter_clip.
  by rewrite list_filter_filter_l.
Qed.

(** C9.  For the rectangles [{0,10,0,5}], [{0,10,5,10}], [{10,20,0,10}] and
    the target [0..20] by [0..10] the call returns [true]. *)
Theorem canCoverAll_example : canCoverAll 0 20 0 10 cameras = Normal true.
Proof. vm_compute. reflexivity. Qed.

(** C10.  For a target that is degenerate on exactly one axis, the call
    returns [true] as soon as one rectangle passes the overlap test,
    whatever the rectangles cover. *)
Theorem canCoverAll_flat_target distanceMin distanceMax lightMin lightMax cameras :
  (distanceMin = distanceMax /\ lightMin < lightMax)
  \/ (lightMin = lightMax /\ distanceMin < distanceMax) ->
  (exists cam, cam ∈ cameras
     /\ overlaps distanceMin distanceMax lightMin lightMax cam = true) ->
  canCoverAll distanceMin distanceMax lightMin lightMax cameras = Normal true.
Proof.
  intros Hflat Hcam. apply canCoverAll_no_area; [lia|lia|done].
Qed.

Lemma canCoverAll_flat_target_witness :
  ((0 = 0 /\ 0 < 10) \/ (0 = 10 /\ 0 < 0))
  /\ (exists cam, cam ∈ [mkCamera 0 0 0 1] /\ overlaps 0 0 0 10 cam = true)
  /\ canCoverAll 0 0 0 10 [mkCamera 0 0 0 1] = Normal true.
Proof.
  assert ((0 = 0 /\ 0 < 10) \/ (0 = 10 /\ 0 < 0)) as H1 by (left; lia).
  assert (exists cam, cam ∈ [mkCamera 0 0 0 1] /\ overlaps 0 0 0 10 cam = true) as H2.
  { exists (mkCamera 0 0 0 1). split; [by left|reflexivity]. }
  split; [exact H1|]. split; [exact H2|].
  exact (canCoverAll_flat_target 0 0 0 10 _ H1 H2).
Defined.

(** C6.  The order of the rectangles is irrelevant: on two lists that are
    permutations of each other, [canCoverAll] returns the same boolean, for
    every target. *)
Theorem canCoverAll_perm distanceMin distanceMax lightMin lightMax L L' :
  L ≡ₚ L' ->
  canCoverAll distanceMin distanceMax lightMin lightMax L
  = canCoverAll distanceMin distanceMax lightMin lightMax L'.
Proof.
  intros Hp. rewrite !canCoverAll_eq. case_match; [done|].
  pose proof (filter_clamp_perm distanceMin distanceMax lightMin lightMax L L' Hp) as Hv.
  destruct (filter_clamp distanceMin distanceMax lightMin lightMax L) as [|c vc];
    destruct (filter_clamp distanceMin distanceMax lightMin lightMax L') as [|c' vc'].
  - done.
  - by apply Permutation_nil_cons in Hv.
  - symmetry in Hv. by apply Permutation_nil_cons in Hv.
  - by apply sweep_valid_perm.
Qed.

Lemma canCoverAll_perm_witness :
  [mkCamera 0 10 0 5; mkCamera 10 20 0 10; mkCamera 0 10 5 10] ≡ₚ cameras
  /\ canCoverAll 0 20 0 10 [mkCamera 0 10 0 5; mkCamera 10 20 0 10; mkCamera 0 10 5 10]
     = canCoverAll 0 20 0 10 cameras.
Proof.
  assert ([mkCamera 0 10 0 5; mkCamera 10 20 0 10; mkCamera 0 10 5 10] ≡ₚ cameras)
    as Hp by (unfold cameras; apply perm_skip, perm_swap).
  split; [exact Hp|]. exact (canCoverAll_perm 0 20 0 10 _ _ Hp).
Defined.




(** * Further properties of the code *)

(** ** Where the tree writes *)

Lemma node_at_bound (m : Z) idx l r j :
  all_nodes (fun idx _ _ => 1 <= idx < 4 * m) idx l r ->
  node_at idx l r j -> 1 <= j < 4 * m.
Proof.
  intros H Hj. induction Hj as [idx l r Hlr|idx l r j Hlr Hj IH|idx l r j Hlr Hj IH].
  - by apply all_nodes_here in H.
  - apply all_nodes_inner_inv in H as (_ & H & _); auto.
  - apply all_nodes_inner_inv in H as (_ & _ & H); auto.
Qed.

Lemma all_nodes_at P idx l r j :
  all_nodes P idx l r -> node_at idx l r j -> exists l' r', P j l' r'.
Proof.
  intros H Hj. induction Hj as [idx l r Hlr|idx l r j Hlr Hj IH|idx l r j Hlr Hj IH].
  - apply all_nodes_here in H. eauto.
  - apply all_nodes_inner_inv in H as (_ & H & _); auto.
  - apply all_nodes_inner_inv in H as (_ & _ & H); auto.
Qed.

Lemma recompute_frame t idx l r j :
  j <> idx ->
  coverCount (recompute t idx l r) !! j = coverCount t !! j
  /\ coveredLen (recompute t idx l r) !! j = coveredLen t !! j.
Proof.
  intros Hj. rewrite recompute_coverCount. split; [done|].
  unfold recompute, set_coveredLen, js_set.
  repeat case_match; simpl; by rewrite lookup_insert_ne.
Qed.

(** [_updateRange] writes at positions of nodes only. *)
Lemma updateRange_frame ql qr delta l r :
  l <= r ->
  forall t idx j, ~ node_at idx l r j ->
    coverCount (_updateRange t idx l r ql qr delta) !! j = coverCount t !! j
    /\ coveredLen (_updateRange t idx l r ql qr delta) !! j = coveredLen t !! j.
Proof.
  intros Hlr. revert l r Hlr.
  apply (span_ind (fun l r => forall t idx j, ~ node_at idx l r j ->
    coverCount (_updateRange t idx l r ql qr delta) !! j = coverCount t !! j
    /\ coveredLen (_updateRange t idx l r ql qr delta) !! j = coveredLen t !! j)).
  - intros l t idx j Hj.
    assert (j <> idx) as Hne by (intros ->; apply Hj; by constructor).
    split_query ql qr l l; [done| |lia].
    destruct (recompute_frame (set_coverCount t idx
                (count_add (js_get (coverCount t) idx) delta)) idx l l j Hne)
      as [-> ->].
    simpl. unfold js_set. by rewrite lookup_insert_ne.
  - intros l r Hlr IHl IHr t idx j Hj.
    assert (j <> idx) as Hne by (intros ->; apply Hj; constructor; lia).
    split_query ql qr l r; [done|..].
    + destruct (recompute_frame (set_coverCount t idx
                  (count_add (js_get (coverCount t) idx) delta)) idx l r j Hne)
        as [-> ->].
      simpl. unfold js_set. by rewrite lookup_insert_ne.
    + set (t1 := _updateRange t (2 * idx) l ((l + r) / 2) ql qr delta).
      destruct (recompute_frame
                  (_updateRange t1 (2 * idx + 1) ((l + r) / 2 + 1) r ql qr delta)
                  idx l r j Hne) as [-> ->].
      destruct (IHr t1 (2 * idx + 1) j) as [-> ->];
        [intros H; apply Hj; by apply node_right|].
      apply IHl. intros H. apply Hj. by apply node_left.
Qed.

Lemma update_frame t uLeft uRight delta j :
  0 <= n t - 1 -> ~ node_at 1 0 (n t - 1) j ->
  coverCount (update t uLeft uRight delta) !! j = coverCount t !! j
  /\ coveredLen (update t uLeft uRight delta) !! j = coveredLen t !! j.
Proof.
  intros Hn Hj. unfold update. case_match; [done|]. by apply updateRange_frame.
Qed.

Lemma js_get_Some {A} (arr : gmap Z (option A)) j v :
  js_get arr j = Some v -> arr !! j = Some (Some v).
Proof. unfold js_get. destruct (arr !! j) as [[w|]|]; intros H; by inversion H. Qed.

Lemma js_get_lookup {A} (arr arr' : gmap Z (option A)) j :
  is_Some (arr !! j) -> is_Some (arr' !! j) ->
  js_get arr' j = js_get arr j -> arr' !! j = arr !! j.
Proof. unfold js_get. intros [v ->] [v' ->] ->. done. Qed.

(** A slot that has been written stays written. *)
Lemma recompute_assigned t idx l r j :
  is_Some (coveredLen t !! j) -> is_Some (coveredLen (recompute t idx l r) !! j).
Proof.
  intros H. unfold recompute, set_coveredLen, js_set.
  repeat case_match; simpl; destruct (decide (j = idx)) as [->|Hne];
    rewrite ?lookup_insert_eq, ?lookup_insert_ne by done; eauto.
Qed.

Lemma updateRange_assigned t idx l r ql qr delta j :
  is_Some (coveredLen t !! j) ->
  is_Some (coveredLen (_updateRange t idx l r ql qr delta) !! j).
Proof.
  remember (Z.to_nat (r - l)) as k eqn:Hk.
  revert t idx l r Hk. induction k as [k IH] using lt_wf_ind. intros t idx l r Hk H.
  rewrite _updateRange_eq. repeat case_decide; [done|..].
  - by apply recompute_assigned.
  - assert (l < r) as Hlr by lia. pose proof (mid_bounds l r Hlr).
    apply recompute_assigned.
    eapply IH; [|done|]; [lia|]. eapply IH; [|done|done]. lia.
Qed.

Lemma update_assigned t uLeft uRight delta :
  assigned t -> assigned (update t uLeft uRight delta).
Proof.
  intros H j Hj. unfold update in *. destruct (uLeft >? uRight); [by apply H|].
  rewrite updateRange_n in Hj. apply updateRange_assigned. by apply H.
Qed.

Lemma new_SegmentTree_assigned cs : assigned (new_SegmentTree cs).
Proof.
  intros j Hj. rewrite new_SegmentTree_eq in *. simpl in *.
  rewrite js_fill_lookup, decide_True by done. eauto.
Qed.

Lemma node_at_em l r :
  l <= r -> forall idx j, node_at idx l r j \/ ~ node_at idx l r j.
Proof.
  intros Hlr. revert l r Hlr.
  apply (span_ind (fun l r => forall idx j, node_at idx l r j \/ ~ node_at idx l r j)).
  - intros l idx j. destruct (decide (j = idx)) as [->|Hne].
    + left. by constructor.
    + right. intros H. inversion H; subst; lia.
  - intros l r Hlr IHl IHr idx j. destruct (decide (j = idx)) as [->|Hne].
    + left. constructor. lia.
    + destruct (IHl (2 * idx) j) as [H1|H1]; [left; by apply node_left|].
      destruct (IHr (2 * idx + 1) j) as [H2|H2]; [left; by apply node_right|].
      right. intros H. inversion H; subst; tauto.
Qed.

(** Two trees that obey the recompute rule and hold the counters of the same
    updates have the same slots at every node that has been written. *)
Lemma slots_determined t t' idx l r j :
  coords t' = coords t ->
  is_Some (coveredLen t !! j) -> is_Some (coveredLen t' !! j) ->
  node_at idx l r j ->
  forall A,
    all_nodes (recompute_rule t) idx l r -> counts t A idx l r ->
    all_nodes (recompute_rule t') idx l r -> counts t' A idx l r ->
    coverCount t' !! j = coverCount t !! j
    /\ coveredLen t' !! j = coveredLen t !! j.
Proof.
  intros Hcs Hs Hs' Hj.
  induction Hj as [idx l r Hlr|idx l r j Hlr Hj IH|idx l r j Hlr Hj IH];
    intros A R C R' C'.
  - pose proof (coveredLen_determined t t' A idx l r Hcs R C R' C') as Hlen.
    apply counts_is_Some in C, C'.
    split.
    + exact (eq_trans (js_get_Some _ _ _ C') (eq_sym (js_get_Some _ _ _ C))).
    + by apply js_get_lookup.
  - apply all_nodes_inner_inv in R as (_ & R & _); [|done].
    apply all_nodes_inner_inv in R' as (_ & R' & _); [|done].
    apply counts_inner_inv in C as (_ & C & _); [|done].
    apply counts_inner_inv in C' as (_ & C' & _); [|done].
    by apply (IH Hs Hs' _ R C R' C').
  - apply all_nodes_inner_inv in R as (_ & _ & R); [|done].
    apply all_nodes_inner_inv in R' as (_ & _ & R'); [|done].
    apply counts_inner_inv in C as (_ & _ & C); [|done].
    apply counts_inner_inv in C' as (_ & _ & C'); [|done].
    by apply (IH Hs Hs' _ R C R' C').
Qed.

Lemma node_at_dec_slots t t' :
  coords t' = coords t -> n t' = n t ->
  (forall j, coverCount t' !! j = coverCount t !! j
             /\ coveredLen t' !! j = coveredLen t !! j) ->
  t' = t.
Proof.
  intros Hc Hn H. destruct t as [cs m cc cl], t' as [cs' m' cc' cl'].
  simpl in *. subst. f_equal; apply map_eq; intros j; by destruct (H j).
Qed.

(** A tree is determined by its coordinates, the updates it counts and its
    slots outside the nodes. *)
Lemma tree_determined cs t t' A :
  1 <= Z.of_nat (length cs) - 1 ->
  tree_inv cs t A -> tree_inv cs t' A ->
  assigned t -> assigned t' ->
  (forall j, ~ node_at 1 0 (Z.of_nat (length cs) - 2) j ->
     coverCount t' !! j = coverCount t !! j
     /\ coveredLen t' !! j = coveredLen t !! j) ->
  t' = t.
Proof.
  intros Hm (Hc & Hn & R & C) (Hc' & Hn' & R' & C') Ha Ha' Hout.
  apply node_at_dec_slots; [congruence|congruence|]. intros j.
  replace (n t - 1) with (Z.of_nat (length cs) - 2) in * by lia.
  replace (n t' - 1) with (Z.of_nat (length cs) - 2) in * by lia.
  destruct (node_at_em 0 (Z.of_nat (length cs) - 2) ltac:(lia) 1 j) as [Hj|Hj].
  - pose proof (positions_bound (Z.of_nat (length cs) - 1) 0
                  (Z.of_nat (length cs) - 2) ltac:(lia) 1 1
                  ltac:(lia) ltac:(lia) ltac:(lia) ltac:(lia)) as Hpos.
    pose proof (node_at_bound _ _ _ _ _ Hpos Hj) as Hb.
    eapply slots_determined;
      [congruence|apply Ha; lia|apply Ha'; lia|exact Hj|exact R|exact C
      |exact R'|exact C'].
  - by apply Hout.
Qed.

(** ** Sequences of updates *)

Lemma updates_snoc cs calls c :
  updates cs (calls ++ [c])
  = update (updates cs calls) (c_left c) (c_right c) (c_delta c).
Proof. unfold updates. by rewrite foldl_app. Qed.

Lemma foldl_update_inv cs calls :
  1 <= Z.of_nat (length cs) - 1 ->
  forall t A,
    tree_inv cs t A ->
    tree_inv cs
      (foldl (fun t c => update t (c_left c) (c_right c) (c_delta c)) t calls)
      ((call_upd <$> calls) ++ A).
Proof.
  intros Hm. induction calls as [|c calls IH]; intros t A H; [done|]. simpl.
  pose proof (IH _ _ (update_inv cs t A (c_left c) (c_right c) (c_delta c) Hm H)) as H'.
  eapply tree_inv_same_net; [|exact H'].
  apply same_net_perm. fold (call_upd c).
  change (call_upd c :: (call_upd <$> calls) ++ A)
    with ([call_upd c] ++ (call_upd <$> calls) ++ A).
  change (call_upd c :: A) with ([call_upd c] ++ A).
  apply Permutation_app_swap_app.
Qed.

Lemma updates_inv cs calls :
  1 <= Z.of_nat (length cs) - 1 ->
  tree_inv cs (updates cs calls) (call_upd <$> calls).
Proof.
  intros Hm.
  pose proof (foldl_update_inv cs calls Hm _ _ (new_SegmentTree_inv cs Hm)) as H.
  by rewrite app_nil_r in H.
Qed.

Lemma updates_assigned cs calls : assigned (updates cs calls).
Proof.
  induction calls as [|c calls IH] using rev_ind; [apply new_SegmentTree_assigned|].
  rewrite updates_snoc. by apply update_assigned.
Qed.

Lemma updates_frame cs calls j :
  1 <= Z.of_nat (length cs) - 1 ->
  ~ node_at 1 0 (Z.of_nat (length cs) - 2) j ->
  coverCount (updates cs calls) !! j = coverCount (new_SegmentTree cs) !! j
  /\ coveredLen (updates cs calls) !! j = coveredLen (new_SegmentTree cs) !! j.
Proof.
  intros Hm Hj. induction calls as [|c calls IH] using rev_ind; [done|].
  rewrite updates_snoc.
  destruct (updates_inv cs calls Hm) as (_ & Hn & _).
  destruct (update_frame (updates cs calls) (c_left c) (c_right c) (c_delta c) j)
    as [-> ->]; [lia| |done].
  by replace (n (updates cs calls) - 1) with (Z.of_nat (length cs) - 2) by lia.
Qed.

(** The tree after a sequence of updates depends only on the net count that
    the sequence gives to each set of index ranges. *)
Lemma updates_same_net cs calls calls' :
  1 <= Z.of_nat (length cs) - 1 ->
  same_net (call_upd <$> calls) (call_upd <$> calls') ->
  updates cs calls = updates cs calls'.
Proof.
  intros Hm Hnet. apply (tree_determined cs _ _ (call_upd <$> calls')); [done|..].
  - by apply updates_inv.
  - eapply tree_inv_same_net; [exact Hnet|]. by apply updates_inv.
  - apply updates_assigned.
  - apply updates_assigned.
  - intros j Hj.
    destruct (updates_frame cs calls j Hm Hj) as [-> ->].
    destruct (updates_frame cs calls' j Hm Hj) as [-> ->]. done.
Qed.

(** Over a span of at most 2^53 units, every [coveredLen] below a node that
    obeys the rule is an integer between 0 and the width of the span. *)
Lemma rule_bounds t idx l r :
  increasing (coords t) ->
  all_nodes (recompute_rule t) idx l r ->
  0 <= l -> r + 1 < Z.of_nat (length (coords t)) ->
  coord (coords t) (r + 1) - coord (coords t) l <= 2 ^ 53 ->
  exists v : Z, js_get (coveredLen t) idx = Some (Fin v)
            /\ 0 <= v <= coord (coords t) (r + 1) - coord (coords t) l.
Proof.
  intros Hinc H. induction H as [idx l H|idx l r Hlr H H1 IH1 H2 IH2];
    intros Hl Hr Hsmall.
  - destruct H as (c & _ & E). rewrite E.
    pose proof (Hinc l). destruct (c >? 0).
    + rewrite !coord_nth by lia. cbn [js_sub]. rewrite fl_exact by lia.
      eexists. split; [done|lia].
    + rewrite decide_True by done. exists 0. split; [done|lia].
  - pose proof (mid_bounds l r Hlr).
    pose proof (coord_mono (coords t) l ((l + r) / 2 + 1) Hinc
                  ltac:(lia) ltac:(lia) ltac:(lia)).
    pose proof (coord_mono (coords t) ((l + r) / 2 + 1) (r + 1) Hinc
                  ltac:(lia) ltac:(lia) ltac:(lia)).
    destruct H as (c & _ & E). rewrite E.
    destruct (IH1 ltac:(lia) ltac:(lia) ltac:(lia)) as (v1 & E1 & ?).
    destruct (IH2 ltac:(lia) ltac:(lia) ltac:(lia)) as (v2 & E2 & ?).
    destruct (c >? 0).
    + rewrite !coord_nth by lia. cbn [js_sub]. rewrite fl_exact by lia.
      eexists. split; [done|lia].
    + rewrite decide_False by lia.
      rewrite E1, E2. cbn [js_add]. rewrite num_add_exact by lia.
      eexists. split; [done|lia].
Qed.

Lemma rule_nonneg_all t idx l r :
  increasing (coords t) ->
  all_nodes (recompute_rule t) idx l r ->
  0 <= l -> r + 1 < Z.of_nat (length (coords t)) ->
  all_nodes (fun idx _ _ =>
               exists v, js_get (coveredLen t) idx = Some v /\ num_nonneg v)
            idx l r.
Proof.
  intros Hinc H.
  induction H as [idx l H|idx l r Hlr H H1 IH1 H2 IH2]; intros Hl Hr.
  - apply all_leaf. apply (rule_nonneg t idx l l); [done|by apply all_leaf|done..].
  - pose proof (mid_bounds l r Hlr).
    apply all_inner; [done|..].
    + apply (rule_nonneg t idx l r); [done|by apply all_inner|done..].
    + apply IH1; lia.
    + apply IH2; lia.
Qed.

(** ** Properties of the segment tree *)

Lemma constructor_slots_aux (cs : list Z) (j : Z) :
  coverCount (new_SegmentTree cs) !! j
  = (if decide (0 <= j < 4 * (Z.of_nat (length cs) - 1))
     then Some (Some 0) else None)
  /\ coveredLen (new_SegmentTree cs) !! j
     = (if decide (0 <= j < 4 * (Z.of_nat (length cs) - 1))
        then Some (Some (Fin 0)) else None).
Proof. rewrite new_SegmentTree_eq. simpl. rewrite !js_fill_lookup. done. Qed.

Lemma sorted_0_5_10 : StronglySorted Z.lt [0; 5; 10].
Proof. repeat constructor; lia. Qed.

Lemma exact_0_5_10 : exact_range [0; 5; 10].
Proof. unfold exact_range. vm_compute. discriminate. Qed.

Lemma sorted_0_5_7_10 : StronglySorted Z.lt [0; 5; 7; 10].
Proof. repeat constructor; lia. Qed.

Lemma exact_0_5_7_10 : exact_range [0; 5; 7; 10].
Proof. unfold exact_range. vm_compute. discriminate. Qed.

(** X1.  The constructor: on an empty array of coordinates it throws a
    [RangeError] ([new Array(-4)]); on any other array for which [4n] is a
    valid array length (below 2^32) the [_build] pass changes nothing, the
    new tree has [n = coords.length - 1] and both arrays are the zero-filled
    arrays of length [4n]: every slot from 0 to [4n - 1] reads 0 and every
    other slot is [undefined]. *)
Theorem constructor_slots (cs : list Z) (j : Z) :
  (cs = [] -> SegmentTree_constructor cs = inl RangeError)
  /\ (cs <> [] -> 4 * (Z.of_nat (length cs) - 1) < 2 ^ 32 ->
      exists t,
        SegmentTree_constructor cs = inr t
        /\ coords t = cs
        /\ n t = Z.of_nat (length cs) - 1
        /\ coverCount t !! j
           = (if decide (0 <= j < 4 * (Z.of_nat (length cs) - 1))
              then Some (Some 0) else None)
        /\ coveredLen t !! j
           = (if decide (0 <= j < 4 * (Z.of_nat (length cs) - 1))
              then Some (Some (Fin 0)) else None)).
Proof.
  split; [by intros ->|]. intros Hne _. exists (new_SegmentTree cs). split.
  - unfold SegmentTree_constructor.
    destruct (4 * (Z.of_nat (length cs) - 1) <? 0) eqn:E; [|done].
    apply Z.ltb_lt in E. destruct cs; [done|]. simpl in E. lia.
  - rewrite new_SegmentTree_eq. simpl. by rewrite !js_fill_lookup.
Qed.

Lemma constructor_slots_witness :
  SegmentTree_constructor [] = inl RangeError
  /\ exists t,
       SegmentTree_constructor [0; 5; 10] = inr t
       /\ coords t = [0; 5; 10]
       /\ n t = Z.of_nat (length [0; 5; 10]) - 1
       /\ coverCount t !! 3
          = (if decide (0 <= 3 < 4 * (Z.of_nat (length [0; 5; 10]) - 1))
             then Some (Some 0) else None)
       /\ coveredLen t !! 3
          = (if decide (0 <= 3 < 4 * (Z.of_nat (length [0; 5; 10]) - 1))
             then Some (Some (Fin 0)) else None).
Proof.
  split.
  - exact (proj1 (constructor_slots [] 0) eq_refl).
  - exact (proj2 (constructor_slots [0; 5; 10] 3) ltac:(discriminate)
             ltac:(vm_compute; reflexivity)).
Defined.

(** *** The counters stay small *)

Lemma total_delta_nonneg A : 0 <= total_delta A.
Proof. induction A as [|u A IH]; simpl; lia. Qed.

Lemma weigh_bound f A : Z.abs (weigh f A) <= total_delta A.
Proof.
  induction A as [|u A IH]; simpl; [lia|]. destruct (f _ _); lia.
Qed.

Lemma total_delta_filter (P : Upd -> Prop) `{!forall u, Decision (P u)} A :
  total_delta (filter P A) <= total_delta A.
Proof.
  induction A as [|u A IH]; [done|]. rewrite filter_cons.
  destruct (decide (P u)); simpl; lia.
Qed.

Lemma total_delta_calls calls :
  total_delta (call_upd <$> calls)
  = foldr (fun c acc => Z.abs (c_delta c) + acc) 0 calls.
Proof.
  induction calls as [|c calls IH]; [done|].
  rewrite fmap_cons. cbn [total_delta foldr]. fold (total_delta (call_upd <$> calls)).
  by rewrite IH.
Qed.

Lemma total_delta_events index events :
  total_delta (events ≫= event_upd index) <= Z.of_nat (length events).
Proof.
  induction events as [|ev events IH]; [done|].
  rewrite bind_cons. unfold event_upd at 1.
  destruct (type ev =? 0); [simpl in *; lia|].
  simpl. destruct (type ev >? 0); simpl; lia.
Qed.

(** A counter is a net count of the updates made so far, so its magnitude
    is at most the sum of the magnitudes of their deltas. *)
Lemma counts_bound t A idx l r :
  counts t A idx l r ->
  forall j, node_at idx l r j ->
    exists c, js_get (coverCount t) j = Some c /\ Z.abs c <= total_delta A.
Proof.
  induction 1 as [A idx l E|A idx l r Hlr E _ IH1 _ IH2]; intros j Hj.
  - inversion Hj; subst; try lia. eexists. split; [exact E|apply weigh_bound].
  - pose proof (total_delta_filter (outside l r) A) as Hf.
    inversion Hj; subst.
    + eexists. split; [exact E|apply weigh_bound].
    + destruct (IH1 _ ltac:(eassumption)) as (c & Hc & Hb). exists c. split; [done|lia].
    + destruct (IH2 _ ltac:(eassumption)) as (c & Hc & Hb). exists c. split; [done|lia].
Qed.

(** During the sweep a counter is at most the number of events in
    magnitude: the additions of 1 and -1 that the code makes on it are
    exact for every array of events. *)
Lemma foldl_step_counters index cs events j :
  1 <= Z.of_nat (length cs) - 1 ->
  node_at 1 0 (Z.of_nat (length cs) - 2) j ->
  exists c, js_get (coverCount (foldl (step index) (new_SegmentTree cs) events)) j
            = Some c
            /\ Z.abs c <= Z.of_nat (length events).
Proof.
  intros Hm Hj.
  destruct (foldl_step_inv index cs events Hm _ _ (new_SegmentTree_inv cs Hm))
    as (_ & Hn & _ & C).
  rewrite app_nil_r in C.
  replace (n _ - 1) with (Z.of_nat (length cs) - 2) in C by lia.
  destruct (counts_bound _ _ _ _ _ C j Hj) as (c & Hc & Hb).
  exists c. split; [done|]. pose proof (total_delta_events index events). lia.
Qed.

(** X2.  The arrays never grow and hold numbers: over at least two strictly
    increasing coordinates, after any sequence of calls of [update] whose
    deltas sum to at most 2^53 in magnitude, every slot from 0 to [4n - 1]
    of [coverCount] holds an integer of at most 2^53 in magnitude (so that
    every addition made on it was exact) and of [coveredLen] a number that is
    not negative (never [NaN] or [undefined]), and every other slot is still
    [undefined]. *)
Theorem updates_slots (cs : list Z) (calls : list Call) (j : Z) :
  (2 <= length cs)%nat -> StronglySorted Z.lt cs -> small_deltas calls ->
  (0 <= j < 4 * (Z.of_nat (length cs) - 1) ->
   exists (c : Z) (v : number),
     coverCount (updates cs calls) !! j = Some (Some c)
     /\ Z.abs c <= 2 ^ 53
     /\ coveredLen (updates cs calls) !! j = Some (Some v)
     /\ num_nonneg v)
  /\ (~ 0 <= j < 4 * (Z.of_nat (length cs) - 1) ->
      coverCount (updates cs calls) !! j = None
      /\ coveredLen (updates cs calls) !! j = None).
Proof.
  intros Hlen Hs Hsmall. assert (1 <= Z.of_nat (length cs) - 1) as Hm by lia.
  set (m := Z.of_nat (length cs) - 1) in *.
  pose proof (positions_bound m 0 (m - 1) ltac:(lia) 1 1
                ltac:(lia) ltac:(lia) ltac:(lia) ltac:(lia)) as Hpos.
  destruct (updates_inv cs calls Hm) as (Hc & Hn & R & C). fold m in Hn.
  rewrite Hn in R, C.
  assert (increasing (coords (updates cs calls))) as Hinc
    by (rewrite Hc; by apply sorted_increasing).
  destruct (node_at_em 0 (m - 1) ltac:(lia) 1 j) as [Hj|Hj].
  - pose proof (node_at_bound m _ _ _ _ Hpos Hj) as Hb.
    destruct (counts_bound _ _ _ _ _ C j Hj) as (c & Hcc & Hcb).
    rewrite total_delta_calls in Hcb. unfold small_deltas in Hsmall.
    pose proof (rule_nonneg_all _ 1 0 (m - 1) Hinc R ltac:(lia)
                  ltac:(rewrite Hc; unfold m; lia)) as Hnn.
    destruct (all_nodes_at _ _ _ _ _ Hnn Hj) as (_ & _ & v & Hv & Hpos').
    split; [|lia]. intros _. exists c, v.
    split; [by apply js_get_Some|]. split; [lia|].
    split; [by apply js_get_Some|done].
  - replace (m - 1) with (Z.of_nat (length cs) - 2) in Hj by (unfold m; lia).
    destruct (updates_frame cs calls j Hm Hj) as [E1 E2].
    destruct (constructor_slots_aux cs j) as [F1 F2]. fold m in F1, F2.
    destruct (decide (0 <= j < 4 * m)) as [Hd|Hd]; split; intros Hb;
      try (by destruct Hb); try (by destruct Hd).
    + exists 0, (Fin 0).
      split; [exact (eq_trans E1 F1)|]. split; [done|].
      split; [exact (eq_trans E2 F2)|]. simpl. lia.
    + split; [exact (eq_trans E1 F1)|exact (eq_trans E2 F2)].
Qed.

Lemma small_0_1 : small_deltas [mkCall 0 1 1].
Proof. unfold small_deltas. vm_compute. discriminate. Qed.

Lemma updates_slots_witness :
  (2 <= length [0; 5; 10])%nat /\ StronglySorted Z.lt [0; 5; 10]
  /\ small_deltas [mkCall 0 1 1]
  /\ (0 <= 3 < 4 * (Z.of_nat (length [0; 5; 10]) - 1) ->
      exists (c : Z) (v : number),
        coverCount (updates [0; 5; 10] [mkCall 0 1 1]) !! 3 = Some (Some c)
        /\ Z.abs c <= 2 ^ 53
        /\ coveredLen (updates [0; 5; 10] [mkCall 0 1 1]) !! 3 = Some (Some v)
        /\ num_nonneg v)
  /\ (~ 0 <= 3 < 4 * (Z.of_nat (length [0; 5; 10]) - 1) ->
      coverCount (updates [0; 5; 10] [mkCall 0 1 1]) !! 3 = None
      /\ coveredLen (updates [0; 5; 10] [mkCall 0 1 1]) !! 3 = None).
Proof.
  assert ((2 <= length [0; 5; 10])%nat) as H1 by (simpl; lia).
  split; [exact H1|]. split; [exact sorted_0_5_10|]. split; [exact small_0_1|].
  exact (updates_slots [0; 5; 10] [mkCall 0 1 1] 3 H1 sorted_0_5_10 small_0_1).
Defined.

(** The counters are added without rounding, which is what the code does
    as long as they stay within 2^53: the properties of direct calls bound
    the deltas for that reason.  The lengths are rounded as in the code: over
    the coordinates 0, 3 and 2^53 + 6, after the two intervals have been
    added one by one the root reads 2^53 + 8, more than the whole range. *)
Lemma getCoveredLength_rounds :
  getCoveredLength (updates [0; 3; 2 ^ 53 + 6] [mkCall 0 1 1; mkCall 1 2 1])
  = Some (Fin (2 ^ 53 + 8)).
Proof. vm_compute. reflexivity. Qed.

Lemma lit_length_split_gen cs A l m r :
  l <= m + 1 -> m <= r ->
  lit_length cs A l r = lit_length cs A l m + lit_length cs A (m + 1) r.
Proof.
  intros H1 H2. unfold lit_length.
  replace (r - l + 1) with ((m - l + 1) + (r - (m + 1) + 1)) by lia.
  rewrite seqZ_app by lia. rewrite foldr_app.
  replace (l + (m - l + 1)) with (m + 1) by lia.
  generalize (foldr (fun i acc => (if decide (lit A i) then width cs i else 0) + acc)
                    0 (seqZ (m + 1) (r - (m + 1) + 1))) as z.
  intros z. induction (seqZ l (m - l + 1)) as [|i s IH]; simpl; lia.
Qed.

Lemma lit_length_none cs A l r :
  (forall i, l <= i <= r -> ~ lit A i) -> lit_length cs A l r = 0.
Proof.
  intros H. unfold lit_length.
  assert (forall i, i ∈ seqZ l (r - l + 1) -> ~ lit A i) as Hs
    by (intros i Hi; apply elem_of_seqZ in Hi; apply H; lia).
  induction (seqZ l (r - l + 1)) as [|i s IH]; [done|]. simpl.
  rewrite decide_False by (apply Hs; by left). rewrite IH; [done|].
  intros k Hk. apply Hs. by right.
Qed.

(** The lit length under one update is the width of its range. *)
Lemma lit_length_single cs a b l r :
  0 <= l -> l <= a -> a <= b -> b <= r + 1 -> r + 1 < Z.of_nat (length cs) ->
  lit_length cs [mkUpd a (b - 1) 1] l r = coord cs b - coord cs a.
Proof.
  intros Hl Hla Hab Hbr Hr.
  assert (forall i, lit [mkUpd a (b - 1) 1] i <-> a <= i <= b - 1) as Hlit.
  { intros i. unfold lit. rewrite Exists_cons, Exists_nil. simpl. tauto. }
  rewrite (lit_length_split_gen cs _ l (a - 1) r) by lia.
  rewrite lit_length_none by (intros i Hi; rewrite Hlit; lia).
  replace (a - 1 + 1) with a by lia.
  rewrite (lit_length_split_gen cs _ a (b - 1) r) by lia.
  replace (b - 1 + 1) with b by lia.
  rewrite (lit_length_none cs _ b r) by (intros i Hi; rewrite Hlit; lia).
  destruct (decide (a = b)) as [->|Hne].
  - rewrite lit_length_none by (intros i Hi; lia). lia.
  - rewrite lit_length_full; try lia; [|intros i Hi; by apply Hlit].
    replace (b - 1 + 1) with b by lia. lia.
Qed.

(** X3.  The order of the updates does not matter: over at least two
    coordinates, two sequences of calls of [update] that are permutations of
    each other, with deltas that keep the counters exact, leave the same
    tree, slot for slot. *)
Theorem updates_perm (cs : list Z) (calls calls' : list Call) :
  (2 <= length cs)%nat -> small_deltas calls -> calls ≡ₚ calls' ->
  updates cs calls = updates cs calls'.
Proof.
  intros Hlen _ Hp. apply updates_same_net; [lia|].
  apply same_net_perm. by rewrite Hp.
Qed.

Lemma small_three : small_deltas [mkCall 0 1 1; mkCall 1 2 1; mkCall 0 1 (-1)].
Proof. unfold small_deltas. vm_compute. discriminate. Qed.

Lemma updates_perm_witness :
  (2 <= length [0; 5; 10])%nat
  /\ small_deltas [mkCall 0 1 1; mkCall 1 2 1; mkCall 0 1 (-1)]
  /\ [mkCall 0 1 1; mkCall 1 2 1; mkCall 0 1 (-1)]
     ≡ₚ [mkCall 1 2 1; mkCall 0 1 1; mkCall 0 1 (-1)]
  /\ updates [0; 5; 10] [mkCall 0 1 1; mkCall 1 2 1; mkCall 0 1 (-1)]
     = updates [0; 5; 10] [mkCall 1 2 1; mkCall 0 1 1; mkCall 0 1 (-1)].
Proof.
  assert ((2 <= length [0; 5; 10])%nat) as H1 by (simpl; lia).
  assert ([mkCall 0 1 1; mkCall 1 2 1; mkCall 0 1 (-1)]
          ≡ₚ [mkCall 1 2 1; mkCall 0 1 1; mkCall 0 1 (-1)]) as H2 by apply perm_swap.
  split; [exact H1|]. split; [exact small_three|]. split; [exact H2|].
  exact (updates_perm [0; 5; 10] _ _ H1 small_three H2).
Defined.

(** X4.  An Add followed by the matching Remove is undone exactly: on a tree
    over at least two coordinates that was reached from the constructor by
    calls of [update], [update(a, b, d)] followed by [update(a, b, -d)] gives
    back the same tree, slot for slot, when the deltas of all these calls
    keep the counters exact. *)
Theorem update_undo (cs : list Z) (calls : list Call) (a b d : Z) :
  (2 <= length cs)%nat -> small_deltas (calls ++ [mkCall a b d]) ->
  update (update (updates cs calls) a b d) a b (- d) = updates cs calls.
Proof.
  intros Hlen _.
  change (update (update (updates cs calls) a b d) a b (- d))
    with (update (update (updates cs calls)
                    (c_left (mkCall a b d)) (c_right (mkCall a b d))
                    (c_delta (mkCall a b d)))
            (c_left (mkCall a b (- d))) (c_right (mkCall a b (- d)))
            (c_delta (mkCall a b (- d)))).
  rewrite <- !updates_snoc.
  apply updates_same_net; [lia|]. intros f.
  rewrite !fmap_app, !weigh_app. simpl. destruct (f a (b - 1)); lia.
Qed.

Lemma small_undo : small_deltas ([mkCall 0 2 1] ++ [mkCall 0 1 1]).
Proof. unfold small_deltas. vm_compute. discriminate. Qed.

Lemma update_undo_witness :
  (2 <= length [0; 5; 10])%nat
  /\ small_deltas ([mkCall 0 2 1] ++ [mkCall 0 1 1])
  /\ update (update (updates [0; 5; 10] [mkCall 0 2 1]) 0 1 1) 0 1 (- 1)
     = updates [0; 5; 10] [mkCall 0 2 1].
Proof.
  assert ((2 <= length [0; 5; 10])%nat) as H1 by (simpl; lia).
  split; [exact H1|]. split; [exact small_undo|].
  exact (update_undo [0; 5; 10] [mkCall 0 2 1] 0 1 1 H1 small_undo).
Defined.

(** X5.  An update that selects no elementary interval leaves the tree as it
    is: on a tree over at least two coordinates reached from the constructor
    by calls of [update], [update(uLeft, uRight, delta)] with
    [uLeft >= uRight], with [uRight <= 0] or with [uLeft >= n] returns the
    same tree, also when the recursion walks through inner nodes. *)
Theorem update_empty_range (cs : list Z) (calls : list Call) (uLeft uRight delta : Z) :
  (2 <= length cs)%nat ->
  uLeft >= uRight \/ uRight <= 0 \/ uLeft >= Z.of_nat (length cs) - 1 ->
  update (updates cs calls) uLeft uRight delta = updates cs calls.
Proof.
  intros Hlen Hempty. assert (1 <= Z.of_nat (length cs) - 1) as Hm by lia.
  pose proof (updates_inv cs calls Hm) as Hinv.
  apply (tree_determined cs _ _ (mkUpd uLeft (uRight - 1) delta :: (call_upd <$> calls)));
    [done|..].
  - destruct Hinv as (Hc & Hn & R & C). repeat split; try done.
    apply counts_inert; [simpl; lia|done].
  - by apply update_inv.
  - apply updates_assigned.
  - apply update_assigned, updates_assigned.
  - intros j Hj. destruct Hinv as (_ & Hn & _).
    apply update_frame; [lia|].
    by replace (n (updates cs calls) - 1) with (Z.of_nat (length cs) - 2) by lia.
Qed.

Lemma update_empty_range_witness :
  (2 <= length [0; 5; 7; 10])%nat
  /\ (2 >= 2 \/ 2 <= 0 \/ 2 >= Z.of_nat (length [0; 5; 7; 10]) - 1)
  /\ update (updates [0; 5; 7; 10] [mkCall 0 3 1]) 2 2 1
     = updates [0; 5; 7; 10] [mkCall 0 3 1].
Proof.
  assert ((2 <= length [0; 5; 7; 10])%nat) as H1 by (simpl; lia).
  assert (2 >= 2 \/ 2 <= 0 \/ 2 >= Z.of_nat (length [0; 5; 7; 10]) - 1) as H2
    by (left; lia).
  split; [exact H1|]. split; [exact H2|].
  exact (update_empty_range [0; 5; 7; 10] [mkCall 0 3 1] 2 2 1 H1 H2).
Defined.


Lemma small_remove_add : small_deltas [mkCall 0 1 (-1); mkCall 1 2 1].
Proof. unfold small_deltas. vm_compute. discriminate. Qed.




(** ** Properties of the steps of [canCoverAll] *)

Lemma existsb_overlaps dm dM lm lM (cameras : list Camera) :
  existsb (overlaps dm dM lm lM) cameras = true
  <-> exists cam, cam ∈ cameras /\ overlaps dm dM lm lM cam = true.
Proof.
  induction cameras as [|c cameras IH]; simpl.
  - split; [done|]. intros (cam & Hc & _). by apply elem_of_nil in Hc.
  - rewrite orb_true_iff, IH. split.
    + intros [H|(cam & Hc & H)]; [exists c; split; [by left|done]|].
      exists cam. split; [by right|done].
    + intros (cam & Hc & H). apply elem_of_cons in Hc as [->|Hc]; [by left|].
      right. by exists cam.
Qed.

Lemma completion_bool_eq (c : completion) (b : bool) :
  (exists b', c = Normal b') -> (c = Normal true <-> b = true) -> c = Normal b.
Proof.
  intros [b' ->] H. destruct b', b; try done.
  - destruct H as [H _]. by specialize (H eq_refl).
  - destruct H as [_ H]. by specialize (H eq_refl).
Qed.

(** X8.  A target without area that is not a single point (one axis
    degenerate or reversed) is never swept for coverage: the call returns
    [true] exactly when some rectangle passes the overlap test of step 1,
    and [false] otherwise. *)
Theorem canCoverAll_no_area_test distanceMin distanceMax lightMin lightMax cameras :
  ~ (distanceMin = distanceMax /\ lightMin = lightMax) ->
  distanceMax <= distanceMin \/ lightMax <= lightMin ->
  canCoverAll distanceMin distanceMax lightMin lightMax cameras
  = Normal (existsb (overlaps distanceMin distanceMax lightMin lightMax) cameras).
Proof.
  intros Hpt Hna. apply completion_bool_eq; [apply canCoverAll_normal|].
  rewrite existsb_overlaps. by apply canCoverAll_no_area.
Qed.

Lemma canCoverAll_no_area_test_witness :
  ~ (5 = 3 /\ 0 = 10) /\ (3 <= 5 \/ 10 <= 0)
  /\ canCoverAll 5 3 0 10 [mkCamera 0 1 0 1; mkCamera 4 4 2 3]
     = Normal (existsb (overlaps 5 3 0 10) [mkCamera 0 1 0 1; mkCamera 4 4 2 3]).
Proof.
  assert (~ (5 = 3 /\ 0 = 10)) as H1 by lia.
  assert (3 <= 5 \/ 10 <= 0) as H2 by lia.
  split; [exact H1|]. split; [exact H2|].
  exact (canCoverAll_no_area_test 5 3 0 10 _ H1 H2).
Defined.

(** X9.  Coordinate compression: [uniqueLightValues] is strictly increasing,
    and its values are exactly [lightMin], [lightMax] and the [lMin] and
    [lMax] of the clamped rectangles; so it has one entry when all of them
    are one value and at least two otherwise. *)
Theorem uniqueLightValues_spec lightMin lightMax validCams :
  StronglySorted Z.lt (uniqueLightValues lightMin lightMax validCams)
  /\ (forall x, x ∈ uniqueLightValues lightMin lightMax validCams <->
        x = lightMin \/ x = lightMax
        \/ exists cam, cam ∈ validCams /\ (x = lMin cam \/ x = lMax cam))
  /\ (1 <= length (uniqueLightValues lightMin lightMax validCams))%nat
  /\ (lightMin <> lightMax ->
      (2 <= length (uniqueLightValues lightMin lightMax validCams))%nat).
Proof.
  assert (forall x, x ∈ uniqueLightValues lightMin lightMax validCams <->
            x = lightMin \/ x = lightMax
            \/ exists cam, cam ∈ validCams /\ (x = lMin cam \/ x = lMax cam)) as Hin.
  { intros x. unfold uniqueLightValues. rewrite js_sort_perm, elem_of_elements.
    apply elem_of_lightCoords. }
  pose proof (uniqueLightValues_sorted lightMin lightMax validCams) as Hs.
  split; [done|]. split; [done|].
  assert (lightMin ∈ uniqueLightValues lightMin lightMax validCams) as H0
    by (apply Hin; by left).
  assert (lightMax ∈ uniqueLightValues lightMin lightMax validCams) as H1
    by (apply Hin; right; by left).
  destruct (uniqueLightValues lightMin lightMax validCams) as [|a [|b l]].
  - by apply elem_of_nil in H0.
  - split; [simpl; lia|]. intros Hne.
    apply list_elem_of_singleton in H0, H1. congruence.
  - simpl. split; [lia|]. intros _. lia.
Qed.

Lemma lightIndex_lookup vals v i :
  NoDup vals -> lightIndex vals !! v = Some i <-> js_nth vals i = Some v.
Proof.
  intros Hnd. unfold lightIndex, js_nth. split.
  - intros Hi. destruct (decide (v ∈ vals)) as [Hv|Hv].
    + apply list_elem_of_lookup in Hv as [j Hj].
      rewrite (set_indices_lookup vals 0 ∅ j v Hnd Hj) in Hi.
      injection Hi as <-. rewrite decide_True by lia.
      by rewrite Z.add_0_l, Nat2Z.id.
    + rewrite set_indices_notin in Hi by done. by rewrite lookup_empty in Hi.
  - intros Hi. destruct (decide (0 <= i)) as [H0|]; [|done].
    rewrite (set_indices_lookup vals 0 ∅ _ v Hnd Hi). f_equal. lia.
Qed.

(** X10.  The map [lightIndex] is the inverse of the array it is built
    from: on an array without repeated values, [lightIndex.get(v)] is [i]
    exactly when [vals[i]] is [v], and it is [undefined] exactly for the
    values that are not in the array. *)
Theorem lightIndex_inverse (vals : list Z) :
  NoDup vals ->
  (forall v i, lightIndex vals !! v = Some i <-> js_nth vals i = Some v)
  /\ (forall v, lightIndex vals !! v = None <-> v ∉ vals).
Proof.
  intros Hnd. split; [intros v i; by apply lightIndex_lookup|].
  intros v. split.
  - intros Hn Hv. apply list_elem_of_lookup in Hv as [j Hj].
    assert (lightIndex vals !! v = Some (Z.of_nat j)) as Hs.
    { apply lightIndex_lookup; [done|]. unfold js_nth.
      rewrite decide_True by lia. by rewrite Nat2Z.id. }
    congruence.
  - intros Hv. unfold lightIndex. by rewrite set_indices_notin.
Qed.

Lemma lightIndex_inverse_witness :
  NoDup [0; 5; 10]
  /\ (forall v i, lightIndex [0; 5; 10] !! v = Some i <-> js_nth [0; 5; 10] i = Some v)
  /\ (forall v, lightIndex [0; 5; 10] !! v = None <-> v ∉ [0; 5; 10]).
Proof.
  assert (NoDup [0; 5; 10]) as H by (apply sorted_lt_NoDup, sorted_0_5_10).
  split; [exact H|]. exact (lightIndex_inverse [0; 5; 10] H).
Defined.

(** X11.  The compression keeps the order: on a strictly increasing array,
    two light values compare as their indices in [lightIndex] do. *)
Theorem lightIndex_monotone (vals : list Z) (v w i j : Z) :
  StronglySorted Z.lt vals ->
  lightIndex vals !! v = Some i -> lightIndex vals !! w = Some j ->
  (v < w <-> i < j) /\ (v = w <-> i = j).
Proof.
  intros Hs Hi Hj. pose proof (sorted_lt_NoDup vals Hs) as Hnd.
  apply lightIndex_lookup in Hi, Hj; try done.
  unfold js_nth in Hi, Hj.
  destruct (decide (0 <= i)) as [Hi0|]; [|done].
  destruct (decide (0 <= j)) as [Hj0|]; [|done].
  assert (forall a b x y, (a < b)%nat -> vals !! a = Some x -> vals !! b = Some y -> x < y)
    as Hlt by (intros a b x y; by apply sorted_lt_lookup).
  destruct (Z.lt_total i j) as [Hij|[Hij|Hij]].
  - pose proof (Hlt (Z.to_nat i) (Z.to_nat j) v w ltac:(lia) Hi Hj). lia.
  - subst j. assert (v = w) by congruence. lia.
  - pose proof (Hlt (Z.to_nat j) (Z.to_nat i) w v ltac:(lia) Hj Hi). lia.
Qed.

Lemma lightIndex_monotone_witness :
  StronglySorted Z.lt [0; 5; 10]
  /\ lightIndex [0; 5; 10] !! 5 = Some 1 /\ lightIndex [0; 5; 10] !! 10 = Some 2
  /\ (5 < 10 <-> 1 < 2) /\ (5 = 10 <-> 1 = 2).
Proof.
  assert (lightIndex [0; 5; 10] !! 5 = Some 1) as H1 by reflexivity.
  assert (lightIndex [0; 5; 10] !! 10 = Some 2) as H2 by reflexivity.
  split; [exact sorted_0_5_10|]. split; [exact H1|]. split; [exact H2|].
  exact (lightIndex_monotone [0; 5; 10] 5 10 1 2 sorted_0_5_10 H1 H2).
Defined.

Lemma IZR_max a b : IZR (Z.max a b) = Rmax (IZR a) (IZR b).
Proof.
  destruct (Z.max_spec a b) as [[H ->]|[H ->]].
  - rewrite Rmax_right; [done|]. apply IZR_le. lia.
  - rewrite Rmax_left; [done|]. by apply IZR_le.
Qed.

Lemma IZR_min a b : IZR (Z.min a b) = Rmin (IZR a) (IZR b).
Proof.
  destruct (Z.min_spec a b) as [[H ->]|[H ->]].
  - rewrite Rmin_left; [done|]. apply IZR_le. lia.
  - rewrite Rmin_right; [done|]. by apply IZR_le.
Qed.

(** X12.  Clamping is intersecting: the rectangle that step 1 pushes on
    [validCams] contains exactly the points of the rectangle that lie in
    the target, for every rectangle and every target. *)
Theorem clamp_intersection distanceMin distanceMax lightMin lightMax cam (x y : R) :
  in_camera (clamp distanceMin distanceMax lightMin lightMax cam) x y
  <-> in_camera cam x y /\ in_target distanceMin distanceMax lightMin lightMax x y.
Proof.
  unfold in_camera, in_target, clamp. simpl. rewrite !IZR_max, !IZR_min.
  pose proof (Rmax_l (IZR distanceMin) (IZR (dMin cam))).
  pose proof (Rmax_r (IZR distanceMin) (IZR (dMin cam))).
  pose proof (Rmin_l (IZR distanceMax) (IZR (dMax cam))).
  pose proof (Rmin_r (IZR distanceMax) (IZR (dMax cam))).
  pose proof (Rmax_l (IZR lightMin) (IZR (lMin cam))).
  pose proof (Rmax_r (IZR lightMin) (IZR (lMin cam))).
  pose proof (Rmin_l (IZR lightMax) (IZR (lMax cam))).
  pose proof (Rmin_r (IZR lightMax) (IZR (lMax cam))).
  split.
  - intros [[? ?] [? ?]]. repeat split; lra.
  - intros [[[? ?] [? ?]] [[? ?] [? ?]]].
    repeat split;
      first [apply Rmax_lub; lra | apply Rmin_glb; lra].
Qed.

(** X13.  Over a well-formed target, every bound of a clamped rectangle lies
    within the target, and a well-formed rectangle that passes the overlap
    test stays well-formed. *)
Theorem clamp_within distanceMin distanceMax lightMin lightMax cam :
  distanceMin <= distanceMax -> lightMin <= lightMax ->
  overlaps distanceMin distanceMax lightMin lightMax cam = true ->
  (distanceMin <= dMin (clamp distanceMin distanceMax lightMin lightMax cam) <= distanceMax
   /\ distanceMin <= dMax (clamp distanceMin distanceMax lightMin lightMax cam) <= distanceMax
   /\ lightMin <= lMin (clamp distanceMin distanceMax lightMin lightMax cam) <= lightMax
   /\ lightMin <= lMax (clamp distanceMin distanceMax lightMin lightMax cam) <= lightMax)
  /\ (well_formed cam ->
      well_formed (clamp distanceMin distanceMax lightMin lightMax cam)).
Proof.
  intros Hd Hl Ho. apply overlaps_true in Ho. unfold well_formed, clamp. simpl. lia.
Qed.

Lemma clamp_within_witness :
  0 <= 20 /\ 0 <= 10 /\ overlaps 0 20 0 10 (mkCamera (-5) 10 5 30) = true
  /\ (0 <= dMin (clamp 0 20 0 10 (mkCamera (-5) 10 5 30)) <= 20
      /\ 0 <= dMax (clamp 0 20 0 10 (mkCamera (-5) 10 5 30)) <= 20
      /\ 0 <= lMin (clamp 0 20 0 10 (mkCamera (-5) 10 5 30)) <= 10
      /\ 0 <= lMax (clamp 0 20 0 10 (mkCamera (-5) 10 5 30)) <= 10)
  /\ (well_formed (mkCamera (-5) 10 5 30) ->
      well_formed (clamp 0 20 0 10 (mkCamera (-5) 10 5 30))).
Proof.
  assert (overlaps 0 20 0 10 (mkCamera (-5) 10 5 30) = true) as H by reflexivity.
  split; [lia|]. split; [lia|]. split; [exact H|].
  exact (clamp_within 0 20 0 10 (mkCamera (-5) 10 5 30) ltac:(lia) ltac:(lia) H).
Defined.

Lemma clamp_again dm dM lm lM cam :
  dm <= dM -> lm <= lM -> overlaps dm dM lm lM cam = true ->
  overlaps dm dM lm lM (clamp dm dM lm lM cam) = true
  /\ clamp dm dM lm lM (clamp dm dM lm lM cam) = clamp dm dM lm lM cam.
Proof.
  intros Hd Hl Ho. pose proof (proj1 (overlaps_true dm dM lm lM cam) Ho) as H.
  split.
  - apply overlaps_true. unfold clamp. simpl. lia.
  - unfold clamp. simpl. f_equal; lia.
Qed.

Lemma filter_clamp_again dm dM lm lM cameras :
  dm <= dM -> lm <= lM ->
  filter_clamp dm dM lm lM (filter_clamp dm dM lm lM cameras)
  = filter_clamp dm dM lm lM cameras.
Proof.
  intros Hd Hl. rewrite (filter_clamp_eq dm dM lm lM cameras).
  induction cameras as [|cam cameras IH]; [done|].
  rewrite filter_cons. destruct (decide (overlaps dm dM lm lM cam = true)) as [Ho|Ho].
  - destruct (clamp_again dm dM lm lM cam Hd Hl Ho) as [Ho' Hc].
    rewrite fmap_cons, filter_clamp_eq, filter_cons, decide_True by done.
    rewrite fmap_cons, Hc. f_equal. by rewrite <- filter_clamp_eq.
  - done.
Qed.

(** X14.  Step 1 is idempotent over a well-formed target: filtering and
    clamping rectangles that were already filtered and clamped against the
    same target changes nothing, so a caller that clips the rectangles to
    the target beforehand gets the same answer. *)
Theorem filter_clamp_idempotent distanceMin distanceMax lightMin lightMax cameras :
  distanceMin <= distanceMax -> lightMin <= lightMax ->
  filter_clamp distanceMin distanceMax lightMin lightMax
    (filter_clamp distanceMin distanceMax lightMin lightMax cameras)
  = filter_clamp distanceMin distanceMax lightMin lightMax cameras
  /\ canCoverAll distanceMin distanceMax lightMin lightMax
       (filter_clamp distanceMin distanceMax lightMin lightMax cameras)
     = canCoverAll distanceMin distanceMax lightMin lightMax cameras.
Proof.
  intros Hd Hl. split; [by apply filter_clamp_again|].
  rewrite !canCoverAll_eq. by rewrite filter_clamp_again.
Qed.

Lemma filter_clamp_idempotent_witness :
  0 <= 20 /\ 0 <= 10
  /\ filter_clamp 0 20 0 10 (filter_clamp 0 20 0 10 [mkCamera (-5) 30 2 8; mkCamera 30 40 0 1])
     = filter_clamp 0 20 0 10 [mkCamera (-5) 30 2 8; mkCamera 30 40 0 1]
  /\ canCoverAll 0 20 0 10 (filter_clamp 0 20 0 10 [mkCamera (-5) 30 2 8; mkCamera 30 40 0 1])
     = canCoverAll 0 20 0 10 [mkCamera (-5) 30 2 8; mkCamera 30 40 0 1].
Proof.
  split; [lia|]. split; [lia|].
  exact (filter_clamp_idempotent 0 20 0 10 _ ltac:(lia) ltac:(lia)).
Defined.

Lemma js_sort_head {A} (key : A -> Z) (x : A) (l : list A) :
  Forall (fun y => key x <= key y) l -> head (js_sort key (x :: l)) = Some x.
Proof.
  intros Hl. simpl.
  assert (Forall (fun y => key x <= key y) (js_sort key l)) as Hs
    by (by rewrite js_sort_perm).
  destruct (js_sort key l) as [|y s]; [done|]. simpl.
  apply Forall_cons in Hs as [Hy _].
  by rewrite (proj2 (Z.leb_le _ _) Hy).
Qed.

Lemma build_events_range dm dM lm lM cameras :
  dm <= dM ->
  Forall (fun ev => dm <= dist ev <= dM)
         (build_events dm dM (filter_clamp dm dM lm lM cameras)).
Proof.
  intros Hd. rewrite build_events_eq. apply Forall_app. split.
  - repeat constructor; simpl; lia.
  - apply Forall_forall. intros ev Hev.
    apply list_elem_of_bind in Hev as (c & Hev & Hc).
    apply elem_of_filter_clamp in Hc as (cam & _ & Ho & ->).
    apply overlaps_true in Ho. unfold cam_events in Hev.
    apply elem_of_cons in Hev as [->|Hev]; [simpl; lia|].
    apply list_elem_of_singleton in Hev as ->. simpl. lia.
Qed.

(** X15.  The events of step 2, over a target with
    [distanceMin <= distanceMax]: the sorted array has two events for each
    clamped rectangle and the two boundary events; it is sorted by distance;
    every distance lies in [distanceMin..distanceMax], so [Math.max] and
    [Math.min] in the loop never change a bound; and [events[0]] is the
    boundary event at [distanceMin], so the sweep starts there. *)
Theorem query_events_spec distanceMin distanceMax lightMin lightMax cameras :
  distanceMin <= distanceMax ->
  sorted_by dist (query_events distanceMin distanceMax lightMin lightMax cameras)
  /\ length (query_events distanceMin distanceMax lightMin lightMax cameras)
     = (2 + 2 * length (filter_clamp distanceMin distanceMax lightMin lightMax cameras))%nat
  /\ Forall (fun ev => Z.max (dist ev) distanceMin = dist ev
                       /\ Z.min (dist ev) distanceMax = dist ev)
            (query_events distanceMin distanceMax lightMin lightMax cameras)
  /\ head (query_events distanceMin distanceMax lightMin lightMax cameras)
     = Some (mkEvent distanceMin 0 0 0).
Proof.
  intros Hd. unfold query_events.
  pose proof (build_events_range distanceMin distanceMax lightMin lightMax cameras Hd)
    as Hr.
  split; [apply js_sort_sorted|]. split; [|split].
  - rewrite js_sort_perm, build_events_eq, length_app. simpl. do 2 f_equal.
    clear Hr.
    induction (filter_clamp distanceMin distanceMax lightMin lightMax cameras)
      as [|c l IH]; [done|].
    rewrite bind_cons, length_app, IH. simpl. lia.
  - rewrite js_sort_perm. eapply Forall_impl; [exact Hr|]. simpl. lia.
  - rewrite build_events_eq in *.
    apply (js_sort_head dist (mkEvent distanceMin 0 0 0)).
    apply Forall_cons in Hr as [_ Hr].
    eapply Forall_impl; [exact Hr|]. simpl. lia.
Qed.

Lemma query_events_spec_witness :
  0 <= 20
  /\ sorted_by dist (query_events 0 20 0 10 cameras)
  /\ length (query_events 0 20 0 10 cameras)
     = (2 + 2 * length (filter_clamp 0 20 0 10 cameras))%nat
  /\ Forall (fun ev => Z.max (dist ev) 0 = dist ev /\ Z.min (dist ev) 20 = dist ev)
            (query_events 0 20 0 10 cameras)
  /\ head (query_events 0 20 0 10 cameras) = Some (mkEvent 0 0 0 0).
Proof.
  split; [lia|]. exact (query_events_spec 0 20 0 10 cameras ltac:(lia)).
Defined.

(** ** Moving the target and the rectangles *)

Section Shift.
Variables a b : Z.

Lemma compare_add_r (x y c : Z) : (x + c ?= y + c) = (x ?= y).
Proof. by rewrite !(Z.add_comm _ c), Z.add_compare_mono_l. Qed.

Lemma geb_add_r (x y c : Z) : (x + c >=? y + c) = (x >=? y).
Proof. unfold Z.geb. by rewrite compare_add_r. Qed.

Lemma leb_add_r (x y c : Z) : (x + c <=? y + c) = (x <=? y).
Proof. unfold Z.leb. by rewrite compare_add_r. Qed.

Lemma gtb_add_r (x y c : Z) : (x + c >? y + c) = (x >? y).
Proof. unfold Z.gtb. by rewrite compare_add_r. Qed.

Lemma overlaps_shift dm dM lm lM cam :
  overlaps (dm + a) (dM + a) (lm + b) (lM + b) (shift a b cam)
  = overlaps dm dM lm lM cam.
Proof.
  unfold overlaps, shift. simpl. unfold Z.geb.
  by rewrite !compare_add_r, !leb_add_r.
Qed.

Lemma clamp_shift dm dM lm lM cam :
  clamp (dm + a) (dM + a) (lm + b) (lM + b) (shift a b cam)
  = shift a b (clamp dm dM lm lM cam).
Proof.
  unfold clamp, shift. simpl.
  by rewrite !Z.add_max_distr_r, !Z.add_min_distr_r.
Qed.

Lemma filter_clamp_shift dm dM lm lM cameras :
  filter_clamp (dm + a) (dM + a) (lm + b) (lM + b) (shift a b <$> cameras)
  = shift a b <$> filter_clamp dm dM lm lM cameras.
Proof.
  rewrite !filter_clamp_eq. induction cameras as [|cam cameras IH]; [done|].
  rewrite fmap_cons, !filter_cons, overlaps_shift.
  destruct (decide (overlaps dm dM lm lM cam = true)); [|done].
  by rewrite !fmap_cons, clamp_shift, IH.
Qed.

Lemma build_events_shift dm dM validCams :
  build_events (dm + a) (dM + a) (shift a b <$> validCams)
  = shift_event a b <$> build_events dm dM validCams.
Proof.
  rewrite !build_events_eq, fmap_app. f_equal.
  induction validCams as [|cam validCams IH]; [done|].
  rewrite fmap_cons, !bind_cons, fmap_app, IH. done.
Qed.

Lemma sort_insert_fmap {A} (key : A -> Z) (f : A -> A) (c : Z) x l :
  (forall y, key (f y) = key y + c) ->
  sort_insert key (f x) (f <$> l) = f <$> sort_insert key x l.
Proof.
  intros Hf. induction l as [|y l IH]; [done|].
  rewrite fmap_cons. cbn [sort_insert].
  rewrite !Hf, leb_add_r. destruct (key x <=? key y); [done|].
  by rewrite fmap_cons, IH.
Qed.

Lemma js_sort_fmap {A} (key : A -> Z) (f : A -> A) (c : Z) l :
  (forall y, key (f y) = key y + c) ->
  js_sort key (f <$> l) = f <$> js_sort key l.
Proof.
  intros Hf. unfold js_sort. induction l as [|x l IH]; [done|].
  rewrite fmap_cons. cbn [foldr]. by rewrite IH, (sort_insert_fmap key f c).
Qed.

Lemma uniqueLightValues_shift lm lM validCams :
  uniqueLightValues (lm + b) (lM + b) (shift a b <$> validCams)
  = (fun v => v + b) <$> uniqueLightValues lm lM validCams.
Proof.
  apply (StronglySorted_unique_strong Z.lt).
  - intros x y _ _ H1 H2. lia.
  - apply uniqueLightValues_sorted.
  - apply (StronglySorted_fmap _ Z.lt Z.lt); [intros x y; lia|].
    apply uniqueLightValues_sorted.
  - apply NoDup_Permutation.
    + apply sorted_lt_NoDup, uniqueLightValues_sorted.
    + apply (NoDup_fmap_2 _), sorted_lt_NoDup, uniqueLightValues_sorted.
    + intros x. rewrite list_elem_of_fmap, elem_of_uniqueLightValues,
        elem_of_lightCoords. split.
      * intros [->|[->|(c & Hc & Hx)]].
        -- exists lm. split; [done|].
           apply elem_of_uniqueLightValues, elem_of_lightCoords. by left.
        -- exists lM. split; [done|].
           apply elem_of_uniqueLightValues, elem_of_lightCoords. right. by left.
        -- apply list_elem_of_fmap in Hc as (cam & -> & Hc). simpl in Hx.
           destruct Hx as [->| ->]; eexists; (split; [reflexivity|]);
             apply elem_of_uniqueLightValues, elem_of_lightCoords;
             right; right; exists cam; auto.
      * intros (y & -> & Hy).
        apply elem_of_uniqueLightValues, elem_of_lightCoords in Hy
          as [->|[->|(cam & Hc & Hy)]]; [by left|right; by left|].
        right. right. exists (shift a b cam).
        split; [apply list_elem_of_fmap; eauto|]. simpl. destruct Hy as [->| ->]; auto.
Qed.

Lemma js_nth_shift (cs : list Z) i :
  js_nth ((fun v => v + b) <$> cs) i = (fun v => v + b) <$> js_nth cs i.
Proof. unfold js_nth. case_decide; [|done]. by rewrite list_lookup_fmap. Qed.

Lemma lightIndex_shift (vals : list Z) v :
  NoDup vals ->
  lightIndex ((fun v => v + b) <$> vals) !! (v + b) = lightIndex vals !! v.
Proof.
  intros Hnd.
  assert (NoDup ((fun v => v + b) <$> vals)) as Hnd' by (by apply (NoDup_fmap_2 _)).
  apply option_eq. intros i.
  rewrite !lightIndex_lookup by done. rewrite js_nth_shift.
  destruct (js_nth vals i) as [w|]; simpl; [|done].
  split; intros [= H]; f_equal; lia.
Qed.

Lemma js_sub_shift (cs : list Z) i j :
  js_sub (js_nth ((fun v => v + b) <$> cs) i) (js_nth ((fun v => v + b) <$> cs) j)
  = js_sub (js_nth cs i) (js_nth cs j).
Proof.
  rewrite !js_nth_shift.
  destruct (js_nth cs i) as [x|], (js_nth cs j) as [y|]; simpl; try done.
  do 2 f_equal. lia.
Qed.

(** The tree does not see a move of its coordinates: it only reads their
    differences. *)
Lemma same_differences_shift cs : same_differences ((fun v => v + b) <$> cs) cs.
Proof. intros i j. apply js_sub_shift. Qed.

Lemma recompute_with_coords cs' t idx l r :
  same_differences cs' (coords t) ->
  recompute (with_coords cs' t) idx l r = with_coords cs' (recompute t idx l r).
Proof.
  intros H. unfold recompute.
  change (coverCount (with_coords cs' t)) with (coverCount t).
  change (coveredLen (with_coords cs' t)) with (coveredLen t).
  change (coords (with_coords cs' t)) with cs'. rewrite H.
  destruct (js_gt _ _); [done|]. by destruct (decide (l = r)).
Qed.

Lemma set_coverCount_with_coords cs' t idx v :
  set_coverCount (with_coords cs' t) idx v = with_coords cs' (set_coverCount t idx v).
Proof. done. Qed.

Lemma updateRange_with_coords cs' ql qr delta l r :
  forall t idx,
    same_differences cs' (coords t) ->
    _updateRange (with_coords cs' t) idx l r ql qr delta
    = with_coords cs' (_updateRange t idx l r ql qr delta).
Proof.
  remember (Z.to_nat (r - l)) as k eqn:Hk.
  revert l r Hk. induction k as [k IH] using lt_wf_ind. intros l r Hk t idx H.
  rewrite (_updateRange_eq (with_coords cs' t)), (_updateRange_eq t).
  destruct (decide (ql > r \/ qr < l)) as [|Hout]; [done|].
  destruct (decide (ql <= l /\ r <= qr)) as [|Hin].
  - change (coverCount (with_coords cs' t)) with (coverCount t).
    rewrite set_coverCount_with_coords. by apply recompute_with_coords.
  - assert (l < r) as Hlr by lia. pose proof (mid_bounds l r Hlr) as Hm.
    rewrite (IH (Z.to_nat ((l + r) / 2 - l)) ltac:(lia) l ((l + r) / 2) eq_refl
               t (2 * idx) H).
    assert (same_differences cs'
              (coords (_updateRange t (2 * idx) l ((l + r) / 2) ql qr delta))) as H'
      by (by rewrite updateRange_coords).
    rewrite (IH (Z.to_nat (r - ((l + r) / 2 + 1))) ltac:(lia) ((l + r) / 2 + 1) r
               eq_refl _ (2 * idx + 1) H').
    apply recompute_with_coords. by rewrite updateRange_coords.
Qed.

Lemma update_shift cs t uLeft uRight delta :
  coords t = cs ->
  update (with_coords ((fun v => v + b) <$> cs) t) uLeft uRight delta
  = with_coords ((fun v => v + b) <$> cs) (update t uLeft uRight delta).
Proof.
  intros Hc. unfold update. destruct (uLeft >? uRight); [done|].
  change (n (with_coords ((fun v => v + b) <$> cs) t)) with (n t).
  apply updateRange_with_coords. rewrite Hc. apply same_differences_shift.
Qed.

Lemma update_coords t uLeft uRight delta :
  coords (update t uLeft uRight delta) = coords t.
Proof. unfold update. case_match; [done|]. apply updateRange_coords. Qed.

Lemma new_SegmentTree_shift cs :
  new_SegmentTree ((fun v => v + b) <$> cs)
  = with_coords ((fun v => v + b) <$> cs) (new_SegmentTree cs).
Proof. rewrite !new_SegmentTree_eq. unfold with_coords. simpl. by rewrite length_fmap. Qed.

Lemma sweep_shift dm dM vals totalLen events :
  NoDup vals ->
  forall t prev,
    coords t = vals ->
    sweep (dm + a) (dM + a) (lightIndex ((fun v => v + b) <$> vals)) totalLen
          (with_coords ((fun v => v + b) <$> vals) t) (prev + a)
          (shift_event a b <$> events)
    = sweep dm dM (lightIndex vals) totalLen t prev events.
Proof.
  intros Hnd. induction events as [|ev events IH]; intros t prev Hc; [done|].
  rewrite fmap_cons. cbn [sweep].
  change (dist (shift_event a b ev)) with (dist ev + a).
  change (type (shift_event a b ev)) with (type ev).
  rewrite gtb_add_r, Z.add_min_distr_r, Z.add_max_distr_r, gtb_add_r.
  change (getCoveredLength (with_coords ((fun v => v + b) <$> vals) t))
    with (getCoveredLength t).
  destruct (_ && _ && _); [done|].
  destruct (type ev =? 0) eqn:E; [by apply IH|].
  unfold shift_event. cbn [ev_lMin ev_lMax]. rewrite E.
  rewrite !lightIndex_shift by done.
  destruct (lightIndex vals !! ev_lMin ev) as [uLeft|]; [|done].
  destruct (lightIndex vals !! ev_lMax ev) as [uRight|]; [|done].
  cbv zeta. rewrite update_shift by done. apply IH.
  by rewrite update_coords.
Qed.

Lemma sweep_valid_shift dm dM lm lM validCams :
  sweep_valid (dm + a) (dM + a) (lm + b) (lM + b) (shift a b <$> validCams)
  = sweep_valid dm dM lm lM validCams.
Proof.
  rewrite !sweep_valid_unfold.
  rewrite build_events_shift, (js_sort_fmap dist (shift_event a b) a) by done.
  rewrite uniqueLightValues_shift, new_SegmentTree_shift.
  replace (lM + b - (lm + b)) with (lM - lm) by lia.
  destruct (js_sort dist (build_events dm dM validCams)) as [|ev0 events] eqn:E;
    [done|].
  rewrite fmap_cons.
  change (dist (shift_event a b ev0)) with (dist ev0 + a).
  rewrite <- fmap_cons. apply sweep_shift.
  - apply sorted_lt_NoDup, uniqueLightValues_sorted.
  - by rewrite new_SegmentTree_eq.
Qed.
End Shift.

(** X16.  The answer is invariant under translation: moving the target and
    every (well-formed) rectangle by the same offsets in distance and in
    light gives the same boolean. *)
Theorem canCoverAll_shift distanceMin distanceMax lightMin lightMax cameras (a b : Z) :
  Forall well_formed cameras ->
  canCoverAll (distanceMin + a) (distanceMax + a) (lightMin + b) (lightMax + b)
              (shift a b <$> cameras)
  = canCoverAll distanceMin distanceMax lightMin lightMax cameras.
Proof.
  intros _. rewrite !canCoverAll_eq, filter_clamp_shift.
  assert (forall x y c, (x + c =? y + c) = (x =? y)) as E.
  { intros x y c. destruct (Z.eqb_spec x y), (Z.eqb_spec (x + c) (y + c)); lia. }
  rewrite !E. destruct (_ && _); [done|].
  destruct (filter_clamp distanceMin distanceMax lightMin lightMax cameras)
    as [|c l]; [done|].
  apply (sweep_valid_shift a b distanceMin distanceMax lightMin lightMax (c :: l)).
Qed.

Lemma canCoverAll_shift_witness :
  Forall well_formed cameras
  /\ canCoverAll (0 + 7) (20 + 7) (0 + (-3)) (10 + (-3)) (shift 7 (-3) <$> cameras)
     = canCoverAll 0 20 0 10 cameras.
Proof.
  split; [exact cameras_well_formed|].
  exact (canCoverAll_shift 0 20 0 10 cameras 7 (-3) cameras_well_formed).
Defined.

(** ** What the answer depends on *)

(** Two calls on well-formed rectangles agree as soon as their targets are of
    the same kind and span at most 2^53 units in light, the overlap test
    passes for one list exactly when it does for the other, and the same
    holds for covering the unit cells. *)
Lemma canCoverAll_same dm dM lm lM cams dm' dM' lm' lM' cams' :
  Forall well_formed cams -> Forall well_formed cams' ->
  lM - lm <= 2 ^ 53 -> lM' - lm' <= 2 ^ 53 ->
  ((dm = dM /\ lm = lM) <-> (dm' = dM' /\ lm' = lM')) ->
  ((dm < dM /\ lm < lM) <-> (dm' < dM' /\ lm' < lM')) ->
  ((exists cam, cam ∈ cams /\ overlaps dm dM lm lM cam = true)
   <-> (exists cam, cam ∈ cams' /\ overlaps dm' dM' lm' lM' cam = true)) ->
  (dm < dM -> lm < lM ->
   covers_cells dm dM lm lM cams <-> covers_cells dm' dM' lm' lM' cams') ->
  canCoverAll dm dM lm lM cams = canCoverAll dm' dM' lm' lM' cams'.
Proof.
  intros Hw Hw' Hs Hs' Hpt Hpos Hov Hcells.
  assert (canCoverAll dm dM lm lM cams = Normal true
          <-> canCoverAll dm' dM' lm' lM' cams' = Normal true) as Hiff.
  { destruct (decide (dm = dM /\ lm = lM)) as [Hp|Hp].
    - pose proof (proj1 Hpt Hp) as Hp'. destruct Hp as [-> ->], Hp' as [-> ->].
      unfold canCoverAll. by rewrite !Z.eqb_refl.
    - destruct (decide (dm < dM /\ lm < lM)) as [Ha|Ha].
      + pose proof (proj1 Hpos Ha) as [Hd' Hl']. destruct Ha as [Hd Hl].
        rewrite (canCoverAll_cells dm dM lm lM cams Hd Hl Hw Hs).
        rewrite (canCoverAll_cells dm' dM' lm' lM' cams' Hd' Hl' Hw' Hs').
        by apply Hcells.
      + rewrite (canCoverAll_no_area dm dM lm lM cams) by (done || lia).
        rewrite (canCoverAll_no_area dm' dM' lm' lM' cams'); [done|tauto|].
        destruct (decide (dm' < dM' /\ lm' < lM')); [tauto|lia]. }
  destruct (canCoverAll_normal dm dM lm lM cams) as [b Hb].
  destruct (canCoverAll_normal dm' dM' lm' lM' cams') as [b' Hb'].
  rewrite Hb, Hb' in *. destruct b, b'; try done.
  - symmetry. by apply Hiff.
  - by apply Hiff.
Qed.

Lemma well_formed_transpose cams :
  Forall well_formed cams -> Forall well_formed (transpose <$> cams).
Proof.
  intros H. apply Forall_fmap. eapply Forall_impl; [exact H|].
  intros c. unfold well_formed, transpose. simpl. lia.
Qed.



(** The bound is needed: with a light extent of 2^53 + 1 the sweep along
    distance rounds the required length and accepts a rectangle that leaves
    one unit of light uncovered, and the sweep along the other axis does
    not. *)
Lemma canCoverAll_transpose_rounds :
  canCoverAll 0 10 (-1) (2 ^ 53) [mkCamera 0 10 0 (2 ^ 53)] = Normal true
  /\ canCoverAll (-1) (2 ^ 53) 0 10 (transpose <$> [mkCamera 0 10 0 (2 ^ 53)])
     = Normal false.
Proof. split; vm_compute; reflexivity. Qed.



Lemma Forall_well_formed_remove cams1 (r : Camera) cams2 :
  Forall well_formed (cams1 ++ r :: cams2) -> Forall well_formed (cams1 ++ cams2).
Proof.
  rewrite !Forall_app, Forall_cons. tauto.
Qed.

Lemma elem_of_insert_middle (cams1 cams2 : list Camera) r c :
  c ∈ cams1 ++ r :: cams2 <-> c = r \/ c ∈ cams1 ++ cams2.
Proof. rewrite !elem_of_app, elem_of_cons. tauto. Qed.


Lemma cameras_nested_well_formed :
  Forall well_formed ([] ++ mkCamera 0 10 0 5 :: [mkCamera 0 10 0 10]).
Proof. repeat constructor; simpl; lia. Qed.



Lemma flat_list_well_formed :
  Forall well_formed ([mkCamera 0 10 0 10] ++ mkCamera 3 3 0 10 :: []).
Proof. repeat constructor; simpl; lia. Qed.




(** ** The tree during the sweep *)

Lemma uniqueLightValues_two lightMin lightMax validCams :
  lightMin <> lightMax ->
  1 <= Z.of_nat (length (uniqueLightValues lightMin lightMax validCams)) - 1.
Proof.
  intros Hne.
  assert (forall x, x = lightMin \/ x = lightMax ->
            x ∈ uniqueLightValues lightMin lightMax validCams) as Hin.
  { intros x Hx. unfold uniqueLightValues. rewrite js_sort_perm, elem_of_elements.
    apply elem_of_lightCoords. tauto. }
  pose proof (Hin lightMin ltac:(tauto)) as H0.
  pose proof (Hin lightMax ltac:(tauto)) as H1.
  destruct (uniqueLightValues lightMin lightMax validCams) as [|a [|b l]].
  - by apply elem_of_nil in H0.
  - apply list_elem_of_singleton in H0, H1. congruence.
  - simpl. lia.
Qed.

Lemma foldl_step_frame index cs events j :
  1 <= Z.of_nat (length cs) - 1 ->
  ~ node_at 1 0 (Z.of_nat (length cs) - 2) j ->
  coverCount (foldl (step index) (new_SegmentTree cs) events) !! j
  = coverCount (new_SegmentTree cs) !! j
  /\ coveredLen (foldl (step index) (new_SegmentTree cs) events) !! j
     = coveredLen (new_SegmentTree cs) !! j.
Proof.
  intros Hm Hj. induction events as [|ev events IH] using rev_ind; [done|].
  rewrite foldl_app. simpl.
  destruct (foldl_step_inv index cs events Hm _ _ (new_SegmentTree_inv cs Hm))
    as (_ & Hn & _).
  set (t := foldl (step index) (new_SegmentTree cs) events) in *.
  unfold step. destruct (type ev =? 0); [exact IH|].
  destruct (update_frame t (index_of index (ev_lMin ev)) (index_of index (ev_lMax ev))
              (if type ev >? 0 then 1 else -1) j) as [-> ->]; [lia| |exact IH].
  by replace (n t - 1) with (Z.of_nat (length cs) - 2) by lia.
Qed.

Lemma foldl_step_assigned index t events :
  assigned t -> assigned (foldl (step index) t events).
Proof.
  revert t. induction events as [|ev events IH]; intros t H; [done|].
  simpl. apply IH. unfold step. destruct (type ev =? 0); [done|].
  by apply update_assigned.
Qed.

(** Every Add event of a query has its Remove event: over all events the
    updates cancel. *)
Lemma events_net_zero index distanceMin distanceMax validCams :
  same_net (js_sort dist (build_events distanceMin distanceMax validCams)
            ≫= event_upd index) [].
Proof.
  intros f. rewrite (same_net_perm _ (build_events distanceMin distanceMax validCams
                                       ≫= event_upd index))
    by (by rewrite js_sort_perm).
  rewrite build_events_eq, bind_app, weigh_app. simpl.
  induction validCams as [|c l IH]; [done|].
  rewrite bind_cons, bind_app, weigh_app. simpl in *.
  destruct (f _ _); lia.
Qed.

(** X22.  The sweep leaves the tree as it found it: when [lightMin] and
    [lightMax] differ, after the loop has processed every event of the
    query the tree equals the tree that the constructor built, every
    [coverCount] and every [coveredLen] being 0 again, for all rectangles,
    ill-formed ones included. *)
Theorem sweep_restores_tree distanceMin distanceMax lightMin lightMax cameras :
  lightMin <> lightMax ->
  query_tree distanceMin distanceMax lightMin lightMax cameras
    (query_events distanceMin distanceMax lightMin lightMax cameras)
  = new_SegmentTree (query_coords distanceMin distanceMax lightMin lightMax cameras).
Proof.
  intros Hne. unfold query_tree, query_events, query_coords.
  set (vc := filter_clamp distanceMin distanceMax lightMin lightMax cameras).
  set (cs := uniqueLightValues lightMin lightMax vc).
  assert (1 <= Z.of_nat (length cs) - 1) as Hm by (by apply uniqueLightValues_two).
  apply (tree_determined cs _ _ []); [done|by apply new_SegmentTree_inv|..].
  - eapply tree_inv_same_net; [apply events_net_zero|].
    pose proof (foldl_step_inv (lightIndex cs) cs
                  (js_sort dist (build_events distanceMin distanceMax vc)) Hm
                  _ _ (new_SegmentTree_inv cs Hm)) as H.
    by rewrite app_nil_r in H.
  - apply new_SegmentTree_assigned.
  - apply foldl_step_assigned, new_SegmentTree_assigned.
  - intros j Hj. by apply foldl_step_frame.
Qed.

Lemma sweep_restores_tree_witness :
  0 <> 10
  /\ query_tree 0 20 0 10 cameras (query_events 0 20 0 10 cameras)
     = new_SegmentTree (query_coords 0 20 0 10 cameras).
Proof.
  split; [lia|]. exact (sweep_restores_tree 0 20 0 10 cameras ltac:(lia)).
Defined.

Lemma lit_length_mono cs A B l r :
  increasing cs ->
  l <= r -> 0 <= l -> r + 1 < Z.of_nat (length cs) ->
  (forall i, lit A i -> lit B i) ->
  lit_length cs A l r <= lit_length cs B l r.
Proof.
  intros Hinc Hlr Hl Hr Hsub. revert l r Hlr Hl Hr.
  apply (span_ind (fun l r => 0 <= l -> r + 1 < Z.of_nat (length cs) ->
    lit_length cs A l r <= lit_length cs B l r)).
  - intros l Hl Hr. rewrite !lit_length_leaf, width_eq by lia.
    pose proof (Hinc l Hl Hr).
    destruct (decide (lit A l)) as [HA|HA]; destruct (decide (lit B l)) as [HB|HB];
      try lia.
    by specialize (Hsub _ HA).
  - intros l r Hlr IHl IHr Hl Hr. pose proof (mid_bounds l r Hlr).
    rewrite (lit_length_split cs A l ((l + r) / 2) r) by lia.
    rewrite (lit_length_split cs B l ((l + r) / 2) r) by lia.
    specialize (IHl ltac:(lia) ltac:(lia)). specialize (IHr ltac:(lia) ltac:(lia)). lia.
Qed.


Lemma add_calls_0_1 : Forall (fun c => c_delta c = 1) [mkCall 0 1 1].
Proof. by repeat constructor. Qed.

Lemma small_add_calls : small_deltas ([mkCall 0 1 1] ++ [mkCall 0 2 1]).
Proof. unfold small_deltas. simpl. lia. Qed.


(** * The countdown component *)

Lemma setNow_flag (self : DeadlineComponent) (clock : Z) :
  _deadline self <> 0 ->
  isDeadlineTime (setNow clock self)
  = num_ltb (num_sub (_deadline self) clock) 1000
  /\ _deadline (setNow clock self) = _deadline self.
Proof.
  intros Hne. unfold setNow. cbn [_deadline now isDeadlineTime].
  destruct (falsy (_deadline self)) eqn:E; [|done].
  destruct (_deadline self) as [x| |]; try done.
  apply Z.eqb_eq in E. by subst x.
Qed.



(** Beyond 2^53 the deadline is not the exact sum: 9007199254741 seconds
    from the clock reading 1 give a deadline at 9007199254741000. *)
Lemma resetDeadline_rounds :
  _deadline (resetDeadline (new_DeadlineComponent 1) 9007199254741)
  = Fin 9007199254741000.
Proof. vm_compute. reflexivity. Qed.

(** X26.  The flag does not fall back while the clock moves forward: with a
    deadline other than 0, once a call of [setNow()] has set
    [isDeadlineTime], every later call at a later or equal clock reading
    sets it again. *)
Theorem setNow_flag_stays (self : DeadlineComponent) (clock clock' : Z) :
  _deadline self <> 0 -> clock <= clock' ->
  isDeadlineTime (setNow clock self) = true ->
  isDeadlineTime (setNow clock' (setNow clock self)) = true.
Proof.
  intros Hne Hle.
  destruct (setNow_flag self clock Hne) as [Hf Hk].
  assert (_deadline (setNow clock self) <> 0) as Hne' by (by rewrite Hk).
  destruct (setNow_flag _ clock' Hne') as [Hf' _]. rewrite Hf', Hk, Hf.
  destruct (_deadline self) as [x| |]; cbn [num_sub]; [|done..].
  rewrite !fl_ltb by lia. rewrite !Z.ltb_lt. lia.
Qed.

Lemma setNow_flag_stays_witness :
  _deadline (resetDeadline (new_DeadlineComponent 0) 2) <> 0 /\ 1500 <= 2500
  /\ isDeadlineTime (setNow 1500 (resetDeadline (new_DeadlineComponent 0) 2)) = true
  /\ isDeadlineTime
       (setNow 2500 (setNow 1500 (resetDeadline (new_DeadlineComponent 0) 2))) = true.
Proof.
  assert (_deadline (resetDeadline (new_DeadlineComponent 0) 2) <> 0) as H1
    by (vm_compute; discriminate).
  assert (isDeadlineTime (setNow 1500 (resetDeadline (new_DeadlineComponent 0) 2)) = true)
    as H2 by (vm_compute; reflexivity).
  split; [exact H1|]. split; [lia|]. split; [exact H2|].
  exact (setNow_flag_stays (resetDeadline (new_DeadlineComponent 0) 2) 1500 2500
           H1 ltac:(lia) H2).
Defined.

(** X27.  Before the first deadline: the field [_deadline] starts at -1,
    which is not 0, so a call of [setNow()] on a component that has not seen
    [resetDeadline] yet sets [isDeadlineTime] at every clock reading from
    -1000 on; and [resetDeadline] alone never changes the flag. *)
Theorem setNow_before_reset (clock0 clock secondsAway : Z) :
  -1000 <= clock ->
  isDeadlineTime (setNow clock (new_DeadlineComponent clock0)) = true
  /\ isDeadlineTime (resetDeadline (setNow clock (new_DeadlineComponent clock0))
                                   secondsAway) = true.
Proof.
  intros Hc.
  assert (_deadline (new_DeadlineComponent clock0) <> 0) as Hne by done.
  destruct (setNow_flag _ clock Hne) as [Hf _].
  unfold resetDeadline. cbn [isDeadlineTime]. rewrite Hf.
  cbn [new_DeadlineComponent _deadline num_sub].
  rewrite fl_ltb by lia. split; apply Z.ltb_lt; lia.
Qed.

Lemma setNow_before_reset_witness :
  -1000 <= 100
  /\ isDeadlineTime (setNow 100 (new_DeadlineComponent 0)) = true
  /\ isDeadlineTime (resetDeadline (setNow 100 (new_DeadlineComponent 0)) 90) = true.
Proof.
  split; [lia|]. exact (setNow_before_reset 0 100 90 ltac:(lia)).
Defined.
